(** * The PokeAPI loader and the query console, embedded in Rocq

    A shallow embedding of [load_pokemon_data.py] (the resumable loader) and
    of the parameter handling of [menu.py] (the query console), with the
    properties of the design document stated and proved over it.

    Conventions of the embedding.
    - A Python [str] is a [string]; each character is a code point below 256.
    - A Python [int] is a [Z].
    - A function that can raise returns an [outcome]; code that talks to the
      store, the network or the clock runs in the monad [M] over a [machine].
    - A table of the store is the list of its rows, oldest first; the key of
      each table is taken from the schema of the design document.
    - The store is seen through its interface: a statement acts on the tables
      at once and does not fail; a commit is an event of the trace, and what
      it makes durable is not modelled. *)

From Stdlib Require Import ZArith Lia Ascii String DecimalString.
From stdpp Require Import base decidable list list_numbers strings gmap.

Local Open Scope Z_scope.

(** ** Exceptions *)

Inductive exn : Type :=
| KeyError            (* d[k] on a missing key *)
| ValueError          (* int(text) on a text that is no integer *)
| IndexError
| AttributeError      (* a method of a value that has none of that name *)
| EOFError            (* input() at the end of the input *)
| HTTPError (status : Z)   (* raise_for_status *)
| RequestException    (* any other failure of requests.get / response.json *)
| PlainException      (* raise Exception(...) *)
| KeyboardInterrupt.  (* a user interrupt; not an Exception *)

(** [except Exception] catches everything but the interrupt. *)
Definition is_Exception (e : exn) : bool :=
  match e with KeyboardInterrupt => false | _ => true end.

(** [except requests.exceptions.RequestException] *)
Definition is_RequestException (e : exn) : bool :=
  match e with HTTPError _ | RequestException => true | _ => false end.

Inductive outcome (A : Type) : Type :=
| Returns (a : A)
| Raises (e : exn).
Arguments Returns {A} a.
Arguments Raises {A} e.

Definition obind {A B} (x : outcome A) (f : A -> outcome B) : outcome B :=
  match x with Returns a => f a | Raises e => Raises e end.

(** ** Text *)

Module Text.

Definition code (c : ascii) : N := N_of_ascii c.

Definition is_digit (c : ascii) : bool := ((48 <=? code c) && (code c <=? 57))%N.

Definition digit_value (c : ascii) : Z := Z.of_N (code c) - 48.

(** The characters [int] skips around a numeral: tab, line feed, vertical
    tab, form feed, carriage return and space, and the two spaces of the
    Latin-1 block (next line, no-break space). *)
Definition int_space (c : ascii) : bool :=
  let n := code c in
  (((9 <=? n) && (n <=? 13)) || (n =? 32) || (n =? 133) || (n =? 160))%N.

(** The characters [str.strip()] removes: those of [int_space] and the four
    separators 28..31. *)
Definition str_space (c : ascii) : bool :=
  let n := code c in
  (((9 <=? n) && (n <=? 13)) || ((28 <=? n) && (n <=? 32))
   || (n =? 133) || (n =? 160))%N.

Definition is_slash (c : ascii) : bool := Ascii.eqb c "/".

Fixpoint lstrip (p : ascii -> bool) (s : string) : string :=
  match s with
  | String c r => if p c then lstrip p r else s
  | EmptyString => EmptyString
  end.

(** [s.rstrip(chars)]: drop the longest suffix made of characters of [p]. *)
Fixpoint rstrip (p : ascii -> bool) (s : string) : string :=
  match s with
  | String c r =>
      match rstrip p r with
      | EmptyString => if p c then EmptyString else String c EmptyString
      | r' => String c r'
      end
  | EmptyString => EmptyString
  end.

Definition strip (p : ascii -> bool) (s : string) : string :=
  rstrip p (lstrip p s).

(** [s.split(sep)] for a one-character separator: never the empty list. *)
Fixpoint split (sep : ascii) (s : string) : list string :=
  match s with
  | String c r =>
      if Ascii.eqb c sep then EmptyString :: split sep r
      else match split sep r with
           | hd :: tl => String c hd :: tl
           | [] => [String c EmptyString]
           end
  | EmptyString => [EmptyString]
  end.

Fixpoint all (p : ascii -> bool) (s : string) : bool :=
  match s with
  | String c r => p c && all p r
  | EmptyString => true
  end.

Fixpoint contains_char (x : ascii) (s : string) : bool :=
  match s with
  | String c r => Ascii.eqb c x || contains_char x r
  | EmptyString => false
  end.

(** [s.replace(old, new)] for a non-empty [old]: occurrences are replaced
    from the left and do not overlap. [skip] counts the characters of an
    occurrence still to be dropped. *)
Fixpoint replace_from (old new : string) (skip : nat) (s : string) : string :=
  match s with
  | String c r =>
      match skip with
      | S k => replace_from old new k r
      | O =>
          if String.prefix old s
          then String.append new (replace_from old new (Nat.pred (String.length old)) r)
          else String c (replace_from old new O r)
      end
  | EmptyString => EmptyString
  end.

Definition replace (old new s : string) : string := replace_from old new O s.

(** The interpreter refuses to convert a text of more than this many digits
    (the default of [sys.set_int_max_str_digits]). *)
Definition int_max_str_digits : nat := 4300.

(** The digits of a numeral, read left to right. Underscores are allowed
    between two digits only. Returns the value, the number of digits and
    the text that follows; [None] on a misplaced underscore. *)
Fixpoint scan_digits (after_underscore : bool) (acc : Z) (n : nat) (s : string)
  : option (Z * nat * string) :=
  match s with
  | String c r =>
      if is_digit c then scan_digits false (acc * 10 + digit_value c) (S n) r
      else if Ascii.eqb c "_" then
        if after_underscore || Nat.eqb n 0 then None
        else scan_digits true acc n r
      else if after_underscore then None else Some (acc, n, s)
  | EmptyString => if after_underscore then None else Some (acc, n, EmptyString)
  end.

(** The optional sign in front of the digits. *)
Definition split_sign (t : string) : bool * string :=
  match t with
  | String "+" r => (false, r)
  | String "-" r => (true, r)
  | _ => (false, t)
  end.

(** [int(text)] in base ten; [None] stands for ValueError. *)
Definition py_int (text : string) : option Z :=
  let '(negative, t) := split_sign (lstrip int_space text) in
  match scan_digits false 0 0 t with
  | Some (v, n, rest) =>
      if Nat.eqb n 0 then None
      else if Nat.ltb int_max_str_digits n then None
      else if all int_space rest then Some (if negative then - v else v)
      else None
  | None => None
  end.

(** [str(n)] for an integer. *)
Definition py_str (n : Z) : string := NilZero.string_of_int (Z.to_int n).

End Text.

(** ** The reference extractor *)

(** [parts[-1]] *)
Definition last_item {A} (parts : list A) : outcome A :=
  match last parts with
  | Some x => Returns x
  | None => Raises IndexError
  end.

Definition int_of_text (text : string) : outcome Z :=
  match Text.py_int text with
  | Some n => Returns n
  | None => Raises ValueError
  end.

Definition extract_pokemon_id_from_url (url : string) : outcome Z :=
  let parts := Text.split "/" (Text.rstrip Text.is_slash url) in
  obind (last_item parts) int_of_text.


(** ** The store *)

(** An evolution edge: the ordered pair (from_pokemon_id, to_pokemon_id). *)
Definition edge : Type := Z * Z.

(** The tables the loader writes. A row is the tuple of its columns. *)
Record database : Type := Database {
  pokemon : list (Z * string);          (* pokemon_id, name *)
  types : list (Z * string);            (* type_id, name *)
  stats : list (Z * string);            (* stat_id, name *)
  moves : list (Z * string);            (* move_id, name *)
  dex : list (Z * string);              (* dex_id, dex_name *)
  height : list (Z * Z);                (* height_id, value *)
  weight : list (Z * Z);                (* weight_id, value *)
  pokemon_type : list (Z * Z);          (* pokemon_id, type_id *)
  pokemon_stat : list (Z * Z * Z);      (* pokemon_id, stat_id, value *)
  pokemon_move : list (Z * Z);          (* pokemon_id, move_id *)
  pokemon_number : list (Z * Z);        (* pokemon_id, dex_id *)
  evolutions : list edge                (* from_pokemon_id, to_pokemon_id *)
}.

Definition empty_database : database :=
  Database [] [] [] [] [] [] [] [] [] [] [] [].

(** Modelled from the spec: the schema of the store is not part of the
    sources; the design document gives the key of each table. Entities and
    scalar attributes are keyed by their id, a relationship row by the ids
    it relates (the stat relationship carries its value as a column), an
    evolution edge by the ordered pair. *)
Definition entity_key {V} (row : Z * V) : Z := row.1.
Definition pair_key (row : Z * Z) : Z * Z := row.
Definition stat_key (row : Z * Z * Z) : Z * Z := row.1.

(** [INSERT OR IGNORE]: the row is appended unless a row with its key is
    already there. *)
Definition insert_or_ignore {R K} `{EqDecision K} (key : R -> K) (row : R)
    (table : list R) : list R :=
  if decide (key row ∈ key <$> table) then table else table ++ [row].

(** The key constraint of a table. *)
Definition unique_keys {R K} (key : R -> K) (table : list R) : Prop :=
  NoDup (key <$> table).

(** The statements the loader sends to the store. *)
Inductive pragma : Type :=
| ForeignKeys (on : bool)
| Synchronous (mode : string)
| JournalMode (mode : string)
| CacheSize (pages : Z)
| TempStore (mode : string).

Inductive statement : Type :=
| InsertPokemon (pokemon_id : Z) (name : string)
| InsertType (type_id : Z) (name : string)
| InsertStat (stat_id : Z) (name : string)
| InsertMove (move_id : Z) (name : string)
| InsertDex (dex_id : Z) (dex_name : string)
| InsertHeight (pokemon_id value : Z)
| InsertWeight (pokemon_id value : Z)
| InsertPokemonType (pokemon_id type_id : Z)
| InsertPokemonStat (pokemon_id stat_id value : Z)
| InsertPokemonMove (pokemon_id move_id : Z)
| InsertPokemonNumber (pokemon_id dex_id : Z)
| InsertEvolution (from_pokemon_id to_pokemon_id : Z)
| SelectCountPokemonIn (a b : Z)
| SelectPokemonIds
| SelectCountPokemon
| SetPragma (p : pragma).

(** What a data statement does to the tables. *)
Definition apply_statement (st : statement) (d : database) : database :=
  let 'Database po ty sa mo de he we pt ps pm pn ev := d in
  match st with
  | InsertPokemon i n =>
      Database (insert_or_ignore entity_key (i, n) po) ty sa mo de he we pt ps pm pn ev
  | InsertType i n =>
      Database po (insert_or_ignore entity_key (i, n) ty) sa mo de he we pt ps pm pn ev
  | InsertStat i n =>
      Database po ty (insert_or_ignore entity_key (i, n) sa) mo de he we pt ps pm pn ev
  | InsertMove i n =>
      Database po ty sa (insert_or_ignore entity_key (i, n) mo) de he we pt ps pm pn ev
  | InsertDex i n =>
      Database po ty sa mo (insert_or_ignore entity_key (i, n) de) he we pt ps pm pn ev
  | InsertHeight i v =>
      Database po ty sa mo de (insert_or_ignore entity_key (i, v) he) we pt ps pm pn ev
  | InsertWeight i v =>
      Database po ty sa mo de he (insert_or_ignore entity_key (i, v) we) pt ps pm pn ev
  | InsertPokemonType i t =>
      Database po ty sa mo de he we (insert_or_ignore pair_key (i, t) pt) ps pm pn ev
  | InsertPokemonStat i s v =>
      Database po ty sa mo de he we pt (insert_or_ignore stat_key (i, s, v) ps) pm pn ev
  | InsertPokemonMove i m =>
      Database po ty sa mo de he we pt ps (insert_or_ignore pair_key (i, m) pm) pn ev
  | InsertPokemonNumber i x =>
      Database po ty sa mo de he we pt ps pm (insert_or_ignore pair_key (i, x) pn) ev
  | InsertEvolution a b =>
      Database po ty sa mo de he we pt ps pm pn (insert_or_ignore pair_key (a, b) ev)
  | SelectCountPokemonIn _ _ | SelectPokemonIds | SelectCountPokemon | SetPragma _ => d
  end.

(** [SELECT COUNT( * ) FROM pokemon WHERE pokemon_id IN (a, b)] *)
Definition count_pokemon_in (a b : Z) (d : database) : Z :=
  Z.of_nat (length (filter (fun row : Z * string => row.1 = a \/ row.1 = b) (pokemon d))).

(** The storage settings the loader changes. *)
Record settings : Type := Settings {
  foreign_keys : bool;
  synchronous : string;
  journal_mode : string;
  cache_size : Z;
  temp_store : string
}.

(** The settings of a connection that has just been opened. *)
Definition fresh_settings : settings := Settings false "FULL" "DELETE" (-2000) "DEFAULT".

Definition apply_pragma (p : pragma) (s : settings) : settings :=
  let 'Settings fk sy jm cs ts := s in
  match p with
  | ForeignKeys on => Settings on sy jm cs ts
  | Synchronous mode => Settings fk mode jm cs ts
  | JournalMode mode => Settings fk sy mode cs ts
  | CacheSize pages => Settings fk sy jm pages ts
  | TempStore mode => Settings fk sy jm cs mode
  end.

(** ** The upstream service *)

(** [{'name': ..., 'url': ...}]; a field is [None] when the key is missing. *)
Record named_ref : Type := NamedRef {
  ref_name : option string;
  ref_url : option string
}.

Record stat_slot : Type := StatSlot {
  slot_stat : option named_ref;        (* 'stat' *)
  slot_base_stat : option Z            (* 'base_stat' *)
}.

Record pokemon_doc : Type := PokemonDoc {
  doc_name : option string;            (* 'name' *)
  doc_height : option Z;               (* 'height' *)
  doc_weight : option Z;               (* 'weight' *)
  doc_types : list (option named_ref);  (* 'types', each slot's 'type' *)
  doc_stats : list stat_slot;          (* 'stats' *)
  doc_moves : list (option named_ref)   (* 'moves', each slot's 'move' *)
}.

Record dex_entry : Type := DexEntry {
  entry_pokedex : option named_ref;    (* 'pokedex' *)
  entry_number : option Z              (* 'entry_number' *)
}.

Record species_doc : Type := SpeciesDoc {
  doc_pokedex_numbers : list dex_entry;     (* 'pokedex_numbers' *)
  doc_evolution_chain_url : option string   (* 'evolution_chain', its 'url' *)
}.

(** A node of an evolution chain: [chain['species']['url']] ([None] when a
    key is missing) and the nodes of ['evolves_to']. *)
#[warnings="-register-all"]
Inductive chain_node : Type :=
| ChainNode (species_url : option string) (evolves_to : list chain_node).

Record chain_doc : Type := ChainDoc {
  doc_chain : option chain_node        (* 'chain'; [None] when missing or empty *)
}.

Record count_doc : Type := CountDoc {
  doc_count : option Z                 (* 'count' *)
}.

(** The answer to one GET. [Answer status body]: a response arrived; [body]
    is the decoded document, [None] for the empty object. [NoAnswer]: the
    request or the decoding of its body failed (a RequestException). *)
Inductive response (D : Type) : Type :=
| Answer (status : Z) (body : option D)
| NoAnswer.
Arguments Answer {D} status body.
Arguments NoAnswer {D}.

Inductive endpoint : Type :=
| CountProbe                  (* {BASE_URL}/pokemon/?limit=1 *)
| PokemonUrl (pokemon_id : Z)  (* {BASE_URL}/pokemon/{pokemon_id}/ *)
| SpeciesUrl (pokemon_id : Z)  (* {BASE_URL}/pokemon-species/{pokemon_id}/ *)
| ChainUrl (url : string).

(** The upstream service: what it answers to the [n]-th request of a run. *)
Record upstream : Type := Upstream {
  count_probe : nat -> response count_doc;
  pokemon_at : nat -> Z -> response pokemon_doc;
  species_at : nat -> Z -> response species_doc;
  chain_at : nat -> string -> response chain_doc
}.


(** ** The machine *)

Inductive event : Type :=
| EvConnect
| EvGet (ep : endpoint)
| EvExecute (st : statement)
| EvCommit
| EvSleep (milliseconds : Z)
| EvCloseCursor
| EvCloseConnection.

(** The state a run acts on. [sigint] is the number of effects the run can
    still perform before a pending user interrupt is delivered; [None] when
    no interrupt is pending. Console output is left out. *)
Record machine : Type := Machine {
  db : database;
  pragmas : settings;
  trace : list event;          (* the effects performed, oldest first *)
  requests : nat;              (* the GETs sent so far *)
  sigint : option nat
}.

Definition boot (d : database) (interrupt : option nat) : machine :=
  Machine d fresh_settings [] 0 interrupt.

Definition M (A : Type) : Type := machine -> outcome A * machine.

#[global] Instance M_ret : MRet M := fun A a m => (Returns a, m).
#[global] Instance M_bind : MBind M := fun A B k c m =>
  match c m with
  | (Returns a, m') => k a m'
  | (Raises e, m') => (Raises e, m')
  end.

Definition raise {A} (e : exn) : M A := fun m => (Raises e, m).

Definition lift {A} (x : outcome A) : M A := fun m => (x, m).

(** [try: body  except <catches>: handler]. *)
Definition try_except {A} (body : M A) (handler : exn -> option (M A)) : M A :=
  fun m =>
    match body m with
    | (Returns a, m') => (Returns a, m')
    | (Raises e, m') =>
        match handler e with
        | Some h => h m'
        | None => (Raises e, m')
        end
    end.

(** [try: body  finally: cleanup]. *)
Definition try_finally {A} (body : M A) (cleanup : M unit) : M A :=
  fun m =>
    match body m with
    | (r, m1) =>
        match cleanup m1 with
        | (Returns _, m2) => (r, m2)
        | (Raises e, m2) => (Raises e, m2)
        end
    end.

(** [for x in xs: body x], with the variables the loop updates in [s]. *)
Fixpoint for_each {A S} (body : A -> S -> M S) (xs : list A) (s : S) : M S :=
  match xs with
  | [] => mret s
  | x :: rest => s' ← body x s; for_each body rest s'
  end.

(** Every effect starts here: a pending interrupt is counted down and
    delivered in place of the effect once the count is used up. *)
Definition tick : M unit := fun m =>
  let 'Machine d p t r i := m in
  match i with
  | Some O => (Raises KeyboardInterrupt, Machine d p t r None)
  | Some (S k) => (Returns tt, Machine d p t r (Some k))
  | None => (Returns tt, m)
  end.

Definition effect (ev : event) (f : machine -> machine) : M unit := fun m =>
  match tick m with
  | (Returns _, m') =>
      let 'Machine d p t r i := f m' in (Returns tt, Machine d p (t ++ [ev]) r i)
  | (Raises e, m') => (Raises e, m')
  end.

Definition on_db (f : database -> database) (m : machine) : machine :=
  let 'Machine d p t r i := m in Machine (f d) p t r i.

Definition on_pragmas (f : settings -> settings) (m : machine) : machine :=
  let 'Machine d p t r i := m in Machine d (f p) t r i.

Definition count_request (m : machine) : machine :=
  let 'Machine d p t r i := m in Machine d p t (S r) i.

(** [cursor.execute(statement, parameters)] *)
Definition execute (st : statement) : M unit :=
  effect (EvExecute st)
    (match st with
     | SetPragma p => on_pragmas (apply_pragma p)
     | _ => on_db (apply_statement st)
     end).

Definition read {A} (f : machine -> A) : M A := fun m => (Returns (f m), m).

Definition commit : M unit := effect EvCommit id.

(** [time.sleep]; the delay is counted in milliseconds. *)
Definition sleep (milliseconds : Z) : M unit := effect (EvSleep milliseconds) id.

(** [requests.get(url)], [raise_for_status()] and [json()]. *)
Definition get_json {D} (ep : endpoint) (answer : nat -> response D) : M (option D) :=
  n ← read requests;
  effect (EvGet ep) count_request;;
  match answer n with
  | NoAnswer => raise RequestException
  | Answer status body =>
      if (400 <=? status) && (status <? 600) then raise (HTTPError status)
      else mret body
  end.

(** ** The loader *)

(** The pause after each processed id: 0.6 seconds. *)
Definition REQUEST_DELAY : Z := 600.

(** [d[key]] *)
Definition getitem {A} (field : option A) : outcome A :=
  match field with
  | Some a => Returns a
  | None => Raises KeyError
  end.

(** [if text:] *)
Definition truthy (text : string) : bool :=
  match text with EmptyString => false | _ => true end.

(** [list(set(edges))]: the elements of the list, each once, in an order
    the language leaves open. *)
Record set_order : Type := SetOrder {
  enumerate : list edge -> list edge;
  enumerate_NoDup : forall l, NoDup (enumerate l);
  enumerate_elem : forall l x, x ∈ enumerate l <-> x ∈ l
}.

(** The locals the main loop updates. *)
Record progress : Type := Progress {
  success_count : Z;
  skipped_count : Z;
  fail_count : Z;
  all_evolutions : list edge
}.

(** The counts a finished run prints. *)
Record summary : Type := Summary {
  loaded_now : Z;
  skipped : Z;
  failed : Z;
  pokemon_in_database : Z
}.

Fixpoint collect_evolution_chain (chain : chain_node) (parent_id : option Z)
    (evolutions : option (list edge)) : outcome (list edge) :=
  let evolutions := default [] evolutions in
  match chain with
  | ChainNode species_url evolves_to =>
      obind (getitem species_url) (fun species_url =>
      obind (extract_pokemon_id_from_url
               (Text.replace "pokemon-species" "pokemon" species_url))
            (fun pokemon_id =>
      let evolutions :=
        match parent_id with
        | Some parent => evolutions ++ [(parent, pokemon_id)]
        | None => evolutions
        end in
      (fix each (nodes : list chain_node) (evolutions : list edge)
         : outcome (list edge) :=
         match nodes with
         | [] => Returns evolutions
         | evolution :: later =>
             obind (collect_evolution_chain evolution (Some pokemon_id)
                      (Some evolutions))
                   (each later)
         end) evolves_to evolutions))
  end.

Section Loader.

Context (up : upstream).

Definition insert_pokemon (pokemon_id : Z) (name : string) : M unit :=
  execute (InsertPokemon pokemon_id name).

Definition insert_type (type_id : Z) (name : string) : M unit :=
  execute (InsertType type_id name).

Definition insert_stat (stat_id : Z) (name : string) : M unit :=
  execute (InsertStat stat_id name).

Definition insert_move (move_id : Z) (name : string) : M unit :=
  execute (InsertMove move_id name).

Definition insert_dex (dex_id : Z) (dex_name : string) : M unit :=
  execute (InsertDex dex_id dex_name).

Definition insert_height (pokemon_id height : Z) : M unit :=
  execute (InsertHeight pokemon_id height).

Definition insert_weight (pokemon_id weight : Z) : M unit :=
  execute (InsertWeight pokemon_id weight).

Definition insert_pokemon_type (pokemon_id type_id : Z) : M unit :=
  execute (InsertPokemonType pokemon_id type_id).

Definition insert_pokemon_stat (pokemon_id stat_id value : Z) : M unit :=
  execute (InsertPokemonStat pokemon_id stat_id value).

Definition insert_pokemon_move (pokemon_id move_id : Z) : M unit :=
  execute (InsertPokemonMove pokemon_id move_id).

Definition insert_pokemon_number (pokemon_id dex_id : Z) : M unit :=
  execute (InsertPokemonNumber pokemon_id dex_id).

Definition insert_evolution (from_pokemon_id to_pokemon_id : Z) : M unit :=
  execute (SelectCountPokemonIn from_pokemon_id to_pokemon_id);;
  count ← read (fun m => count_pokemon_in from_pokemon_id to_pokemon_id (db m));
  if count =? 2
  then execute (InsertEvolution from_pokemon_id to_pokemon_id)
  else mret tt.

Definition bulk_insert : M unit :=
  execute (SetPragma (Synchronous "OFF"));;
  execute (SetPragma (JournalMode "MEMORY"));;
  execute (SetPragma (CacheSize 10000));;
  execute (SetPragma (TempStore "MEMORY")).

Definition restore_sqlite_settings : M unit :=
  execute (SetPragma (Synchronous "NORMAL"));;
  execute (SetPragma (JournalMode "DELETE"));;
  execute (SetPragma (CacheSize (-2000)));;
  execute (SetPragma (TempStore "DEFAULT")).

Definition get_loaded_pokemon_ids : M (gset Z) :=
  execute SelectPokemonIds;;
  read (fun m => list_to_set (pokemon (db m)).*1).

(** One attempt of the count probe: the body of the [try]. *)
Definition probe_count : M Z :=
  data ← get_json CountProbe (count_probe up);
  match data ≫= doc_count with
  | Some count => mret count
  | None => raise ValueError
  end.

(** The attempts of the count probe that are still to be made; the result
    of an attempt is [None] when the loop goes on to the next one. *)
Fixpoint count_attempts (max_retries : Z) (attempts : list Z) : M Z :=
  match attempts with
  | [] => raise PlainException
  | attempt :: later =>
      found ← try_except (count ← probe_count; mret (Some count))
        (fun e =>
           if is_RequestException e then
             Some (if attempt <? max_retries - 1
                   then sleep (1000 * 2 ^ attempt);; mret None
                   else raise PlainException)
           else match e with
                | KeyError | ValueError => Some (raise PlainException)
                | _ => None
                end);
      match found with
      | Some count => mret count
      | None => count_attempts max_retries later
      end
  end.

Definition get_pokemon_count (max_retries : Z) : M Z :=
  count_attempts max_retries (seqZ 0 max_retries).

Definition fetch_pokemon_data (pokemon_id : Z) : M (option pokemon_doc) :=
  try_except (get_json (PokemonUrl pokemon_id) (fun n => pokemon_at up n pokemon_id))
    (fun e =>
       match e with
       | HTTPError status => Some (if status =? 404 then mret None else mret None)
       | _ => if is_Exception e then Some (mret None) else None
       end).

Definition fetch_species_data (pokemon_id : Z) : M (option species_doc) :=
  try_except (get_json (SpeciesUrl pokemon_id) (fun n => species_at up n pokemon_id))
    (fun e =>
       match e with
       | HTTPError status => Some (if status =? 404 then mret None else mret None)
       | _ => if is_Exception e then Some (mret None) else None
       end).

(** The id and the name of a referenced resource: [ref['url']] through the
    extractor, then [ref['name']]. *)
Definition read_ref (slot : option named_ref) : outcome (Z * string) :=
  obind (getitem slot) (fun data =>
  obind (getitem (ref_url data)) (fun url =>
  obind (extract_pokemon_id_from_url url) (fun id =>
  obind (getitem (ref_name data)) (fun name =>
  Returns (id, name))))).

Definition store_types (pokemon_id : Z) (slots : list (option named_ref)) : M unit :=
  for_each (fun type_info _ =>
    '(type_id, type_name) ← lift (read_ref type_info);
    insert_type type_id type_name;;
    insert_pokemon_type pokemon_id type_id) slots tt.

Definition store_stats (pokemon_id : Z) (slots : list stat_slot) : M unit :=
  for_each (fun stat_info _ =>
    '(stat_id, stat_name) ← lift (read_ref (slot_stat stat_info));
    let stat_value := default 0 (slot_base_stat stat_info) in
    insert_stat stat_id stat_name;;
    insert_pokemon_stat pokemon_id stat_id stat_value) slots tt.

Definition store_moves (pokemon_id : Z) (slots : list (option named_ref)) : M unit :=
  for_each (fun move_info _ =>
    '(move_id, move_name) ← lift (read_ref move_info);
    insert_move move_id move_name;;
    insert_pokemon_move pokemon_id move_id) slots tt.

Definition store_dex_numbers (pokemon_id : Z) (entries : list dex_entry) : M unit :=
  for_each (fun entry _ =>
    '(dex_id, dex_name) ← lift (read_ref (entry_pokedex entry));
    insert_dex dex_id dex_name;;
    insert_pokemon_number pokemon_id dex_id) entries tt.

(** The edges of the chain behind [evolution_chain_url]; any Exception on
    the way leaves the list empty. *)
Definition fetch_evolutions (evolution_chain_url : string) : M (list edge) :=
  try_except
    (evolution_data ← get_json (ChainUrl evolution_chain_url)
                        (fun n => chain_at up n evolution_chain_url);
     match evolution_data ≫= doc_chain with
     | Some chain => lift (collect_evolution_chain chain None None)
     | None => mret []
     end)
    (fun e => if is_Exception e then Some (mret []) else None).

Definition process_pokemon (pokemon_id : Z) : M (option (list edge)) :=
  pokemon_data ← fetch_pokemon_data pokemon_id;
  match pokemon_data with
  | None => mret None
  | Some pokemon_data =>
      species_data ← fetch_species_data pokemon_id;
      pokemon_name ← lift (getitem (doc_name pokemon_data));
      insert_pokemon pokemon_id pokemon_name;;
      insert_height pokemon_id (default 0 (doc_height pokemon_data));;
      insert_weight pokemon_id (default 0 (doc_weight pokemon_data));;
      store_types pokemon_id (doc_types pokemon_data);;
      store_stats pokemon_id (doc_stats pokemon_data);;
      store_moves pokemon_id (doc_moves pokemon_data);;
      evolutions ←
        match species_data with
        | Some species_data =>
            store_dex_numbers pokemon_id (doc_pokedex_numbers species_data);;
            match doc_evolution_chain_url species_data with
            | Some evolution_chain_url =>
                if truthy evolution_chain_url
                then fetch_evolutions evolution_chain_url
                else mret []
            | None => mret []
            end
        | None => mret []
        end;
      mret (Some evolutions)
  end.

(** The main loop on an id that is not in the resume set. *)
Definition process_one (pokemon_id : Z) (st : progress) : M progress :=
  let 'Progress success_count skipped_count fail_count all_evolutions := st in
  evolutions ← process_pokemon pokemon_id;
  let st :=
    match evolutions with
    | Some evolutions =>
        Progress (success_count + 1) skipped_count fail_count
          (match evolutions with
           | [] => all_evolutions
           | _ => all_evolutions ++ evolutions
           end)
    | None => Progress success_count skipped_count (fail_count + 1) all_evolutions
    end in
  (if pokemon_id `mod` 10 =? 0 then commit else mret tt);;
  sleep REQUEST_DELAY;;
  mret st.

(** One turn of the main loop. *)
Definition visit (loaded_pokemon : gset Z) (pokemon_id : Z) (st : progress)
  : M progress :=
  if bool_decide (pokemon_id ∈ loaded_pokemon)
  then let 'Progress success_count skipped_count fail_count all_evolutions := st in
       mret (Progress success_count (skipped_count + 1) fail_count all_evolutions)
  else process_one pokemon_id st.

Definition main_loop (loaded_pokemon : gset Z) (ids : list Z) (st : progress)
  : M progress :=
  for_each (visit loaded_pokemon) ids st.

(** The edges are persisted after the loop, each distinct one once. *)
Definition persist_evolutions (order : set_order) (all_evolutions : list edge)
  : M unit :=
  let unique_evolutions := enumerate order all_evolutions in
  for_each (fun '(from_id, to_id) _ => insert_evolution from_id to_id)
    unique_evolutions tt.

(** The body of the [try] of [main]. *)
Definition main_try (order : set_order) : M summary :=
  loaded_pokemon ← get_loaded_pokemon_ids;
  total_pokemon ← get_pokemon_count 3;
  st ← main_loop loaded_pokemon (seqZ 1 total_pokemon) (Progress 0 0 0 []);
  persist_evolutions order (all_evolutions st);;
  commit;;
  execute SelectCountPokemon;;
  pokemon_count ← read (fun m => Z.of_nat (length (pokemon (db m))));
  mret (Summary (success_count st) (skipped_count st) (fail_count st) pokemon_count).

(** The [finally] of [main]. *)
Definition main_finally : M unit :=
  restore_sqlite_settings;;
  commit;;
  effect EvCloseCursor id;;
  effect EvCloseConnection id.

Definition main (order : set_order) : M summary :=
  effect EvConnect id;;
  execute (SetPragma (ForeignKeys true));;
  bulk_insert;;
  try_finally (main_try order) main_finally.


End Loader.

(** ** The query console: the parameters of a read-only query

    What the console prints (the banner, the prompts, the notices and the
    table of results) is left out. *)

Module Menu.

(** A Python value of the parameter tables: an [int] or a [str]. *)
Inductive value : Type :=
| VInt (n : Z)
| VStr (s : string).

(** An entry of ['input_params']; a field is [None] when the key is missing. *)
Record param : Type := Param {
  param_name : option string;      (* 'name' *)
  param_prompt : option string;    (* 'prompt' *)
  param_type : option string;      (* 'type' *)
  param_default : option value     (* 'default' *)
}.

(** [if v:] *)
Definition truthy (v : value) : bool :=
  match v with
  | VInt n => negb (n =? 0)
  | VStr s => match s with EmptyString => false | _ => true end
  end.

(** [str(v)] *)
Definition to_text (v : value) : string :=
  match v with
  | VInt n => Text.py_str n
  | VStr s => s
  end.

(** [int(v)] *)
Definition to_int (v : value) : outcome Z :=
  match v with
  | VInt n => Returns n
  | VStr s => int_of_text s
  end.

(** [c.lower()] for a code point below 256. *)
Definition lower_char (c : ascii) : ascii :=
  let n := Text.code c in
  if (((65 <=? n) && (n <=? 90)) || ((192 <=? n) && (n <=? 222) && negb (n =? 215)))%N
  then ascii_of_N (n + 32) else c.

Fixpoint lower (s : string) : string :=
  match s with
  | String c r => String (lower_char c) (lower r)
  | EmptyString => EmptyString
  end.

(** [sep.join(parts)] *)
Fixpoint join (sep : string) (parts : list string) : string :=
  match parts with
  | [] => ""
  | [x] => x
  | x :: rest => x +:+ sep +:+ join sep rest
  end.

(** [[t.strip().lower() for t in text.split(',') if t.strip()]] *)
Definition split_list (text : string) : list string :=
  omap (fun t =>
          match Text.strip Text.str_space t with
          | EmptyString => None
          | stripped => Some (lower stripped)
          end) (Text.split "," text).

(** What the loop over the parameters does with one of them. *)
Inductive turn : Type :=
| Continue                                           (* [continue] *)
| Bind (query : string) (values : list value).       (* go on with the next one *)

Section Console.

(** [template.format(argument)], which the console leaves to the language. *)
Context (format : string -> string -> outcome string).

(** The body of the loop over ['input_params'] of a read-only query:
    [line] is what [input(prompt)] returned, [query_to_execute] and
    [param_values] are the locals of the loop. *)
Definition read_param (p : param) (query_to_execute : string)
    (param_values : list value) (line : string) : outcome turn :=
  let param_name := default "value" (param_name p) in
  let param_type := default "str" (param_type p) in
  let param_default := default (VStr "") (param_default p) in
  let user_input := Text.strip Text.str_space line in
  (* Handle empty input - use default *)
  let after_default : option string :=
    match user_input with
    | EmptyString =>
        if truthy param_default then Some (to_text param_default)
        else if String.eqb param_type "like" then Some "%"
        else if String.eqb param_type "int" then
          if truthy param_default then Some (to_text param_default) else None
        else if String.eqb param_type "in" then
          if truthy param_default then Some (to_text param_default) else None
        else Some ""
    | _ => Some user_input
    end in
  match after_default with
  | None => Returns Continue
  | Some user_input =>
      (* Transform input based on type *)
      if String.eqb param_type "like" then
        let transformed_value :=
          if Text.contains_char "%" user_input then user_input
          else "%" +:+ user_input +:+ "%" in
        Returns (Bind query_to_execute (param_values ++ [VStr transformed_value]))
      else if String.eqb param_type "in" then
        let type_list := split_list user_input in
        match type_list with
        | _ :: _ =>
            let placeholders := join "," (const "?" <$> type_list) in
            obind (format query_to_execute placeholders) (fun query =>
            Returns (Bind query (param_values ++ (VStr <$> type_list))))
        | [] =>
            if truthy param_default then
              match param_default with
              | VStr text =>
                  let type_list := split_list text in
                  let placeholders := join "," (const "?" <$> type_list) in
                  obind (format query_to_execute placeholders) (fun query =>
                  Returns (Bind query (param_values ++ (VStr <$> type_list))))
              | VInt _ => Raises AttributeError   (* [param_default.split] *)
              end
            else Raises ValueError
        end
      else if String.eqb param_type "int" then
        match int_of_text user_input with
        | Returns transformed_value =>
            Returns (Bind query_to_execute (param_values ++ [VInt transformed_value]))
        | Raises ValueError =>
            if truthy param_default then
              obind (to_int param_default) (fun n =>
              Returns (Bind query_to_execute (param_values ++ [VInt n])))
            else Returns (Bind query_to_execute (param_values ++ [VInt 0]))
        | Raises e => Raises e
        end
      else if String.eqb param_type "str" then
        let transformed_value :=
          if String.eqb param_name "move_name" then lower user_input else user_input in
        Returns (Bind query_to_execute (param_values ++ [VStr transformed_value]))
      else
        Returns (Bind query_to_execute (param_values ++ [VStr user_input]))
  end.

(** The loop over ['input_params']; [lines] is what is left of the input. *)
Fixpoint read_params (params : list param) (query_to_execute : string)
    (param_values : list value) (lines : list string)
  : outcome (string * list value) * list string :=
  match params with
  | [] => (Returns (query_to_execute, param_values), lines)
  | p :: later =>
      match lines with
      | [] => (Raises EOFError, [])
      | line :: lines =>
          match read_param p query_to_execute param_values line with
          | Returns Continue => read_params later query_to_execute param_values lines
          | Returns (Bind query values) => read_params later query values lines
          | Raises e => (Raises e, lines)
          end
      end
  end.

(** What [execute_query] does for a read-only query. *)
Inductive report : Type :=
| Executed (query : string) (values : list value)   (* sent to the store *)
| Failed (e : exn).                                 (* reported; returns False *)

(** [execute_query(query_num)] for a read-only query with the text [query]
    and the parameters [input_params] (the two-part query 13 has none). *)
Definition execute_query (query : string) (input_params : list param)
    (lines : list string) : report * list string :=
  let query := Text.strip Text.str_space query in
  match input_params with
  | [] => (Executed query [], lines)
  | _ =>
      match read_params input_params query [] lines with
      | (Returns (query_to_execute, param_values), lines) =>
          (Executed query_to_execute param_values, lines)
      | (Raises e, lines) => (Failed e, lines)
      end
  end.

End Console.

(** The parameter declares no default: the key is missing, or its value is
    the empty text or zero. *)
Definition no_default (p : param) : Prop :=
  match param_default p with
  | Some v => truthy v = false
  | None => True
  end.

End Menu.

From Stdlib Require Import DecimalZ.

(** ** The addresses of the upstream *)

Definition BASE_URL : string := "https://pokeapi.co/api/v2".

(** The address [requests.get] is called with for each endpoint. *)
Definition endpoint_url (ep : endpoint) : string :=
  match ep with
  | CountProbe => BASE_URL +:+ "/pokemon/?limit=1"
  | PokemonUrl pokemon_id => BASE_URL +:+ "/pokemon/" +:+ Text.py_str pokemon_id +:+ "/"
  | SpeciesUrl pokemon_id =>
      BASE_URL +:+ "/pokemon-species/" +:+ Text.py_str pokemon_id +:+ "/"
  | ChainUrl url => url
  end.

(** ** The query console: [execute_query] and the menu loop

    The store is seen through the calls the console makes on its connection;
    which [execute] (with its [fetchall]) or [commit] the store refuses
    (sqlite3.Error) is left to an oracle that is given the calls that
    succeeded so far; [rollback] and [close] succeed. What the console
    prints is left out, but the lookups its messages make are kept, since
    they can raise. *)

Module Console.

Import Menu.

(** A call on the connection or its cursor that succeeded. *)
Inductive action : Type :=
| Execute (sql : string) (parameters : list value)   (* cursor.execute, fetchall *)
| Commit
| Rollback
| Close.

(** An entry of QUERIES or of MODIFICATIONS; a field is [None] when the key
    is missing. *)
Record query_info : Type := QueryInfo {
  info_name : option string;           (* 'name' *)
  info_description : option string;    (* 'description' *)
  info_query : option string;          (* 'query' *)
  info_query2 : option string;         (* 'query2' *)
  info_input_params : list param       (* 'input_params', [] when missing *)
}.

(** How the body of the [try] of [execute_query] can stop short. *)
Inductive halt : Type :=
| Refused             (* conn.close(); return False *)
| StoreError          (* sqlite3.Error *)
| Raised (e : exn).   (* any other exception *)

(** The input that is left and the calls made so far. *)
Definition session : Type := list string * list action.

Definition C (A : Type) : Type := session -> (A + halt) * session.

#[global] Instance C_ret : MRet C := fun A a s => (inl a, s).
#[global] Instance C_bind : MBind C := fun A B k c s =>
  match c s with
  | (inl a, s') => k a s'
  | (inr h, s') => (inr h, s')
  end.

Definition stop {A} (h : halt) : C A := fun s => (inr h, s).

Definition lift {A} (x : outcome A) : C A :=
  match x with
  | Returns a => mret a
  | Raises e => stop (Raised e)
  end.

(** [input(prompt)] *)
Definition input : C string := fun '(lines, done) =>
  match lines with
  | [] => (inr (Raised EOFError), ([], done))
  | line :: lines => (inl line, (lines, done))
  end.

(** [[s.strip() for s in query.split(';') if s.strip()]] *)
Definition split_statements (query : string) : list string :=
  omap (fun s =>
          match Text.strip Text.str_space s with
          | EmptyString => None
          | stripped => Some stripped
          end) (Text.split ";" query).

(** [statements[i]] for an index that is not negative *)
Definition nth_statement (statements : list string) (i : nat) : outcome string :=
  match statements !! i with
  | Some s => Returns s
  | None => Raises IndexError
  end.

(** What the loop over the parameters of a modification does with one of
    them. *)
Inductive verdict : Type :=
| Reject                          (* conn.close(); return False *)
| Accept (values : list value).   (* go on with the next one *)

(** The body of the loop over ['input_params'] of a modification. *)
Definition read_param (p : param) (param_values : list value) (line : string)
  : outcome verdict :=
  let param_type := default "str" (param_type p) in
  let param_default := default (VStr "") (param_default p) in
  let user_input := Text.strip Text.str_space line in
  (* Handle empty input - use default *)
  let after_default : option string :=
    match user_input with
    | EmptyString =>
        if truthy param_default then Some (to_text param_default)
        else if String.eqb param_type "int" then
          if truthy param_default then Some (to_text param_default) else None
        else if String.eqb param_type "str" then
          if truthy param_default then Some (to_text param_default) else None
        else Some ""
    | _ => Some user_input
    end in
  match after_default with
  | None => Returns Reject
  | Some user_input =>
      (* Transform input based on type *)
      if String.eqb param_type "int" then
        match int_of_text user_input with
        | Returns transformed_value =>
            Returns (Accept (param_values ++ [VInt transformed_value]))
        | Raises ValueError =>
            if truthy param_default then
              obind (to_int param_default) (fun n =>
              Returns (Accept (param_values ++ [VInt n])))
            else Returns Reject
        | Raises e => Raises e
        end
      else Returns (Accept (param_values ++ [VStr user_input]))
  end.

Section Store.

(** [template.format(argument)], as in the read-only loop. *)
Context (format : string -> string -> outcome string).

(** Whether the store accepts a call, given the calls it accepted so far. *)
Context (accepts : list action -> action -> bool).

(** The tables of [queries.py]. *)
Context (QUERIES MODIFICATIONS : gmap Z query_info).

(** A call the store may refuse: [cursor.execute] (with its [fetchall]) and
    [conn.commit]. *)
Definition call (a : action) : C unit := fun '(lines, done) =>
  if accepts done a then (inl tt, (lines, done ++ [a]))
  else (inr StoreError, (lines, done)).

(** The loop over ['input_params'] of a modification. *)
Fixpoint read_params (params : list param) (param_values : list value)
  : C (list value) :=
  match params with
  | [] => mret param_values
  | p :: later =>
      line ← input;
      turn ← lift (read_param p param_values line);
      match turn with
      | Reject => stop Refused
      | Accept values => read_params later values
      end
  end.

(** The loop over ['input_params'] of a read-only query. *)
Definition read_query_params (params : list param) (query : string)
  : C (string * list value) := fun '(lines, done) =>
  match Menu.read_params format params query [] lines with
  | (Returns r, lines') => (inl r, (lines', done))
  | (Raises e, lines') => (inr (Raised e), (lines', done))
  end.

(** The statements of the three modifications that take parameters. *)
Definition run_modification (query_num : Z) (statements : list string)
    (param_values : list value) : C unit :=
  let statement i := lift (nth_statement statements i) in
  if query_num =? 29 then
    match param_values with
    | [pokemon_id; name; height; weight; type_id;
       stat1_id; stat1_val; stat2_id; stat2_val; stat3_id; stat3_val] =>
        s ← statement 0%nat; call (Execute s [pokemon_id; name]);;
        s ← statement 1%nat; call (Execute s [pokemon_id; height]);;
        s ← statement 2%nat; call (Execute s [pokemon_id; weight]);;
        s ← statement 3%nat; call (Execute s [pokemon_id; type_id]);;
        s ← statement 4%nat;
        call (Execute s [pokemon_id; stat1_id; stat1_val; pokemon_id; stat2_id; stat2_val;
                         pokemon_id; stat3_id; stat3_val])
    | _ => stop (Raised ValueError)
    end
  else if query_num =? 30 then
    match param_values with
    | [stat_increase; avg_threshold; stat_id] =>
        s ← statement 0%nat; call (Execute s [stat_increase; avg_threshold; stat_id])
    | _ => stop (Raised ValueError)
    end
  else if query_num =? 31 then
    match param_values with
    | [min_pokemon_id; pokemon_id] =>
        s ← statement 0%nat; call (Execute s [min_pokemon_id]);;
        s ← statement 1%nat; call (Execute s [pokemon_id]);;
        s ← statement 2%nat; call (Execute s [pokemon_id]);;
        s ← statement 3%nat; call (Execute s [pokemon_id]);;
        s ← statement 4%nat; call (Execute s [pokemon_id]);;
        s ← statement 5%nat; call (Execute s [pokemon_id])
    | _ => stop (Raised ValueError)
    end
  else mret tt.

(** [for stmt in statements: cursor.execute(stmt)] *)
Fixpoint run_statements (statements : list string) : C unit :=
  match statements with
  | [] => mret tt
  | stmt :: later => call (Execute stmt []);; run_statements later
  end.

(** [table[key]] *)
Definition lookup_info (table : gmap Z query_info) (query_num : Z) : C query_info :=
  match table !! query_num with
  | Some info => mret info
  | None => stop (Raised KeyError)
  end.

(** The body of the [try] of [execute_query], after the connection has been
    opened and up to the [conn.close()] that precedes [return True]. *)
Definition execute_query_try (query_num : Z) (is_modification : bool) : C unit :=
  query_info ←
    (if is_modification then
       query_info ← lookup_info MODIFICATIONS query_num;
       lift (getitem (info_name query_info));;
       lift (getitem (info_description query_info));;
       confirm ← input;
       if String.eqb (lower (Text.strip Text.str_space confirm)) "yes"
       then mret query_info
       else stop Refused
     else lookup_info QUERIES query_num);
  lift (getitem (info_name query_info));;
  lift (getitem (info_description query_info));;
  if query_num =? 13 then
    query ← lift (getitem (info_query query_info));
    call (Execute query []);;
    query2 ← lift (getitem (info_query2 query_info));
    call (Execute query2 [])
  else
    query ← lift (getitem (info_query query_info));
    let query := Text.strip Text.str_space query in
    let input_params := info_input_params query_info in
    if is_modification then
      match input_params with
      | _ :: _ =>
          param_values ← read_params input_params [];
          let statements := split_statements query in
          run_modification query_num statements param_values;;
          call Commit
      | [] =>
          let statements := split_statements query in
          run_statements statements;;
          call Commit
      end
    else
      match input_params with
      | _ :: _ =>
          '(query_to_execute, param_values) ← read_query_params input_params query;
          call (Execute query_to_execute param_values)
      | [] => call (Execute query [])
      end.

(** [execute_query(query_num, is_modification)]: what it returns, the calls
    it made on the connection, and the input it left. *)
Definition execute_query (query_num : Z) (is_modification : bool)
    (lines : list string) : outcome bool * list action * list string :=
  match execute_query_try query_num is_modification (lines, []) with
  | (inl _, (lines, done)) => (Returns true, done ++ [Close], lines)
  | (inr Refused, (lines, done)) => (Returns false, done ++ [Close], lines)
  | (inr StoreError, (lines, done)) => (Returns false, done ++ [Rollback; Close], lines)
  | (inr (Raised e), (lines, done)) =>
      if is_Exception e then (Returns false, done ++ [Close], lines)
      else (Raises e, done, lines)
  end.

(** [print_menu()]: of what it does, the lookups of the name and of the
    description of every entry, which raise when a key is missing. *)
Definition print_menu : outcome unit :=
  let listed (info : query_info) : bool :=
    match info_name info, info_description info with
    | Some _, Some _ => true
    | _, _ => false
    end in
  if forallb listed (map_to_list QUERIES).*2 && forallb listed (map_to_list MODIFICATIONS).*2
  then Returns tt else Raises KeyError.

(** [input("Press Enter to continue...")], then the next turn of the loop. *)
Definition press_enter {A} (lines : list string) (log : list (list action))
    (next : list string -> A) (stop : outcome unit * list (list action) * list string -> A)
  : A :=
  match lines with
  | [] => stop (Raises EOFError, log, [])
  | _ :: lines => next lines
  end.

(** The loop of [main]: [log] holds the calls of every [execute_query] made
    so far. The loop takes a line of the input at every turn, so [fuel] is
    bounded by the length of the input ([None] when it was not enough). *)
Fixpoint main_loop (fuel : nat) (lines : list string) (log : list (list action))
  : option (outcome unit * list (list action) * list string) :=
  match fuel with
  | O => None
  | S fuel =>
      match print_menu with
      | Raises e => Some (Raises e, log, lines)
      | Returns _ =>
          match lines with
          | [] => Some (Raises EOFError, log, [])
          | choice :: lines =>
              let choice := Text.strip Text.str_space choice in
              if String.eqb choice "0" then Some (Returns tt, log, lines)
              else
                match int_of_text choice with
                | Raises _ =>
                    (* except ValueError *)
                    press_enter lines log (fun lines => main_loop fuel lines log) Some
                | Returns query_num =>
                    let ran :=
                      if bool_decide (is_Some (QUERIES !! query_num))
                      then Some (execute_query query_num false lines)
                      else if bool_decide (is_Some (MODIFICATIONS !! query_num))
                      then Some (execute_query query_num true lines)
                      else None in
                    match ran with
                    | Some (Returns _, calls, lines) =>
                        press_enter lines (log ++ [calls])
                          (fun lines => main_loop fuel lines (log ++ [calls])) Some
                    | Some (Raises KeyboardInterrupt, calls, lines) =>
                        (* except KeyboardInterrupt: break *)
                        Some (Returns tt, log ++ [calls], lines)
                    | Some (Raises ValueError, calls, lines) =>
                        press_enter lines (log ++ [calls])
                          (fun lines => main_loop fuel lines (log ++ [calls])) Some
                    | Some (Raises e, calls, lines) => Some (Raises e, log ++ [calls], lines)
                    | None =>
                        press_enter lines log (fun lines => main_loop fuel lines log) Some
                    end
                end
          end
      end
  end.

(** [main()]: how it ends, the calls of every query it ran, and the input
    it left. *)
Definition main (lines : list string)
  : option (outcome unit * list (list action) * list string) :=
  main_loop (S (length lines)) lines [].

End Store.

End Console.

(** ** The query console: [format_results] *)

Module Table.

(** A value of a result row, as far as [format_results] looks at it: [None],
    or any other value with its truth value and its [str]. *)
Inductive cell : Type :=
| Null
| Value (truthy : bool) (text : string).

(** [len(str(val)) if val else 0] *)
Definition measure (val : cell) : nat :=
  match val with
  | Value true text => String.length text
  | _ => 0%nat
  end.

(** What is printed for a value: its [str], "NULL" for [None]. *)
Definition display (val : cell) : string :=
  match val with
  | Null => "NULL"
  | Value _ text => text
  end.

(** [c * n] for a one-character text *)
Fixpoint times (c : ascii) (n : nat) : string :=
  match n with
  | O => ""
  | S n => String c (times c n)
  end.

(** [s.ljust(width)] *)
Definition ljust (width : nat) (s : string) : string :=
  s +:+ times " " (width - String.length s).

(** [for i, val in enumerate(row): col_widths[i] = max(col_widths[i], ...)],
    from the index [i] on. *)
Fixpoint widen_row (col_widths : list nat) (i : nat) (row : list cell)
  : outcome (list nat) :=
  match row with
  | [] => Returns col_widths
  | val :: later =>
      match col_widths !! i with
      | Some width => widen_row (<[i := Nat.max width (measure val)]> col_widths) (S i) later
      | None => Raises IndexError
      end
  end.

Fixpoint widen (col_widths : list nat) (results : list (list cell)) : outcome (list nat) :=
  match results with
  | [] => Returns col_widths
  | row :: later => obind (widen_row col_widths 0 row) (fun col_widths => widen col_widths later)
  end.

(** [text.ljust(col_widths[i]) for i, text in enumerate(texts)], from the
    index [i] on. *)
Fixpoint pad (col_widths : list nat) (i : nat) (texts : list string)
  : outcome (list string) :=
  match texts with
  | [] => Returns []
  | text :: later =>
      match col_widths !! i with
      | Some width =>
          obind (pad col_widths (S i) later) (fun padded =>
          Returns (ljust width text :: padded))
      | None => Raises IndexError
      end
  end.

Definition line (col_widths : list nat) (texts : list string) : outcome string :=
  obind (pad col_widths 0 texts) (fun padded => Returns (Menu.join " | " padded)).

Fixpoint lines (col_widths : list nat) (results : list (list cell))
  : outcome (list string) :=
  match results with
  | [] => Returns []
  | row :: later =>
      obind (line col_widths (display <$> row)) (fun first =>
      obind (lines col_widths later) (fun rest => Returns (first :: rest)))
  end.

Definition newline : string := String "010" "".

(** The header, the separator and the rows of a table that is not empty. *)
Definition layout (columns : list string) (results : list (list cell))
  : outcome (string * string * list string) :=
  let col_widths := String.length <$> columns in
  obind (widen col_widths results) (fun col_widths =>
  obind (line col_widths columns) (fun header =>
  let separator := times "-" (String.length header) in
  obind (lines col_widths results) (fun rows =>
  Returns (header, separator, rows)))).

(** [format_results(cursor, results)], [columns] being the names of
    [cursor.description]. *)
Definition format_results (columns : list string) (results : list (list cell))
  : outcome string :=
  match results with
  | [] => Returns "No results found."
  | _ =>
      obind (layout columns results) (fun '(header, separator, rows) =>
      Returns (header +:+ newline +:+ separator +:+ newline +:+ Menu.join newline rows))
  end.

End Table.

(** * Specification *)

Fixpoint slashes (k : nat) : string :=
  match k with O => "" | S k => String "/" (slashes k) end.

Fixpoint decimal_value (s : string) : Z :=
  match s with
  | String c r => Text.digit_value c * 10 ^ Z.of_nat (String.length r) + decimal_value r
  | EmptyString => 0
  end.

Definition digits (s : string) : Prop := s <> "" /\ Text.all Text.is_digit s = true.

Inductive final_segment : string -> string -> Prop :=
| fs_plain seg k :
    Text.contains_char "/" seg = false -> seg <> "" ->
    final_segment (seg +:+ slashes k) seg
| fs_after p seg k :
    Text.contains_char "/" seg = false -> seg <> "" ->
    final_segment (p +:+ String "/" (seg +:+ slashes k)) seg
| fs_empty k : final_segment (slashes k) "".

Inductive numeral_body : string -> Prop :=
| nb_last c : Text.is_digit c = true -> numeral_body (String c "")
| nb_digit c s : Text.is_digit c = true -> numeral_body s -> numeral_body (String c s)
| nb_under c s :
    Text.is_digit c = true -> numeral_body s -> numeral_body (String c (String "_" s)).

Fixpoint count_digits (s : string) : nat :=
  match s with
  | String c r => (if Text.is_digit c then 1 else 0) + count_digits r
  | EmptyString => 0
  end.

Definition int_literal (s : string) : Prop :=
  exists lead sign body trail,
    s = lead +:+ sign +:+ body +:+ trail /\
    Text.all Text.int_space lead = true /\
    (sign = "" \/ sign = "+" \/ sign = "-") /\
    numeral_body body /\
    (count_digits body <= Text.int_max_str_digits)%nat /\
    Text.all Text.int_space trail = true.

Definition log (ev : event) (m : machine) : machine :=
  let 'Machine d p t r i := m in Machine d p (t ++ [ev]) r i.

(** What the events of a trace did to the tables. *)
Definition replay (evs : list event) (d : database) : database :=
  foldl (fun d ev => match ev with EvExecute st => apply_statement st d | _ => d end) d evs.

(** A computation respects [R] when [R] relates the machine before to the
    machine after, however the computation ends. *)
Definition respects (R : relation machine) {A} (c : M A) : Prop :=
  forall m, R m (c m).2.

(** The events of a step all satisfy [P], and the tables changed as the
    events say. *)
Definition logged (P : event -> Prop) : relation machine := fun m m' =>
  exists evs, trace m' = trace m ++ evs /\ db m' = replay evs (db m) /\ Forall P evs.

(** The events of [process_pokemon id]. *)
Definition by_pokemon (id : Z) (ev : event) : Prop :=
  match ev with
  | EvGet (PokemonUrl i) | EvGet (SpeciesUrl i) => i = id
  | EvGet (ChainUrl _) => True
  | EvExecute st =>
      match st with
      | InsertPokemon i _ | InsertHeight i _ | InsertWeight i _ | InsertPokemonType i _
      | InsertPokemonStat i _ _ | InsertPokemonMove i _ | InsertPokemonNumber i _ => i = id
      | InsertType _ _ | InsertStat _ _ | InsertMove _ _ | InsertDex _ _ => True
      | _ => False
      end
  | _ => False
  end.


(** An event that writes no row. *)
Definition no_write (ev : event) : Prop :=
  match ev with
  | EvExecute (SelectCountPokemonIn _ _ | SelectPokemonIds | SelectCountPokemon
               | SetPragma _) => True
  | EvExecute _ => False
  | _ => True
  end.

Definition known (id : Z) (d : database) : Prop := id ∈ (pokemon d).*1.

(** Every edge of the table joins two ids of the record table. *)
Definition referential (d : database) : Prop :=
  forall e, e ∈ evolutions d -> known e.1 d /\ known e.2 d.

(** The locals after a skipped id, a failed id and a loaded id. *)
Definition skip_one (st : progress) : progress :=
  Progress (success_count st) (skipped_count st + 1) (fail_count st) (all_evolutions st).
Definition fail_one (st : progress) : progress :=
  Progress (success_count st) (skipped_count st) (fail_count st + 1) (all_evolutions st).
Definition succeed_one (evolutions : list edge) (st : progress) : progress :=
  Progress (success_count st + 1) (skipped_count st) (fail_count st)
    (all_evolutions st ++ evolutions).
Definition classify (r : option (list edge)) (st : progress) : progress :=
  match r with Some evolutions => succeed_one evolutions st | None => fail_one st end.

(** The commit of the main loop after id [id], if any. *)
Definition batch_commit (id : Z) : list event :=
  if id `mod` 10 =? 0 then [EvCommit] else [].

Definition log_all (evs : list event) (m : machine) : machine :=
  let 'Machine d p t r i := m in Machine d p (t ++ evs) r i.



(** The id of a node, as the collector derives it. *)
Definition node_id (species_url : option string) : outcome Z :=
  obind (getitem species_url) (fun url =>
    extract_pokemon_id_from_url (Text.replace "pokemon-species" "pokemon" url)).


(** The events of the run outside the processing of the ids. *)
Definition housekeeping (ev : event) : Prop :=
  match ev with
  | EvConnect | EvCommit | EvSleep _ | EvCloseCursor | EvCloseConnection
  | EvGet CountProbe => True
  | EvExecute (SelectCountPokemonIn _ _ | SelectPokemonIds | SelectCountPokemon
               | SetPragma _) => True
  | _ => False
  end.

(** The events of the edge upsert. *)
Definition by_edge (ev : event) : Prop :=
  match ev with
  | EvExecute (SelectCountPokemonIn _ _ | InsertEvolution _ _) => True
  | _ => False
  end.




(** What [fetch_pokemon_data] makes of an answer. *)
Definition fetched {D} (a : response D) : option D :=
  match a with
  | NoAnswer => None
  | Answer status body => if (400 <=? status) && (status <? 600) then None else body
  end.





Definition prelude_events : list event :=
  [EvConnect; EvExecute (SetPragma (ForeignKeys true));
   EvExecute (SetPragma (Synchronous "OFF")); EvExecute (SetPragma (JournalMode "MEMORY"));
   EvExecute (SetPragma (CacheSize 10000)); EvExecute (SetPragma (TempStore "MEMORY"))].





(** The locals after [k] skipped ids. *)
Definition skip_many (k : Z) (st : progress) : progress :=
  Progress (success_count st) (skipped_count st + k) (fail_count st) (all_evolutions st).

(** The edges the edge upsert was called on, in the order of the calls:
    every call starts with its SELECT. *)
Definition upserts (evs : list event) : list edge :=
  omap (fun ev => match ev with
                  | EvExecute (SelectCountPokemonIn a b) => Some (a, b)
                  | _ => None
                  end) evs.

(** Both ends of the edge are in the record table, and they differ. *)
Definition joins_records (e : edge) (d : database) : Prop :=
  e.1 <> e.2 /\ known e.1 d /\ known e.2 d.



(** The tables keep [I], whatever the step does. *)
Definition keeps (I : database -> Prop) : relation machine := fun m m' =>
  I (db m) -> I (db m').

(** The record table has one row per id, and every edge of the evolutions
    table joins two of its ids. *)
Definition edges_anchored (d : database) : Prop :=
  unique_keys entity_key (pokemon d) /\ referential d.

(** An event other than the insert of an edge. *)
Definition no_edge_insert (ev : event) : Prop :=
  match ev with
  | EvExecute (InsertEvolution _ _) => False
  | _ => True
  end.

(** An outcome other than the user interrupt. *)
Definition ordinary {A} (x : outcome A) : Prop := x <> Raises KeyboardInterrupt.


(** ** Further notions *)

(** A request that ends in a RequestException: no answer, or an error
    status. *)
Definition request_fails {D} (a : response D) : Prop :=
  match a with
  | NoAnswer => True
  | Answer status _ => 400 <= status < 600
  end.

(** The events of [k] failed attempts of the count probe, the first being
    the attempt [j]: each GET is followed by its backoff. *)
Definition backoff (j : Z) (k : nat) : list event :=
  flat_map (fun attempt => [EvGet CountProbe; EvSleep (1000 * 2 ^ attempt)])
    (seqZ j (Z.of_nat k)).

(** The machine after [n] more requests were counted. *)
Definition asked (n : nat) (m : machine) : machine :=
  let 'Machine d p t r i := m in Machine d p t (n + r) i.

(** An event of the processing of the record [id] that has nothing to do
    with its species: no GET of a chain, no pokedex written. *)
Definition without_species (id : Z) (ev : event) : Prop :=
  by_pokemon id ev /\
  match ev with
  | EvGet (ChainUrl _)
  | EvExecute (InsertDex _ _) | EvExecute (InsertPokemonNumber _ _) => False
  | _ => True
  end.

(** The edges [process_pokemon] takes from the answer to the GET of a chain:
    none when the request failed, when the document has no chain, or when
    the collector raised. *)
Definition chain_edges (a : response chain_doc) : list edge :=
  match fetched a ≫= doc_chain with
  | Some chain =>
      match collect_evolution_chain chain None None with
      | Returns evolutions => evolutions
      | Raises _ => []
      end
  | None => []
  end.

(** The value of a decimal numeral read from the left, [acc] being the
    value of the digits already read. *)
Fixpoint uint_value (acc : Z) (d : Decimal.uint) : Z :=
  match d with
  | Decimal.Nil => acc
  | Decimal.D0 d => uint_value (acc * 10 + 0) d
  | Decimal.D1 d => uint_value (acc * 10 + 1) d
  | Decimal.D2 d => uint_value (acc * 10 + 2) d
  | Decimal.D3 d => uint_value (acc * 10 + 3) d
  | Decimal.D4 d => uint_value (acc * 10 + 4) d
  | Decimal.D5 d => uint_value (acc * 10 + 5) d
  | Decimal.D6 d => uint_value (acc * 10 + 6) d
  | Decimal.D7 d => uint_value (acc * 10 + 7) d
  | Decimal.D8 d => uint_value (acc * 10 + 8) d
  | Decimal.D9 d => uint_value (acc * 10 + 9) d
  end.

(** A character of the text of an integer: a digit or the minus sign. *)
Definition numeral_char (c : ascii) : bool := Text.is_digit c || Ascii.eqb c "-".

(** Every table of [d'] starts with the rows of the same table of [d], in
    the same order: rows were added at the end, none changed or removed. *)
Definition grows (d d' : database) : Prop :=
  pokemon d `prefix_of` pokemon d' /\ types d `prefix_of` types d' /\
  stats d `prefix_of` stats d' /\ moves d `prefix_of` moves d' /\
  dex d `prefix_of` dex d' /\ height d `prefix_of` height d' /\
  weight d `prefix_of` weight d' /\ pokemon_type d `prefix_of` pokemon_type d' /\
  pokemon_stat d `prefix_of` pokemon_stat d' /\
  pokemon_move d `prefix_of` pokemon_move d' /\
  pokemon_number d `prefix_of` pokemon_number d' /\
  evolutions d `prefix_of` evolutions d'.

(** An event that leaves the record table alone. *)
Definition no_record_insert (ev : event) : Prop :=
  match ev with
  | EvExecute (InsertPokemon _ _) => False
  | _ => True
  end.

(** The step sent no request. *)
Definition same_requests : relation machine := fun m m' => requests m' = requests m.

(** [c] sends at most [k] requests, however it ends. *)
Definition sends (k : nat) {A} (c : M A) : Prop :=
  forall m, (requests m <= requests (c m).2 <= requests m + k)%nat.

(** ** The console *)





(** The entry has what [execute_query] looks up before it reads a
    parameter: a name, a description and a query. *)
Definition complete (info : Console.query_info) : Prop :=
  Console.info_name info <> None /\ Console.info_description info <> None /\
  Console.info_query info <> None.

(** What a modification cannot make a value of: for a parameter without a
    default, an input that is no integer where one is asked for, or no
    input at all where a text is. *)
Definition unreadable (p : Menu.param) (line : string) : Prop :=
  Menu.no_default p /\
  ((Menu.param_type p = Some "int" /\ Text.py_int (Text.strip Text.str_space line) = None) \/
   ((Menu.param_type p = Some "str" \/ Menu.param_type p = None) /\
    Text.strip Text.str_space line = "")).

(** The answer to the confirmation prompt is a yes. *)
Definition confirms (line : string) : Prop :=
  Menu.lower (Text.strip Text.str_space line) = "yes".

(** The placeholders of an IN clause with [n] values: "?,?,...,?". *)
Definition placeholders (n : nat) : string := Menu.join "," (replicate n "?").

Fixpoint count_char (x : ascii) (s : string) : nat :=
  match s with
  | String c r => (if Ascii.eqb c x then 1 else 0) + count_char x r
  | EmptyString => 0
  end.

(** ** The table of results *)

(** A value that is neither [None] nor false. *)
Definition truthy_cell (val : Table.cell) : Prop :=
  match val with Table.Value true _ => True | _ => False end.

(** The length of a line of padded texts, the separators apart. *)
Fixpoint padded_length (col_widths : list nat) (texts : list string) : nat :=
  match col_widths, texts with
  | width :: col_widths, text :: texts =>
      (Nat.max width (String.length text) + padded_length col_widths texts)%nat
  | _, _ => 0%nat
  end.



(** ** Fixtures *)

(** An enumeration of a set of edges: first seen, first listed. *)
Definition first_seen : set_order :=
  SetOrder remove_dups (fun l => NoDup_remove_dups l) (fun l x => elem_of_remove_dups l x).

Definition resource (kind : string) (id : Z) (name : string) : option named_ref :=
  Some (NamedRef (Some name)
          (Some ("https://pokeapi.co/api/v2/" +:+ kind +:+ "/" +:+ Text.py_str id +:+ "/"))).

(** The chain 1 -> 3. *)
Definition chain_1_3 : chain_node :=
  ChainNode (Some "https://pokeapi.co/api/v2/pokemon-species/1/")
    [ChainNode (Some "https://pokeapi.co/api/v2/pokemon-species/3/") []].


Definition grass_record (name : option string) : pokemon_doc :=
  PokemonDoc name (Some 7) (Some 69)
    [resource "type" 12 "grass"] [StatSlot (resource "stat" 1 "hp") (Some 45)] [].

(** Three ids upstream: 2 answers 404; 1 and 3 have one type, one stat and
    the chain 1 -> 3. *)
Definition fixture : upstream :=
  Upstream
    (fun _ => Answer 200 (Some (CountDoc (Some 3))))
    (fun _ id =>
       if (id =? 1) || (id =? 3)
       then Answer 200 (Some (grass_record (Some ("record-" +:+ Text.py_str id))))
       else Answer 404 None)
    (fun _ _ =>
       Answer 200 (Some (SpeciesDoc [] (Some "https://pokeapi.co/api/v2/evolution-chain/1/"))))
    (fun _ _ => Answer 200 (Some (ChainDoc (Some chain_1_3)))).

(** The same upstream, but the document of record 3 has no name. *)
Definition nameless_fixture : upstream :=
  Upstream (count_probe fixture)
    (fun n id => if id =? 3 then Answer 200 (Some (grass_record None))
                 else pokemon_at fixture n id)
    (species_at fixture) (chain_at fixture).

(** A store that holds the record 1 and nothing else. *)
Definition only_record_1 : database :=
  Database [(1, "bulbasaur")] [] [] [] [] [] [] [] [] [] [] [].

(** * Proofs *)

Set Warnings "-clear-no-such-hyp".

(** ** The reference extractor *)

Lemma rstrip_slashes k : Text.rstrip Text.is_slash (slashes k) = "".
Proof. induction k as [|k IH]; simpl; [done|]. by rewrite IH. Qed.

Lemma rstrip_seg seg k :
  Text.contains_char "/" seg = false ->
  Text.rstrip Text.is_slash (seg +:+ slashes k) = seg.
Proof.
  induction seg as [|a s IH]; simpl; intros H.
  - apply rstrip_slashes.
  - apply orb_false_iff in H as [Ha Hs]. rewrite IH by done.
    destruct s; [|done]. unfold Text.is_slash. by rewrite Ha.
Qed.

Lemma rstrip_after p seg k :
  Text.contains_char "/" seg = false -> seg <> "" ->
  Text.rstrip Text.is_slash (p +:+ String "/" (seg +:+ slashes k)) = p +:+ String "/" seg.
Proof.
  intros Hs Hne. induction p as [|a p IH]; simpl.
  - rewrite rstrip_seg by done. by destruct seg.
  - rewrite IH. by destruct p.
Qed.

Lemma split_seg seg : Text.contains_char "/" seg = false -> Text.split "/" seg = [seg].
Proof.
  induction seg as [|a s IH]; simpl; [done|]. intros H.
  apply orb_false_iff in H as [Ha Hs]. rewrite Ha, IH; done.
Qed.

Lemma split_nonempty sep s : Text.split sep s <> [].
Proof. induction s as [|a s IH]; simpl; [done|]. destruct (Ascii.eqb a sep); [done|]. by destruct (Text.split sep s). Qed.

Lemma split_after_two p s :
  exists h t1 t2, Text.split "/" (p +:+ String "/" s) = h :: t1 :: t2.
Proof.
  induction p as [|a p (h & t1 & t2 & IH)]; simpl.
  - destruct (Text.split "/" s) as [|x l] eqn:E; [by apply split_nonempty in E|]. eauto.
  - rewrite IH. destruct (Ascii.eqb a "/"); eauto.
Qed.

Lemma last_split_after p seg :
  Text.contains_char "/" seg = false ->
  last (Text.split "/" (p +:+ String "/" seg)) = Some seg.
Proof.
  intros Hs. induction p as [|a p IH]; simpl.
  - by rewrite split_seg.
  - destruct (split_after_two p seg) as (h & t1 & t2 & E). rewrite E in *.
    by destruct (Ascii.eqb a "/").
Qed.

Lemma final_segment_last url seg :
  final_segment url seg ->
  last_item (Text.split "/" (Text.rstrip Text.is_slash url)) = Returns seg.
Proof.
  unfold last_item.
  destruct 1.
  - by rewrite rstrip_seg, split_seg.
  - by rewrite rstrip_after, last_split_after.
  - by rewrite rstrip_slashes.
Qed.

Lemma final_segment_total url : exists seg, final_segment url seg.
Proof.
  induction url as [|c r [seg IH]].
  - exists "". apply (fs_empty 0).
  - destruct (Ascii.eqb c "/") eqn:Ec.
    + apply Ascii.eqb_eq in Ec as ->. destruct IH.
      * exists seg. by apply (fs_after "").
      * exists seg. by apply (fs_after (String "/" p)).
      * exists "". apply (fs_empty (S k)).
    + destruct IH.
      * exists (String c seg). apply (fs_plain (String c seg)); [|done]. simpl. by rewrite Ec.
      * exists seg. by apply (fs_after (String c p)).
      * exists (String c ""). apply (fs_plain (String c "")); [|done]. simpl. by rewrite Ec.
Qed.

Lemma lstrip_split p s :
  exists lead, s = lead +:+ Text.lstrip p s /\ Text.all p lead = true.
Proof.
  induction s as [|c r (lead & E & H)]; simpl.
  - by exists "".
  - destruct (p c) eqn:Ec.
    + exists (String c lead). simpl. rewrite Ec, H. split; [|done]. by rewrite E at 1.
    + by exists "".
Qed.

Lemma scan_digits_sound t : forall b acc n v n' rest,
  Text.scan_digits b acc n t = Some (v, n', rest) ->
  exists body, t = body +:+ rest /\ n' = (n + count_digits body)%nat /\
    (if b then numeral_body body
     else body = "" \/ numeral_body body \/
          (n <> 0%nat /\ exists s, body = String "_" s /\ numeral_body s)).
Proof.
  induction t as [|c r IH]; simpl; intros b acc n v n' rest H.
  - destruct b; [done|]. injection H as <- <- <-. exists "". split_and!; auto with lia.
  - destruct (Text.is_digit c) eqn:Ed.
    + apply IH in H as (body & -> & -> & Hb). exists (String c body). simpl. rewrite Ed.
      split_and!; [done|lia|].
      assert (numeral_body (String c body)) as Hn.
      { destruct Hb as [->|[Hb|(_ & s & -> & Hs)]]; by constructor. }
      destruct b; auto.
    + destruct (Ascii.eqb c "_") eqn:Eu.
      * apply Ascii.eqb_eq in Eu as ->.
        destruct b; [done|]. simpl in H. destruct (Nat.eqb n 0) eqn:En; [done|].
        apply Nat.eqb_neq in En.
        apply IH in H as (body & -> & -> & Hb). exists (String "_" body). simpl.
        split_and!; [done|done|]. right. right. eauto.
      * destruct b; [done|]. injection H as <- <- <-. exists "". split_and!; auto with lia.
Qed.

Lemma split_sign_digit c r :
  Text.is_digit c = true -> Text.split_sign (String c r) = (false, String c r).
Proof. destruct c as [[] [] [] [] [] [] [] []]; done. Qed.

Lemma split_sign_split t :
  exists sign, t = sign +:+ (Text.split_sign t).2 /\
    (sign = "" \/ sign = "+" \/ sign = "-") /\
    (Text.split_sign t).1 = bool_decide (sign = "-").
Proof.
  destruct t as [|c r]; [by exists ""; auto|].
  destruct (decide (c = "+"%char)) as [->|Hp]; [by exists "+"; auto|].
  destruct (decide (c = "-"%char)) as [->|Hm]; [by exists "-"; auto|].
  exists "". assert (Text.split_sign (String c r) = (false, String c r)) as ->; [|by auto].
  destruct c as [[] [] [] [] [] [] [] []]; done.
Qed.

Lemma py_int_literal s v : Text.py_int s = Some v -> int_literal s.
Proof.
  unfold Text.py_int. destruct (lstrip_split Text.int_space s) as (lead & E & Hl).
  destruct (split_sign_split (Text.lstrip Text.int_space s)) as (sign & Et & Hsign & _).
  destruct (Text.split_sign (Text.lstrip Text.int_space s)) as [negative t']. simpl in Et.
  destruct (Text.scan_digits false 0 0 t') as [[[v0 n] rest]|] eqn:Es; [|done].
  destruct (Nat.eqb n 0) eqn:En; [done|]. apply Nat.eqb_neq in En.
  destruct (Nat.ltb Text.int_max_str_digits n) eqn:El; [done|]. apply Nat.ltb_ge in El.
  destruct (Text.all Text.int_space rest) eqn:Er; [|done]. intros _.
  apply scan_digits_sound in Es as (body & -> & -> & Hb).
  exists lead, sign, body, rest. rewrite E at 1. rewrite Et. split_and!; auto.
  destruct Hb as [->|[Hb|(? & _)]]; done.
Qed.

Lemma scan_digits_all d : forall b acc n,
  Text.all Text.is_digit d = true -> (d <> "" \/ b = false) ->
  Text.scan_digits b acc n d
  = Some (acc * 10 ^ Z.of_nat (String.length d) + decimal_value d,
          (n + String.length d)%nat, "").
Proof.
  induction d as [|c r IH]; simpl; intros b acc n Hd Hb.
  - destruct Hb as [ ? | -> ]; [done|]. do 3 f_equal; [lia|lia].
  - apply andb_true_iff in Hd as [Hc Hr]. rewrite Hc, IH by auto.
    do 3 f_equal; [|lia].
    rewrite Nat2Z.inj_succ, Z.pow_succ_r by lia. lia.
Qed.

Lemma digit_not_space c : Text.is_digit c = true -> Text.int_space c = false.
Proof. destruct c as [[] [] [] [] [] [] [] []]; done. Qed.

Lemma py_int_digits d :
  digits d -> (String.length d <= Text.int_max_str_digits)%nat ->
  Text.py_int d = Some (decimal_value d).
Proof.
  intros [Hne Hd] Hlen. unfold Text.py_int.
  destruct d as [|c r]; [done|]. pose proof Hd as Hd'.
  simpl in Hd. apply andb_true_iff in Hd as [Hc Hr].
  cbn [Text.lstrip]. rewrite (digit_not_space c Hc), (split_sign_digit c r Hc).
  rewrite scan_digits_all by auto.
  cbn [Nat.add Nat.eqb String.length].
  destruct (Nat.ltb_spec Text.int_max_str_digits (S (String.length r))) as [Hlt|_].
  { simpl in Hlen. lia. }
  cbn [Text.all]. done.
Qed.

Lemma lstrip_lead p lead s : Text.all p lead = true -> Text.lstrip p (lead +:+ s) = Text.lstrip p s.
Proof.
  induction lead as [|c r IH]; simpl; [done|]. intros H.
  apply andb_true_iff in H as [-> H]. auto.
Qed.

Lemma numeral_body_head body : numeral_body body ->
  exists c r, body = String c r /\ Text.is_digit c = true.
Proof. destruct 1; eauto. Qed.

Lemma scan_digits_body body : numeral_body body -> forall b acc n trail,
  Text.all Text.int_space trail = true ->
  exists v, Text.scan_digits b acc n (body +:+ trail)
            = Some (v, (n + count_digits body)%nat, trail).
Proof.
  assert (forall acc n trail, Text.all Text.int_space trail = true ->
    Text.scan_digits false acc n trail = Some (acc, n, trail)) as Htrail.
  { intros acc n [|c r]; simpl; [done|]. intros H. apply andb_true_iff in H as [Hc _].
    destruct c as [[] [] [] [] [] [] [] []]; done. }
  induction 1 as [c Hc|c s Hc Hs IH|c s Hc Hs IH]; intros b acc n trail Ht; simpl; rewrite Hc.
  - rewrite Htrail by done. eexists. do 3 f_equal. lia.
  - destruct (IH false (acc * 10 + Text.digit_value c) (S n) trail Ht) as [v ->].
    eexists. do 3 f_equal. lia.
  - simpl.
    destruct (IH true (acc * 10 + Text.digit_value c) (S n) trail Ht) as [v ->].
    eexists. do 3 f_equal. lia.
Qed.

Lemma int_literal_py_int s : int_literal s -> exists v, Text.py_int s = Some v.
Proof.
  intros (lead & sign & body & trail & -> & Hl & Hsign & Hb & Hn & Ht).
  unfold Text.py_int. rewrite lstrip_lead by done.
  destruct (numeral_body_head body Hb) as (c & r & Eb & Hc).
  destruct (scan_digits_body body Hb false 0 0%nat trail Ht) as [v Es].
  assert (Nat.eqb (count_digits body) 0 = false) as En.
  { apply Nat.eqb_neq. rewrite Eb. simpl. rewrite Hc. lia. }
  assert (Nat.ltb Text.int_max_str_digits (count_digits body) = false) as El.
  { by apply Nat.ltb_ge. }
  assert (exists negative,
    Text.split_sign (Text.lstrip Text.int_space (sign +:+ body +:+ trail))
    = (negative, body +:+ trail)) as [negative ->].
  { destruct Hsign as [->|[->| ->]]; [|by eexists..].
    rewrite Eb. simpl. rewrite (digit_not_space c Hc), (split_sign_digit _ _ Hc).
    by eexists. }
  rewrite Es. cbn [Nat.add]. rewrite En, El, Ht. eauto.
Qed.

(** ** The monad *)

Lemma run_bind {A B} (c : M A) (k : A -> M B) m :
  (c ≫= k) m = match c m with
               | (Returns a, m') => k a m'
               | (Raises e, m') => (Raises e, m')
               end.
Proof. reflexivity. Qed.

Lemma bind_returns_inv {A B} (c : M A) (k : A -> M B) m b m2 :
  (c ≫= k) m = (Returns b, m2) ->
  exists a m1, c m = (Returns a, m1) /\ k a m1 = (Returns b, m2).
Proof. rewrite run_bind. destruct (c m) as [[a|e] m1]; [eauto|done]. Qed.

Section respects.
Context (R : relation machine) `{!PreOrder R}.

Lemma respects_ret {A} (a : A) : respects R (mret a).
Proof. intros m. simpl. reflexivity. Qed.

Lemma respects_raise {A} e : respects R (@raise A e).
Proof. intros m. simpl. reflexivity. Qed.

Lemma respects_lift {A} (x : outcome A) : respects R (lift x).
Proof. intros m. simpl. reflexivity. Qed.

Lemma respects_read {A} (f : machine -> A) : respects R (read f).
Proof. intros m. simpl. reflexivity. Qed.

Lemma respects_bind {A B} (c : M A) (k : A -> M B) :
  respects R c -> (forall a, respects R (k a)) -> respects R (c ≫= k).
Proof.
  intros Hc Hk m. rewrite run_bind. specialize (Hc m).
  destruct (c m) as [[a|e] m1]; simpl in *; [|done].
  etrans; [done|]. apply Hk.
Qed.

Lemma respects_try_except {A} (body : M A) handler :
  respects R body -> (forall e h, handler e = Some h -> respects R h) ->
  respects R (try_except body handler).
Proof.
  intros Hb Hh m. unfold try_except. specialize (Hb m).
  destruct (body m) as [[a|e] m1]; simpl in *; [done|].
  destruct (handler e) as [h|] eqn:E; [|done].
  etrans; [done|]. by eapply Hh.
Qed.

Lemma respects_try_finally {A} (body : M A) cleanup :
  respects R body -> respects R cleanup -> respects R (try_finally body cleanup).
Proof.
  intros Hb Hc m. unfold try_finally. specialize (Hb m).
  destruct (body m) as [r m1]. specialize (Hc m1). simpl in *.
  destruct (cleanup m1) as [[[]|e] m2]; simpl in *; by etrans.
Qed.

Lemma respects_for_each {A S} (body : A -> S -> M S) xs s :
  (forall x s, x ∈ xs -> respects R (body x s)) -> respects R (for_each body xs s).
Proof.
  revert s. induction xs as [|x xs IH]; intros s Hb; simpl.
  - apply respects_ret.
  - apply respects_bind; [apply Hb; left|].
    intros s'. apply IH. intros y t Hy. apply Hb. by right.
Qed.

End respects.

(** ** What a run does, read off its events *)

Lemma replay_app evs1 evs2 d : replay (evs1 ++ evs2) d = replay evs2 (replay evs1 d).
Proof. apply foldl_app. Qed.

#[global] Instance logged_preorder P : PreOrder (logged P).
Proof.
  split.
  - intros m. hnf. exists []. rewrite app_nil_r. by split_and!.
  - intros m1 m2 m3 (e1 & T1 & D1 & F1) (e2 & T2 & D2 & F2). hnf. exists (e1 ++ e2).
    rewrite T2, T1, D2, D1, replay_app, app_assoc. split_and!; [done..|].
    by apply Forall_app.
Qed.

Lemma tick_cases m :
  (exists m', tick m = (Returns tt, m') /\ db m' = db m /\ pragmas m' = pragmas m /\
              trace m' = trace m /\ requests m' = requests m /\
              (sigint m = None -> m' = m)) \/
  (exists m', tick m = (Raises KeyboardInterrupt, m') /\ db m' = db m /\
              pragmas m' = pragmas m /\ trace m' = trace m /\ requests m' = requests m /\
              sigint m = Some O /\ sigint m' = None).
Proof.
  destruct m as [d p t r [[|k]|]]; simpl; [right|left|left]; eexists; split_and!; try done.
Qed.

Lemma tick_quiet m : sigint m = None -> tick m = (Returns tt, m).
Proof. destruct m as [d p t r i]. simpl. by intros ->. Qed.

Lemma effect_quiet ev f m :
  sigint m = None -> effect ev f m = (Returns tt, log ev (f m)).
Proof. intros H. unfold effect. rewrite tick_quiet by done. by destruct (f m). Qed.

Lemma logged_execute P st : P (EvExecute st) -> respects (logged P) (execute st).
Proof.
  intros HP [d p t r i]. unfold execute, effect.
  destruct (tick_cases (Machine d p t r i)) as [(m' & -> & Hd & Hp & Ht & _)|(m' & -> & Hd & _ & Ht & _)].
  - destruct m' as [d' p' t' r' i']. simpl in *. subst.
    exists [EvExecute st].
    match goal with x : database |- _ => destruct x end.
    destruct st; simpl; split_and!; by auto.
  - simpl. exists []. rewrite Ht, Hd, app_nil_r. by split_and!.
Qed.

Lemma logged_effect P ev f :
  P ev -> (forall m, db (f m) = db m /\ trace (f m) = trace m) ->
  match ev with EvExecute _ => False | _ => True end ->
  respects (logged P) (effect ev f).
Proof.
  intros HP Hf Hev m. unfold effect.
  destruct (tick_cases m) as [(m' & -> & Hd & Hp & Ht & _)|(m' & -> & Hd & _ & Ht & _)].
  - destruct (Hf m') as [Hfd Hft]. destruct (f m') as [d' p' t' r' i']. simpl in *.
    exists [ev]. rewrite Hft, Ht, Hfd, Hd. destruct ev; simpl; split_and!; by auto.
  - simpl. exists []. rewrite Ht, Hd, app_nil_r. by split_and!.
Qed.

Lemma logged_weaken (P Q : event -> Prop) {A} (c : M A) :
  (forall ev, P ev -> Q ev) -> respects (logged P) c -> respects (logged Q) c.
Proof.
  intros HPQ Hc m. destruct (Hc m) as (evs & T & D & F). exists evs. split_and!; [done..|].
  eapply Forall_impl; eauto.
Qed.

Lemma logged_commit P : P EvCommit -> respects (logged P) commit.
Proof. intros. by apply logged_effect. Qed.

Lemma logged_sleep P ms : P (EvSleep ms) -> respects (logged P) (sleep ms).
Proof. intros. by apply logged_effect. Qed.

Lemma logged_get_json P {D} ep (answer : nat -> response D) :
  P (EvGet ep) -> respects (logged P) (get_json ep answer).
Proof.
  intros HP. unfold get_json.
  apply respects_bind; [apply _|apply respects_read; apply _|]. intros n.
  apply respects_bind; [apply _| |].
  - apply logged_effect; [done| |done]. by intros [].
  - intros _. destruct (answer n); [|apply respects_raise; apply _].
    destruct (_ && _); [apply respects_raise|apply respects_ret]; apply _.
Qed.

Ltac respects_step :=
  lazymatch goal with
  | |- respects _ (mret _) => apply respects_ret; apply _
  | |- respects _ (raise _) => apply respects_raise; apply _
  | |- respects _ (lift _) => apply respects_lift; apply _
  | |- respects _ (read _) => apply respects_read; apply _
  | |- respects _ (mbind _ _) => apply respects_bind; [apply _| |intros ?]
  | |- respects _ (try_except _ _) =>
      apply respects_try_except; [apply _| |intros ? ? ?]
  | |- respects _ (try_finally _ _) => apply respects_try_finally; [apply _| |]
  | |- respects _ (for_each _ _ _) => apply respects_for_each; [apply _|intros ? ? ?]
  | |- respects _ (match ?x with _ => _ end) => destruct x eqn:?
  | |- respects _ (let (_, _) := ?x in _) => destruct x eqn:?
  | |- respects (logged _) (execute _) => apply logged_execute
  | |- respects (logged _) (commit) => apply logged_commit
  | |- respects (logged _) (sleep _) => apply logged_sleep
  | |- respects (logged _) (get_json _ _) => apply logged_get_json
  | |- respects (logged _) (effect _ _) => apply logged_effect; [|by intros []|done]
  | H : ?h = Some ?c |- respects _ ?c => simplify_eq
  end.

Section loader_lemmas.
Context (up : upstream).

Lemma fetch_pokemon_data_logged P id :
  P (EvGet (PokemonUrl id)) -> respects (logged P) (fetch_pokemon_data up id).
Proof.
  intros. unfold fetch_pokemon_data. repeat respects_step; try done.
  destruct e; simpl in *; simplify_eq; repeat respects_step.
Qed.

Lemma process_pokemon_logged id :
  respects (logged (by_pokemon id)) (process_pokemon up id).
Proof.
  unfold process_pokemon, fetch_pokemon_data, fetch_species_data, insert_pokemon, insert_height, insert_weight,
    store_types, store_stats, store_moves, store_dex_numbers, fetch_evolutions,
    insert_type, insert_stat, insert_move, insert_dex, insert_pokemon_type,
    insert_pokemon_stat, insert_pokemon_move, insert_pokemon_number.
  repeat (respects_step; try done).
  all: try (destruct e; simpl in *; simplify_eq; repeat respects_step).
Qed.
End loader_lemmas.

(** ** Insert if absent *)

Section insert_or_ignore.
Context {R K : Type} `{EqDecision K} (key : R -> K).


Lemma insert_or_ignore_unique row table :
  unique_keys key table -> unique_keys key (insert_or_ignore key row table).
Proof.
  unfold unique_keys, insert_or_ignore. intros H. case_decide; [done|].
  rewrite fmap_app. apply NoDup_app. split_and!; [done| |apply NoDup_singleton].
  intros k Hk Hk'. apply list_elem_of_singleton in Hk'. by subst.
Qed.

Lemma insert_or_ignore_key row table :
  key row ∈ key <$> insert_or_ignore key row table.
Proof.
  unfold insert_or_ignore. case_decide; [done|].
  rewrite fmap_app. apply elem_of_app. right. by left.
Qed.

Lemma insert_or_ignore_mono row table k :
  k ∈ key <$> table -> k ∈ key <$> insert_or_ignore key row table.
Proof.
  unfold insert_or_ignore. case_decide; [done|].
  rewrite fmap_app. intros. apply elem_of_app. by left.
Qed.

Lemma insert_or_ignore_elem row table x :
  x ∈ insert_or_ignore key row table <-> x ∈ table \/ (x = row /\ key row ∉ key <$> table).
Proof.
  unfold insert_or_ignore. destruct (decide _) as [Hin|Hout].
  - split; [by left|]. by intros [?|[_ ?]].
  - rewrite elem_of_app, list_elem_of_singleton. split.
    + intros [?|?]; auto.
    + intros [?|[? _]]; auto.
Qed.


End insert_or_ignore.



Lemma apply_statement_pokemon_mono st d k :
  k ∈ (pokemon d).*1 -> k ∈ (pokemon (apply_statement st d)).*1.
Proof.
  destruct d, st; simpl; try done. apply (insert_or_ignore_mono entity_key).
Qed.

Lemma replay_pokemon_mono evs d k :
  k ∈ (pokemon d).*1 -> k ∈ (pokemon (replay evs d)).*1.
Proof.
  revert d. induction evs as [|ev evs IH]; intros d H; [done|].
  simpl. apply IH. destruct ev; try done. by apply apply_statement_pokemon_mono.
Qed.

Lemma replay_no_write evs d : Forall no_write evs -> replay evs d = d.
Proof.
  intros H. revert d. induction H as [|ev evs Hev _ IH]; intros d; [done|].
  simpl. rewrite IH. destruct ev as [| |st| | | |]; try done. by destruct d, st.
Qed.

(** ** The edge upsert *)

Lemma count_rows_spec (t : list (Z * string)) a b :
  NoDup t.*1 ->
  length (filter (fun row : Z * string => row.1 = a \/ row.1 = b) t)
  = ((if decide (a ∈ t.*1) then 1 else 0) + (if decide (b <> a /\ b ∈ t.*1) then 1 else 0))%nat.
Proof.
  induction t as [|[k v] t IH]; intros Hnd.
  - simpl. destruct (decide (a ∈ [])) as [H|_]; [by apply elem_of_nil in H|].
    destruct (decide (b <> a /\ b ∈ [])) as [[_ H]|_]; [by apply elem_of_nil in H|done].
  - rewrite fmap_cons in *. apply NoDup_cons in Hnd as [Hk Hnd]. specialize (IH Hnd).
    simpl in *.
    assert (forall x, x ∈ k :: t.*1 <-> x = k \/ x ∈ t.*1) as Hcons by (intros; apply elem_of_cons).
    destruct (decide (k = a \/ k = b)) as [Hab|Hab].
    + rewrite filter_cons_True by done. simpl. rewrite IH.
      repeat case_decide; rewrite ?Hcons in *; try lia; exfalso; naive_solver.
    + rewrite filter_cons_False by done. rewrite IH.
      repeat case_decide; rewrite ?Hcons in *; try lia; exfalso; naive_solver.
Qed.

Lemma count_pokemon_in_two a b d :
  unique_keys entity_key (pokemon d) ->
  count_pokemon_in a b d = 2 <-> a <> b /\ known a d /\ known b d.
Proof.
  intros Hu. unfold count_pokemon_in, known. rewrite count_rows_spec by exact Hu.
  repeat case_decide; split; intros; try lia; naive_solver.
Qed.

Lemma execute_quiet st m :
  sigint m = None ->
  execute st m
  = (Returns tt,
     log (EvExecute st)
       (match st with
        | SetPragma p => on_pragmas (apply_pragma p) m
        | _ => on_db (apply_statement st) m
        end)).
Proof. intros H. unfold execute. rewrite effect_quiet by done. by destruct st. Qed.

Lemma sigint_log ev m : sigint (log ev m) = sigint m.
Proof. by destruct m. Qed.
Lemma sigint_on_db f m : sigint (on_db f m) = sigint m.
Proof. by destruct m. Qed.
Lemma db_log ev m : db (log ev m) = db m.
Proof. by destruct m. Qed.
Lemma db_on_db f m : db (on_db f m) = f (db m).
Proof. by destruct m. Qed.
Lemma trace_log ev m : trace (log ev m) = trace m ++ [ev].
Proof. by destruct m. Qed.
Lemma trace_on_db f m : trace (on_db f m) = trace m.
Proof. by destruct m. Qed.

Lemma apply_select_count a b d : apply_statement (SelectCountPokemonIn a b) d = d.
Proof. by destruct d. Qed.

Section edge_upsert.
Context (up : upstream).

Lemma insert_evolution_quiet a b m :
  sigint m = None ->
  insert_evolution a b m
  = (Returns tt,
     let m1 := log (EvExecute (SelectCountPokemonIn a b)) m in
     if count_pokemon_in a b (db m) =? 2
     then log (EvExecute (InsertEvolution a b)) (on_db (apply_statement (InsertEvolution a b)) m1)
     else m1).
Proof.
  intros H. unfold insert_evolution. rewrite run_bind, execute_quiet by done.
  rewrite run_bind. unfold read. cbv beta iota.
  rewrite db_log, db_on_db, apply_select_count.
  assert (on_db (apply_statement (SelectCountPokemonIn a b)) m = m) as ->.
  { destruct m as [[] ? ? ? ?]; done. }
  destruct (count_pokemon_in a b (db m) =? 2); [|done].
  rewrite execute_quiet; [done|]. by rewrite sigint_log.
Qed.

Lemma evolutions_insert_evolution a b d :
  evolutions (apply_statement (InsertEvolution a b) d)
  = insert_or_ignore pair_key (a, b) (evolutions d).
Proof. by destruct d. Qed.

Lemma pokemon_insert_evolution a b d :
  pokemon (apply_statement (InsertEvolution a b) d) = pokemon d.
Proof. by destruct d. Qed.

Lemma insert_or_ignore_pair row (table : list (Z * Z)) :
  row ∈ insert_or_ignore pair_key row table.
Proof.
  apply (insert_or_ignore_elem pair_key).
  destruct (decide (pair_key row ∈ pair_key <$> table)) as [Hin|Hout]; [left|by right].
  apply list_elem_of_fmap in Hin as (y & Hy & Hin). unfold pair_key in Hy. by subst.
Qed.

Lemma apply_insert_evolution_referential a b d :
  known a d -> known b d -> referential d ->
  referential (apply_statement (InsertEvolution a b) d).
Proof.
  intros Ha Hb Hr e. unfold known in *.
  rewrite evolutions_insert_evolution, pokemon_insert_evolution.
  rewrite (insert_or_ignore_elem pair_key). intros [He|[-> _]]; [by apply Hr|done].
Qed.

End edge_upsert.

(** ** The main loop, with no interrupt pending *)

Section loop.
Context (up : upstream).

Lemma get_json_quiet {D} ep (answer : nat -> response D) m :
  sigint m = None ->
  get_json ep answer m
  = (match answer (requests m) with
     | NoAnswer => Raises RequestException
     | Answer status body =>
         if (400 <=? status) && (status <? 600) then Raises (HTTPError status)
         else Returns body
     end, log (EvGet ep) (count_request m)).
Proof.
  intros H. unfold get_json. rewrite run_bind. unfold read. cbv beta iota.
  rewrite run_bind, effect_quiet by done.
  destruct (answer (requests m)); [|done]. by destruct (_ && _).
Qed.

Lemma fetch_pokemon_data_quiet id m :
  sigint m = None ->
  fetch_pokemon_data up id m
  = (Returns (match pokemon_at up (requests m) id with
              | NoAnswer => None
              | Answer status body =>
                  if (400 <=? status) && (status <? 600) then None else body
              end), log (EvGet (PokemonUrl id)) (count_request m)).
Proof.
  intros H. unfold fetch_pokemon_data, try_except. rewrite get_json_quiet by done.
  destruct (pokemon_at up (requests m) id) as [status body|]; [|done].
  destruct (_ && _); [|done]. simpl. by destruct (status =? 404).
Qed.

Lemma fetch_pokemon_data_404 id m body :
  sigint m = None -> pokemon_at up (requests m) id = Answer 404 body ->
  fetch_pokemon_data up id m = (Returns None, log (EvGet (PokemonUrl id)) (count_request m)).
Proof. intros H E. rewrite fetch_pokemon_data_quiet by done. by rewrite E. Qed.

Lemma process_pokemon_404 id m body :
  sigint m = None -> pokemon_at up (requests m) id = Answer 404 body ->
  process_pokemon up id m = (Returns None, log (EvGet (PokemonUrl id)) (count_request m)).
Proof.
  intros H E. unfold process_pokemon.
  by rewrite run_bind, (fetch_pokemon_data_404 _ _ body).
Qed.

Lemma commit_quiet m : sigint m = None -> commit m = (Returns tt, log EvCommit m).
Proof. intros. unfold commit. by rewrite effect_quiet. Qed.

Lemma sleep_quiet ms m : sigint m = None -> sleep ms m = (Returns tt, log (EvSleep ms) m).
Proof. intros. unfold sleep. by rewrite effect_quiet. Qed.

Lemma visit_loaded loaded id st m :
  id ∈ loaded -> visit up loaded id st m = (Returns (skip_one st), m).
Proof. intros H. unfold visit. rewrite bool_decide_eq_true_2 by done. by destruct st. Qed.

Lemma process_one_returns id st m r m1 :
  process_pokemon up id m = (Returns r, m1) -> sigint m1 = None ->
  process_one up id st m
  = (Returns (match r with
              | Some evolutions => succeed_one evolutions st
              | None => fail_one st
              end),
     log_all (batch_commit id ++ [EvSleep REQUEST_DELAY]) m1).
Proof.
  intros Hp Hq. unfold process_one. destruct st as [s k f all].
  rewrite run_bind, Hp. unfold batch_commit.
  assert (forall evs, all ++ evs = match evs with [] => all | _ => all ++ evs end) as Happ.
  { intros [|? ?]; [by rewrite app_nil_r|done]. }
  assert (forall m2, (mret (M:=M)
      match r with
      | Some evolutions =>
          Progress (s + 1) k f match evolutions with [] => all | _ => all ++ evolutions end
      | None => Progress s k (f + 1) all
      end) m2 = (Returns (match r with
              | Some evolutions => succeed_one evolutions (Progress s k f all)
              | None => fail_one (Progress s k f all)
              end), m2)) as Hret.
  { intros m2. unfold mret, M_ret. destruct r as [evs|]; [|done].
    unfold succeed_one. simpl. by rewrite <- Happ. }
  destruct (id `mod` 10 =? 0).
  - rewrite run_bind, commit_quiet by done.
    rewrite run_bind, sleep_quiet by (by rewrite sigint_log).
    rewrite Hret. f_equal. destruct m1. simpl. by rewrite <- app_assoc.
  - rewrite run_bind. simpl. rewrite run_bind, sleep_quiet by done.
    by rewrite Hret.
Qed.

Lemma visit_not_loaded loaded id st m :
  id ∉ loaded -> visit up loaded id st m = process_one up id st m.
Proof. intros H. unfold visit. by rewrite bool_decide_eq_false_2. Qed.

End loop.

(** ** The collector *)

Lemma chain_node_rect' (P : chain_node -> Prop) :
  (forall url kids, Forall P kids -> P (ChainNode url kids)) -> forall c, P c.
Proof.
  intros H. fix IH 1. intros [url kids]. apply H.
  induction kids as [|k kids IHk]; constructor; [apply IH|apply IHk].
Qed.



(** ** The events of a run *)

Section run_lemmas.
Context (up : upstream).

Lemma count_attempts_logged P max_retries attempts :
  (forall ev, housekeeping ev -> P ev) ->
  respects (logged P) (count_attempts up max_retries attempts).
Proof.
  intros HP. induction attempts as [|attempt later IH]; simpl.
  - respects_step.
  - unfold probe_count. repeat (respects_step; try (by apply HP)).
    + destruct (is_RequestException e).
      * simplify_eq. repeat (respects_step; try (by apply HP)).
      * destruct e; simplify_eq; repeat respects_step.
    + exact IH.
Qed.

Lemma get_pokemon_count_logged P max_retries :
  (forall ev, housekeeping ev -> P ev) ->
  respects (logged P) (get_pokemon_count up max_retries).
Proof. apply count_attempts_logged. Qed.

Lemma insert_evolution_logged P a b :
  (forall ev, by_edge ev -> P ev) -> respects (logged P) (insert_evolution a b).
Proof.
  intros HP. unfold insert_evolution. repeat (respects_step; try (by apply HP)).
Qed.

Lemma persist_evolutions_logged P order all :
  (forall ev, by_edge ev -> P ev) ->
  respects (logged P) (persist_evolutions order all).
Proof.
  intros HP. unfold persist_evolutions. respects_step.
  destruct x. by apply insert_evolution_logged.
Qed.

Lemma process_one_logged P id st :
  (forall ev, housekeeping ev -> P ev) -> (forall ev, by_pokemon id ev -> P ev) ->
  respects (logged P) (process_one up id st).
Proof.
  intros HP1 HP2. unfold process_one. destruct st.
  respects_step.
  - eapply logged_weaken; [exact HP2|apply process_pokemon_logged].
  - repeat (respects_step; try (by apply HP1)).
Qed.

Lemma visit_logged P loaded id st :
  (forall ev, housekeeping ev -> P ev) ->
  (id ∉ loaded -> forall ev, by_pokemon id ev -> P ev) ->
  respects (logged P) (visit up loaded id st).
Proof.
  intros HP1 HP2. unfold visit. case_bool_decide.
  - destruct st. respects_step.
  - apply process_one_logged; auto.
Qed.

Lemma main_loop_logged P loaded ids st :
  (forall ev, housekeeping ev -> P ev) ->
  (forall id ev, id ∈ ids -> id ∉ loaded -> by_pokemon id ev -> P ev) ->
  respects (logged P) (main_loop up loaded ids st).
Proof.
  intros HP1 HP2. unfold main_loop. respects_step. apply visit_logged; eauto.
Qed.

Lemma main_finally_logged P :
  (forall ev, housekeeping ev -> P ev) -> respects (logged P) main_finally.
Proof.
  intros HP. unfold main_finally, restore_sqlite_settings.
  repeat (respects_step; try (by apply HP)).
Qed.

Lemma get_loaded_pokemon_ids_logged P :
  (forall ev, housekeeping ev -> P ev) -> respects (logged P) get_loaded_pokemon_ids.
Proof.
  intros HP. unfold get_loaded_pokemon_ids. repeat (respects_step; try (by apply HP)).
Qed.

Lemma main_logged P order :
  (forall ev, housekeeping ev -> P ev) ->
  (forall ev, by_edge ev -> P ev) ->
  (forall id ev, by_pokemon id ev -> P ev) ->
  respects (logged P) (main up order).
Proof.
  intros HP1 HP2 HP3. unfold main, bulk_insert, main_try.
  repeat (respects_step; try (by apply HP1)).
  all: lazymatch goal with
       | |- respects _ main_finally => by apply main_finally_logged
       | |- respects _ get_loaded_pokemon_ids => by apply get_loaded_pokemon_ids_logged
       | |- respects _ (get_pokemon_count _ _) => by apply get_pokemon_count_logged
       | |- respects _ (main_loop _ _ _ _) => apply main_loop_logged; eauto
       | |- respects _ (persist_evolutions _ _) => by apply persist_evolutions_logged
       end.
Qed.

Lemma main_logged_any order : respects (logged (fun _ => True)) (main up order).
Proof. by apply main_logged. Qed.


End run_lemmas.

(** ** Resuming *)

Lemma housekeeping_no_write ev : housekeeping ev -> no_write ev.
Proof. destruct ev as [|[]|[]| | | |]; done. Qed.








Lemma housekeeping_same_db {A} (c : M A) m :
  respects (logged housekeeping) c -> db (c m).2 = db m.
Proof.
  intros Hc. destruct (Hc m) as (evs & _ & -> & F). apply replay_no_write.
  eapply Forall_impl; [exact F|]. apply housekeeping_no_write.
Qed.

Section resume.
Context (up : upstream).

Lemma execute_returns st m m' :
  execute st m = (Returns tt, m') ->
  db m' = match st with SetPragma _ => db m | _ => apply_statement st (db m) end /\
  trace m' = trace m ++ [EvExecute st] /\ requests m' = requests m.
Proof.
  unfold execute, effect.
  destruct (tick_cases m) as [(m1 & -> & Hd & Hp & Ht & Hr & _)|(m1 & -> & _)]; [|done].
  destruct m1 as [d p t r i]. simpl in *. subst.
  destruct st; simpl; intros [= <-]; simpl; done.
Qed.

Lemma get_loaded_pokemon_ids_returns m loaded m' :
  get_loaded_pokemon_ids m = (Returns loaded, m') ->
  loaded = list_to_set (pokemon (db m)).*1 /\ db m' = db m.
Proof.
  unfold get_loaded_pokemon_ids. intros H.
  apply bind_returns_inv in H as ([] & m1 & He & H).
  apply execute_returns in He as (Hd & _). unfold read in H. injection H as <- <-.
  rewrite Hd. by destruct (db m).
Qed.



End resume.

(** ** The order of the writes of a record *)

Section order.
Context (up : upstream).

Lemma fetch_species_data_logged P id :
  P (EvGet (SpeciesUrl id)) -> respects (logged P) (fetch_species_data up id).
Proof.
  intros. unfold fetch_species_data. repeat respects_step; try done.
  destruct e; simpl in *; simplify_eq; repeat respects_step.
Qed.



End order.

(** ** Running twice *)

Section twice.
Context (up : upstream).

Lemma get_json_cases {D} ep (answer : nat -> response D) m :
  (exists m', get_json ep answer m = (Raises KeyboardInterrupt, m')) \/
  (exists m', get_json ep answer m
     = (match answer (requests m) with
        | NoAnswer => Raises RequestException
        | Answer status body =>
            if (400 <=? status) && (status <? 600) then Raises (HTTPError status)
            else Returns body
        end, m')).
Proof.
  unfold get_json. rewrite run_bind. unfold read. cbv beta iota. rewrite run_bind.
  unfold effect.
  destruct (tick_cases m) as [(m1 & -> & _)|(m1 & -> & _)]; [right|left; eauto].
  destruct (count_request m1) as [d p t r i]. cbv beta iota.
  destruct (answer (requests m)); [|eauto]. destruct (_ && _); eauto.
Qed.

Lemma fetch_pokemon_data_returns id m x m' :
  fetch_pokemon_data up id m = (Returns x, m') ->
  x = fetched (pokemon_at up (requests m) id).
Proof.
  unfold fetch_pokemon_data, try_except.
  destruct (get_json_cases (PokemonUrl id) (fun n => pokemon_at up n id) m)
    as [(m1 & ->)|(m1 & ->)]; [done|].
  unfold fetched. destruct (pokemon_at up (requests m) id) as [status body|].
  - destruct (_ && _).
    + simpl. destruct (status =? 404); by intros [= <- _].
    + by intros [= <- _].
  - simpl. by intros [= <- _].
Qed.

Lemma known_insert_pokemon id name d : known id (apply_statement (InsertPokemon id name) d).
Proof. destruct d. unfold known. simpl. apply (insert_or_ignore_key entity_key (id, name)). Qed.

Lemma process_pokemon_returns id m r m' :
  process_pokemon up id m = (Returns r, m') ->
  match r with
  | Some _ => known id (db m')
  | None => exists n, fetched (pokemon_at up n id) = None
  end.
Proof.
  unfold process_pokemon. intros H.
  apply bind_returns_inv in H as (x & m1 & Hf & H).
  apply fetch_pokemon_data_returns in Hf.
  destruct x as [doc|].
  2: { injection H as <- <-. eauto. }
  apply bind_returns_inv in H as (species & m2 & _ & H).
  apply bind_returns_inv in H as (name & m2' & Hl & H).
  unfold lift in Hl. injection Hl as _ <-.
  apply bind_returns_inv in H as ([] & m3 & Hi & H).
  apply execute_returns in Hi as (Hd & _).
  match type of H with ?c m3 = _ =>
    assert (respects (logged (fun _ => True)) c) as Hc end.
  { unfold insert_height, insert_weight,
      store_types, store_stats, store_moves, store_dex_numbers, fetch_evolutions,
      insert_type, insert_stat, insert_move, insert_dex, insert_pokemon_type,
      insert_pokemon_stat, insert_pokemon_move, insert_pokemon_number.
    repeat (respects_step; try done).
    all: try (destruct e; simpl in *; simplify_eq; repeat respects_step). }
  destruct (Hc m3) as (evs & _ & D & _). rewrite H in D. simpl in D.
  apply bind_returns_inv in H as (? & ? & _ & H).
  apply bind_returns_inv in H as (? & ? & _ & H).
  apply bind_returns_inv in H as (? & ? & _ & H).
  apply bind_returns_inv in H as (? & ? & _ & H).
  apply bind_returns_inv in H as (? & ? & _ & H).
  apply bind_returns_inv in H as (? & ? & _ & H).
  injection H as <- <-. rewrite D. apply replay_pokemon_mono. rewrite Hd.
  apply known_insert_pokemon.
Qed.



Lemma process_one_returns_inv id st m st' m' :
  process_one up id st m = (Returns st', m') ->
  exists r m1, process_pokemon up id m = (Returns r, m1) /\
    db m' = db m1 /\ st' = classify r st.
Proof.
  unfold process_one. destruct st as [s k f all]. intros H.
  apply bind_returns_inv in H as (r & m1 & Hp & H). exists r, m1. split; [done|].
  apply bind_returns_inv in H as ([] & m2 & Hc & H).
  apply bind_returns_inv in H as ([] & m3 & Hs & H).
  injection H as <- <-.
  assert (db m2 = db m1) as D2.
  { destruct (id `mod` 10 =? 0).
    - pose proof (housekeeping_same_db commit m1) as D. rewrite Hc in D. apply D.
      by repeat respects_step.
    - by injection Hc as <-. }
  assert (db m3 = db m2) as D3.
  { pose proof (housekeeping_same_db (sleep REQUEST_DELAY) m2) as D. rewrite Hs in D.
    apply D. by repeat respects_step. }
  split; [congruence|]. destruct r as [[|e evs]|]; simpl; unfold succeed_one, fail_one; simpl;
    by rewrite ?app_nil_r.
Qed.



End twice.

Lemma try_finally_returns_inv {A} (body : M A) cleanup m a m2 :
  try_finally body cleanup m = (Returns a, m2) ->
  exists m1, body m = (Returns a, m1) /\ cleanup m1 = (Returns tt, m2).
Proof.
  unfold try_finally. destruct (body m) as [r m1].
  destruct (cleanup m1) as [[[]|e] m2'] eqn:E; [|done]. intros [= -> <-]. eauto.
Qed.

Lemma try_except_returns_inv {A} (body : M A) handler m a m2 :
  try_except body handler m = (Returns a, m2) ->
  body m = (Returns a, m2) \/
  exists e m1 h, body m = (Raises e, m1) /\ handler e = Some h /\ h m1 = (Returns a, m2).
Proof.
  unfold try_except. destruct (body m) as [[x|e] m1]; [by left|].
  destruct (handler e) as [h|] eqn:E; [|done]. right. eauto 10.
Qed.


Section second_run.
Context (up : upstream).

Lemma probe_count_returns m c m' :
  probe_count up m = (Returns c, m') ->
  fetched (count_probe up (requests m)) ≫= doc_count = Some c.
Proof.
  unfold probe_count. intros H. apply bind_returns_inv in H as (data & m1 & Hg & H).
  destruct (get_json_cases CountProbe (count_probe up) m) as [(m2 & E)|(m2 & E)];
    rewrite E in Hg; [done|].
  unfold fetched. destruct (count_probe up (requests m)) as [status body|]; [|done].
  destruct (_ && _); [done|]. injection Hg as -> _.
  destruct (data ≫= doc_count) as [c'|]; [|done]. by injection H as ->.
Qed.

Lemma count_attempts_returns max_retries attempts : forall m c m',
  count_attempts up max_retries attempts m = (Returns c, m') ->
  exists n, fetched (count_probe up n) ≫= doc_count = Some c.
Proof.
  induction attempts as [|attempt later IH]; intros m c m' H; simpl in H; [done|].
  apply bind_returns_inv in H as (found & m1 & Ht & H).
  apply try_except_returns_inv in Ht as [Ht|(e & m0 & h & Hb & Hh & Hr)].
  - apply bind_returns_inv in Ht as (c' & m2 & Hp & Ht). injection Ht as <- <-.
    injection H as <- <-. eauto using probe_count_returns.
  - destruct found as [c'|]; [|by eapply IH]. exfalso.
    destruct (is_RequestException e).
    + injection Hh as <-. destruct (attempt <? max_retries - 1); [|done].
      apply bind_returns_inv in Hr as (? & ? & _ & Hr). done.
    + destruct e; simplify_eq; done.
Qed.





End second_run.

(** ** An interrupt, once delivered *)

Lemma ordinary_obind {A B} (x : outcome A) (f : A -> outcome B) :
  ordinary x -> (forall a, ordinary (f a)) -> ordinary (obind x f).
Proof.
  destruct x as [a|e]; simpl; [auto|]. intros H _ E. apply H. by simplify_eq.
Qed.

Lemma ordinary_getitem {A} (field : option A) : ordinary (getitem field).
Proof. by destruct field. Qed.

Lemma ordinary_extract url : ordinary (extract_pokemon_id_from_url url).
Proof.
  unfold extract_pokemon_id_from_url. apply ordinary_obind.
  - unfold last_item. by destruct (last _).
  - intros text. unfold int_of_text. by destruct (Text.py_int text).
Qed.


Lemma ordinary_collect chain :
  forall parent acc, ordinary (collect_evolution_chain chain parent acc).
Proof.
  induction chain as [url kids IH] using chain_node_rect'. intros parent acc. simpl.
  apply ordinary_obind; [apply ordinary_getitem|intros u].
  apply ordinary_obind; [apply ordinary_extract|intros id].
  generalize (match parent with
              | Some p => default [] acc ++ [(p, id)]
              | None => default [] acc
              end).
  induction IH as [|k kids Hk _ IHk]; intros l; [done|].
  apply ordinary_obind; [apply Hk|apply IHk].
Qed.














Section interrupted.
Context (up : upstream).





End interrupted.

(** ** Finalization *)



Section finalization.
Context (up : upstream).









End finalization.

(** ** The resume point *)

Lemma for_each_app {A S} (body : A -> S -> M S) xs ys s m :
  for_each body (xs ++ ys) s m = (s' ← for_each body xs s; for_each body ys s') m.
Proof.
  revert s m. induction xs as [|x xs IH]; intros s m; [done|].
  simpl. rewrite !run_bind. destruct (body x s m) as [[s1|e] m1]; [|done].
  rewrite IH. by rewrite run_bind.
Qed.

Lemma for_each_ext {A S} (f g : A -> S -> M S) xs :
  (forall x s m, x ∈ xs -> f x s m = g x s m) ->
  forall s m, for_each f xs s m = for_each g xs s m.
Proof.
  induction xs as [|x xs IH]; intros H s m; [done|].
  simpl. rewrite !run_bind, H by left. destruct (g x s m) as [[s1|e] m1]; [|done].
  apply IH. intros. apply H. by right.
Qed.

Section resume_loop.
Context (up : upstream).

Lemma main_loop_all_loaded loaded ids : forall st m,
  (forall id, id ∈ ids -> id ∈ loaded) ->
  main_loop up loaded ids st m = (Returns (skip_many (Z.of_nat (length ids)) st), m).
Proof.
  unfold main_loop. induction ids as [|x ids IH]; intros st m H.
  - simpl. destruct st. unfold skip_many. simpl. by rewrite Z.add_0_r.
  - simpl. rewrite run_bind, visit_loaded by (apply H; left).
    rewrite IH by (intros; apply H; by right).
    destruct st. unfold skip_many, skip_one. simpl. do 3 f_equal. lia.
Qed.

Lemma main_loop_none_loaded loaded ids st m :
  (forall id, id ∈ ids -> id ∉ loaded) ->
  main_loop up loaded ids st m = for_each (process_one up) ids st m.
Proof.
  intros H. unfold main_loop. apply for_each_ext. intros x s m' Hx.
  by rewrite visit_not_loaded by auto.
Qed.

Lemma main_loop_resume loaded total k st m :
  0 <= k <= total ->
  (forall id, 1 <= id <= total -> (id ∈ loaded <-> id <= k)) ->
  main_loop up loaded (seqZ 1 total) st m
  = for_each (process_one up) (seqZ (k + 1) (total - k)) (skip_many k st) m.
Proof.
  intros Hk Hl. replace total with (k + (total - k)) at 1 by lia.
  rewrite seqZ_app by lia. unfold main_loop. rewrite for_each_app, run_bind.
  fold (main_loop up loaded (seqZ 1 k) st).
  rewrite main_loop_all_loaded.
  2: { intros id Hid. apply elem_of_seqZ in Hid. apply Hl; lia. }
  rewrite length_seqZ, Z2Nat.id by lia.
  replace (1 + k) with (k + 1) by lia.
  apply (main_loop_none_loaded loaded).
  intros id Hid Hin. apply elem_of_seqZ in Hid. apply Hl in Hin; lia.
Qed.

End resume_loop.

(** ** Persisting the edges *)

Lemma pair_key_fmap (l : list (Z * Z)) : pair_key <$> l = l.
Proof. induction l as [|x l IH]; [done|]. by rewrite fmap_cons, IH. Qed.

Lemma unique_pair_keys (l : list (Z * Z)) : unique_keys pair_key l <-> NoDup l.
Proof. unfold unique_keys. by rewrite pair_key_fmap. Qed.

Lemma insert_or_ignore_pair_elem row (t : list (Z * Z)) x :
  x ∈ insert_or_ignore pair_key row t <-> x ∈ t \/ x = row.
Proof.
  rewrite (insert_or_ignore_elem pair_key), pair_key_fmap. unfold pair_key.
  split; [intros [?|[? _]]; auto|]. intros [?| ->]; [by left|].
  destruct (decide (row ∈ t)); auto.
Qed.

Section persist.
Context (up : upstream).

Lemma persist_steps l : forall m,
  sigint m = None -> unique_keys entity_key (pokemon (db m)) ->
  exists m' evs,
    for_each (fun '(from_id, to_id) _ => insert_evolution from_id to_id) l tt m
    = (Returns tt, m') /\
    sigint m' = None /\ pokemon (db m') = pokemon (db m) /\
    trace m' = trace m ++ evs /\ upserts evs = l /\
    (forall e, e ∈ evolutions (db m') <->
               e ∈ evolutions (db m) \/ (e ∈ l /\ joins_records e (db m))) /\
    (NoDup (evolutions (db m)) -> NoDup (evolutions (db m'))).
Proof.
  induction l as [|[a b] l IH]; intros m Hq Hu.
  - exists m, []. simpl. rewrite app_nil_r. split_and!; try done.
    intros e. split; [by left|]. intros [?|[H _]]; [done|]. by apply elem_of_nil in H.
  - simpl. rewrite run_bind, insert_evolution_quiet by done. cbv zeta.
    pose proof (count_pokemon_in_two a b (db m) Hu) as Hc.
    set (m1 := if count_pokemon_in a b (db m) =? 2
               then log (EvExecute (InsertEvolution a b))
                      (on_db (apply_statement (InsertEvolution a b))
                         (log (EvExecute (SelectCountPokemonIn a b)) m))
               else log (EvExecute (SelectCountPokemonIn a b)) m).
    assert (sigint m1 = None) as Hq1.
    { unfold m1. destruct (_ =? 2); by rewrite ?sigint_log, ?sigint_on_db, ?sigint_log. }
    assert (pokemon (db m1) = pokemon (db m)) as Hp1.
    { unfold m1. destruct (_ =? 2); rewrite ?db_log, ?db_on_db, ?db_log; [|done].
      apply pokemon_insert_evolution. }
    assert (exists ev1, trace m1 = trace m ++ ev1 /\ upserts ev1 = [(a, b)]) as (ev1 & T1 & U1).
    { unfold m1. destruct (_ =? 2).
      - exists [EvExecute (SelectCountPokemonIn a b); EvExecute (InsertEvolution a b)].
        rewrite trace_log, trace_on_db, trace_log, <- app_assoc. done.
      - exists [EvExecute (SelectCountPokemonIn a b)]. by rewrite trace_log. }
    assert (forall e, e ∈ evolutions (db m1) <->
              e ∈ evolutions (db m) \/ (e = (a, b) /\ joins_records e (db m))) as E1.
    { intros e. unfold m1, joins_records.
      destruct (Z.eqb_spec (count_pokemon_in a b (db m)) 2) as [E|E].
      - rewrite db_log, db_on_db, db_log, evolutions_insert_evolution.
        rewrite insert_or_ignore_pair_elem. apply Hc in E.
        split; intros [?|?]; auto; [subst e; by right|]. right. tauto.
      - rewrite db_log. split; [by left|]. intros [?|[-> H]]; [done|].
        destruct E. by apply Hc. }
    assert (NoDup (evolutions (db m)) -> NoDup (evolutions (db m1))) as N1.
    { unfold m1. destruct (_ =? 2); rewrite ?db_log, ?db_on_db, ?db_log; [|done].
      rewrite evolutions_insert_evolution. rewrite <- !unique_pair_keys.
      apply insert_or_ignore_unique. }
    destruct (IH m1 Hq1) as (m' & evs & -> & Hq' & Hp' & T' & U' & E' & N').
    { by rewrite Hp1. }
    exists m', (ev1 ++ evs). split_and!; try done.
    + congruence.
    + by rewrite T', T1, app_assoc.
    + unfold upserts in *. by rewrite omap_app, U1, U'.
    + intros e. rewrite E', E1, elem_of_cons. unfold joins_records, known. rewrite Hp1.
      tauto.
    + auto.
Qed.

Lemma persist_evolutions_quiet order all m :
  sigint m = None -> unique_keys entity_key (pokemon (db m)) ->
  exists m' evs,
    persist_evolutions order all m = (Returns tt, m') /\
    trace m' = trace m ++ evs /\
    upserts evs = enumerate order all /\
    (forall e, e ∈ evolutions (db m') <->
               e ∈ evolutions (db m) \/ (e ∈ all /\ joins_records e (db m))) /\
    (NoDup (evolutions (db m)) -> NoDup (evolutions (db m'))).
Proof.
  intros Hq Hu. unfold persist_evolutions.
  destruct (persist_steps (enumerate order all) m Hq Hu)
    as (m' & evs & -> & _ & _ & T & U & E & N).
  exists m', evs. split_and!; try done.
  intros e. rewrite E, enumerate_elem. done.
Qed.

End persist.

(** ** Referential integrity *)

#[global] Instance keeps_preorder I : PreOrder (keeps I).
Proof. split; [by intros m H|]. intros m1 m2 m3 H1 H2 H. exact (H2 (H1 H)). Qed.

Lemma logged_keeps P I {A} (c : M A) :
  (forall evs d, Forall P evs -> I d -> I (replay evs d)) ->
  respects (logged P) c -> respects (keeps I) c.
Proof. intros HI Hc m H. destruct (Hc m) as (evs & _ & -> & F). by apply HI. Qed.

Lemma apply_statement_anchored st d :
  no_edge_insert (EvExecute st) -> edges_anchored d -> edges_anchored (apply_statement st d).
Proof.
  intros Hst [Hu Hr]. split.
  - destruct d, st; simpl in *; try done. by apply insert_or_ignore_unique.
  - intros e He.
    assert (evolutions (apply_statement st d) = evolutions d) as E by (by destruct d, st).
    rewrite E in He. destruct (Hr e He) as [H1 H2].
    split; by apply apply_statement_pokemon_mono.
Qed.

Lemma replay_anchored evs d :
  Forall no_edge_insert evs -> edges_anchored d -> edges_anchored (replay evs d).
Proof.
  intros F. revert d. induction F as [|ev evs Hev _ IH]; intros d H; [done|].
  simpl. apply IH. destruct ev; try done. by apply apply_statement_anchored.
Qed.

Lemma housekeeping_no_edge_insert ev : housekeeping ev -> no_edge_insert ev.
Proof. by destruct ev as [|[]|[]| | | |]. Qed.

Lemma by_pokemon_no_edge_insert id ev : by_pokemon id ev -> no_edge_insert ev.
Proof. by destruct ev as [|[]|[]| | | |]. Qed.

Section anchored.
Context (up : upstream).

Lemma execute_raises st m e m' : execute st m = (Raises e, m') -> db m' = db m.
Proof.
  unfold execute, effect.
  destruct (tick_cases m) as [(m1 & -> & _)|(m1 & -> & D & _)].
  - by destruct (match st with SetPragma _ => _ | _ => _ end m1).
  - by intros [= _ <-].
Qed.

Lemma insert_evolution_anchored a b : respects (keeps edges_anchored) (insert_evolution a b).
Proof.
  intros m [Hu Hr]. unfold insert_evolution. rewrite run_bind.
  destruct (execute (SelectCountPokemonIn a b) m) as [[[]|e] m1] eqn:E1.
  - apply execute_returns in E1 as (D1 & _). rewrite apply_select_count in D1.
    rewrite run_bind. unfold read. cbv beta iota. rewrite D1.
    destruct (Z.eqb_spec (count_pokemon_in a b (db m)) 2) as [Ec|Ec].
    + apply (count_pokemon_in_two a b (db m) Hu) in Ec as (_ & Ha & Hb).
      destruct (execute (InsertEvolution a b) m1) as [[[]|e] m2] eqn:E2.
      * apply execute_returns in E2 as (D2 & _). simpl. rewrite D2, D1. split.
        -- by rewrite pokemon_insert_evolution.
        -- by apply apply_insert_evolution_referential.
      * apply execute_raises in E2. simpl. rewrite E2, D1. by split.
    + simpl. rewrite D1. by split.
  - apply execute_raises in E1. simpl. rewrite E1. by split.
Qed.

Lemma main_keeps_edges_anchored order : respects (keeps edges_anchored) (main up order).
Proof.
  assert (forall A (c : M A), respects (logged no_edge_insert) c ->
            respects (keeps edges_anchored) c) as Hl.
  { intros A c. apply logged_keeps. apply replay_anchored. }
  assert (forall A (c : M A), respects (logged housekeeping) c ->
            respects (keeps edges_anchored) c) as Hh.
  { intros A c H. apply Hl. eapply logged_weaken; [|exact H].
    apply housekeeping_no_edge_insert. }
  unfold main, main_try.
  repeat lazymatch goal with
  | |- respects _ (mbind _ _) => apply respects_bind; [apply _| |intros ?]
  | |- respects _ (try_finally _ _) => apply respects_try_finally; [apply _| |]
  | |- respects _ (mret _) => apply respects_ret; apply _
  | |- respects _ (read _) => apply respects_read; apply _
  | |- respects _ main_finally => apply Hh, main_finally_logged; done
  | |- respects _ get_loaded_pokemon_ids => apply Hh, get_loaded_pokemon_ids_logged; done
  | |- respects _ (get_pokemon_count _ _) => apply Hh, get_pokemon_count_logged; done
  | |- respects _ bulk_insert => apply Hh; unfold bulk_insert; by repeat respects_step
  | |- respects _ (main_loop _ _ _ _) =>
      apply Hl, main_loop_logged;
        [apply housekeeping_no_edge_insert
        |intros ? ? _ _; apply by_pokemon_no_edge_insert]
  | |- respects _ (persist_evolutions _ _) =>
      unfold persist_evolutions; apply respects_for_each; [apply _|];
        intros [? ?] ? _; apply insert_evolution_anchored
  | |- respects _ (execute _) => apply Hh; by repeat respects_step
  | |- respects _ (effect _ _) => apply Hh; by repeat respects_step
  | |- respects _ commit => apply Hh; by repeat respects_step
  end.
Qed.

End anchored.

(** ** The claims *)


Lemma sigint_count_request m : sigint (count_request m) = sigint m.
Proof. by destruct m. Qed.

Lemma db_count_request m : db (count_request m) = db m.
Proof. by destruct m. Qed.

Lemma db_log_all evs m : db (log_all evs m) = db m.
Proof. by destruct m. Qed.

Lemma trace_log_all evs m : trace (log_all evs m) = trace m ++ evs.
Proof. by destruct m. Qed.


Lemma by_pokemon_not_commit id ev : by_pokemon id ev -> ev <> EvCommit.
Proof. by destruct ev. Qed.



Lemma read_param_int_fallback format p query values line :
  Menu.param_type p = Some "int" -> Menu.no_default p ->
  Text.strip Text.str_space line <> "" ->
  Text.py_int (Text.strip Text.str_space line) = None ->
  Menu.read_param format p query values line
  = Returns (Menu.Bind query (values ++ [Menu.VInt 0])).
Proof.
  intros Ht Hd Hne Hint. unfold Menu.read_param. rewrite Ht. simpl.
  assert (Menu.truthy (default (Menu.VStr "") (Menu.param_default p)) = false) as Hf.
  { unfold Menu.no_default in Hd. by destruct (Menu.param_default p). }
  destruct (Text.strip Text.str_space line) as [|c r] eqn:E; [done|].
  unfold int_of_text. rewrite Hint, Hf. done.
Qed.

(** C1, as amended. The record table being keyed by id, and no interrupt
    pending: for two distinct ids the edge upsert inserts the edge exactly
    when both ids are rows of the record table (the tables become what the
    INSERT OR IGNORE of the edge makes of them, and the edge is in the
    evolutions table afterwards); whenever an endpoint is missing, the
    database is left unchanged; and if every persisted edge had both
    endpoints in the record table before the call, so it is after it.
    So it is for a whole run, however it ends: no run persists an edge
    with a missing endpoint. *)
Theorem edge_upsert_checks_both_endpoints :
  (forall a b m,
     sigint m = None -> unique_keys entity_key (pokemon (db m)) ->
     exists m', insert_evolution a b m = (Returns tt, m') /\
       (a <> b -> known a (db m) -> known b (db m) ->
          db m' = apply_statement (InsertEvolution a b) (db m) /\
          (a, b) ∈ evolutions (db m')) /\
       (~ (known a (db m) /\ known b (db m)) -> db m' = db m) /\
       (referential (db m) -> referential (db m'))) /\
  (forall up order d i,
     unique_keys entity_key (pokemon d) -> referential d ->
     referential (db (main up order (boot d i)).2)).
Proof.
  split.
  - intros a b m Hq Hu. rewrite insert_evolution_quiet by done. eexists. split; [done|].
    pose proof (count_pokemon_in_two a b (db m) Hu) as Hc.
    destruct (Z.eqb_spec (count_pokemon_in a b (db m)) 2) as [E|E]; cbv zeta.
    + apply Hc in E as (Hab & Ha & Hb). rewrite !db_log, db_on_db, db_log. split_and!.
      * intros _ _ _. split; [done|]. rewrite evolutions_insert_evolution.
        apply insert_or_ignore_pair.
      * intros []. done.
      * by apply apply_insert_evolution_referential.
    + rewrite db_log. split_and!; [|done..]. intros ? ? ?. destruct E. by apply Hc.
  - intros up order d i Hu Hr.
    by apply (main_keeps_edges_anchored up order (boot d i)).
Qed.

Lemma edge_upsert_checks_both_endpoints_witness :
  sigint (boot (Database [(1, "a"); (3, "c")] [] [] [] [] [] [] [] [] [] [] []) None) = None /\
  (1, 3) ∈ evolutions
    (db (insert_evolution 1 3
           (boot (Database [(1, "a"); (3, "c")] [] [] [] [] [] [] [] [] [] [] []) None)).2).
Proof.
  split; [reflexivity|].
  destruct (proj1 edge_upsert_checks_both_endpoints 1 3
              (boot (Database [(1, "a"); (3, "c")] [] [] [] [] [] [] [] [] [] [] []) None))
    as (m' & E & H & _); [reflexivity|unfold unique_keys; compute_done|].
  rewrite E. apply H; [done|unfold known; compute_done..].
Defined.

(** C1, as stated, fails on a pair whose two ids are equal: the id 1 is a
    row of the record table, so both endpoints of (1, 1) exist, and yet the
    upsert leaves the database as it was, without the edge. *)
Lemma edge_upsert_drops_self_pair :
  known 1 only_record_1 /\
  db (insert_evolution 1 1 (boot only_record_1 None)).2 = only_record_1 /\
  (1, 1) ∉ evolutions (db (insert_evolution 1 1 (boot only_record_1 None)).2).
Proof.
  split_and!.
  - unfold known. compute_done.
  - reflexivity.
  - intros H. vm_compute in H. by apply elem_of_nil in H.
Qed.







Lemma get_loaded_pokemon_ids_quiet m :
  sigint m = None ->
  get_loaded_pokemon_ids m
  = (Returns (list_to_set (pokemon (db m)).*1), log (EvExecute SelectPokemonIds) m).
Proof.
  intros Hq. unfold get_loaded_pokemon_ids. rewrite run_bind, execute_quiet by done.
  unfold read. by destruct m as [[] ? ? ? ?].
Qed.

(** C5. The resume set is the set of the ids of the record table at the
    start. On an id of the resume set the main loop counts one more skipped
    id and does nothing else: the machine is left as it was, so there is no
    GET and no delay. On any other id the per-record pipeline runs, and
    when it returns, loaded or failed, the delay follows (after the commit,
    if one is due). If, of the ids 1..total, exactly 1..k have a record row,
    the loop reduces to k skips followed by the processing of k+1..total in
    order. *)
Theorem resume_set_is_skipped :
  (forall m,
     sigint m = None ->
     get_loaded_pokemon_ids m
     = (Returns (list_to_set (pokemon (db m)).*1), log (EvExecute SelectPokemonIds) m)) /\
  (forall up loaded id st m,
     id ∈ loaded -> visit up loaded id st m = (Returns (skip_one st), m)) /\
  (forall up loaded id st m r m1,
     id ∉ loaded ->
     process_pokemon up id m = (Returns r, m1) -> sigint m1 = None ->
     visit up loaded id st m
     = (Returns (classify r st),
        log_all (batch_commit id ++ [EvSleep REQUEST_DELAY]) m1)) /\
  (forall up d total k st m,
     0 <= k <= total ->
     (forall id, 1 <= id <= total -> (known id d <-> id <= k)) ->
     main_loop up (list_to_set (pokemon d).*1) (seqZ 1 total) st m
     = for_each (process_one up) (seqZ (k + 1) (total - k)) (skip_many k st) m).
Proof.
  split_and!.
  - apply get_loaded_pokemon_ids_quiet.
  - apply visit_loaded.
  - intros up loaded id st m r m1 Hl Hp Hq. rewrite visit_not_loaded by done.
    by rewrite (process_one_returns up id st m r m1).
  - intros up d total k st m Hk Hd. apply main_loop_resume; [done|].
    intros id Hid. rewrite elem_of_list_to_set. by apply Hd.
Qed.

Lemma resume_set_is_skipped_witness :
  main_loop fixture (list_to_set (pokemon only_record_1).*1) (seqZ 1 3) (Progress 0 0 0 [])
    (boot only_record_1 None)
  = for_each (process_one fixture) (seqZ 2 2) (Progress 0 1 0 []) (boot only_record_1 None).
Proof.
  apply (proj2 (proj2 (proj2 resume_set_is_skipped)) fixture only_record_1 3 1); [lia|].
  intros id Hid. unfold known. simpl. rewrite list_elem_of_singleton. lia.
Defined.

(** C6, as amended. A commit is issued in the main loop at every id that
    is a multiple of 10 and is not in the resume set: right after the
    per-record pipeline of that id has returned (which itself commits
    nothing), and before the delay. At an id of the resume set, whatever
    its number, nothing is done, so nothing is committed; at a processed id
    that is no multiple of 10 there is no commit either. *)
Theorem batch_commit_follows_processed_tenth_ids
    (up : upstream) (loaded : gset Z) (id : Z) (st : progress) (m : machine) :
  (id ∈ loaded -> (visit up loaded id st m).2 = m) /\
  (id ∉ loaded ->
     forall r m1,
       process_pokemon up id m = (Returns r, m1) -> sigint m1 = None ->
       (exists evs, trace m1 = trace m ++ evs /\ Forall (fun ev => ev <> EvCommit) evs) /\
       trace (visit up loaded id st m).2
       = trace m1 ++ batch_commit id ++ [EvSleep REQUEST_DELAY] /\
       (id `mod` 10 = 0 -> batch_commit id = [EvCommit]) /\
       (id `mod` 10 <> 0 -> batch_commit id = [])).
Proof.
  split.
  - intros Hl. by rewrite visit_loaded.
  - intros Hl r m1 Hp Hq. split_and!.
    + destruct (process_pokemon_logged up id m) as (evs & T & _ & F).
      rewrite Hp in T. exists evs. split; [done|].
      eapply Forall_impl; [exact F|]. apply by_pokemon_not_commit.
    + rewrite visit_not_loaded, (process_one_returns up id st m r m1) by done.
      apply trace_log_all.
    + intros E. unfold batch_commit. by rewrite E.
    + intros E. unfold batch_commit. by apply Z.eqb_neq in E as ->.
Qed.

Lemma batch_commit_follows_processed_tenth_ids_witness :
  10 `mod` 10 = 0 /\
  trace (visit fixture ∅ 10 (Progress 0 0 0 []) (boot empty_database None)).2
  = [EvGet (PokemonUrl 10); EvCommit; EvSleep REQUEST_DELAY].
Proof.
  split; [reflexivity|].
  destruct (proj2 (batch_commit_follows_processed_tenth_ids fixture ∅ 10
                     (Progress 0 0 0 []) (boot empty_database None))
              (not_elem_of_empty 10) None _ eq_refl eq_refl) as (_ & T & C & _).
  rewrite T, (C eq_refl). reflexivity.
Defined.

(** C6, as stated, fails on a skipped id: 10 is a multiple of 10 and is in
    the resume set; the loop counts it as skipped and leaves the machine as
    it was, so no commit is issued at that id. *)
Lemma skipped_tenth_id_is_not_committed :
  10 `mod` 10 = 0 /\
  visit fixture {[10]} 10 (Progress 0 9 0 []) (boot empty_database None)
  = (Returns (Progress 0 10 0 []), boot empty_database None) /\
  EvCommit ∉ trace (visit fixture {[10]} 10 (Progress 0 9 0 []) (boot empty_database None)).2.
Proof.
  assert (visit fixture {[10]} 10 (Progress 0 9 0 []) (boot empty_database None)
          = (Returns (Progress 0 10 0 []), boot empty_database None)) as E.
  { by rewrite visit_loaded by by apply elem_of_singleton. }
  split_and!; [done|exact E|]. rewrite E. apply not_elem_of_nil.
Qed.

(** C7. When the upstream answers 404 to the GET of a record, the fetch
    returns nothing without raising, the per-record pipeline returns
    nothing too, having sent that one GET and written no row; the main loop
    counts the id as failed and goes on with the next id. *)
Theorem absent_record_is_counted_as_failed
    (up : upstream) (loaded : gset Z) (id : Z) (st : progress) (m : machine)
    (body : option pokemon_doc) (later : list Z) :
  sigint m = None ->
  pokemon_at up (requests m) id = Answer 404 body ->
  id ∉ loaded ->
  let m_get := log (EvGet (PokemonUrl id)) (count_request m) in
  let m_next := log_all (batch_commit id ++ [EvSleep REQUEST_DELAY]) m_get in
  fetch_pokemon_data up id m = (Returns None, m_get) /\
  process_pokemon up id m = (Returns None, m_get) /\
  db m_get = db m /\ db m_next = db m /\
  visit up loaded id st m = (Returns (fail_one st), m_next) /\
  main_loop up loaded (id :: later) st m = main_loop up loaded later (fail_one st) m_next.
Proof.
  intros Hq Ha Hl m_get m_next.
  assert (process_pokemon up id m = (Returns None, m_get)) as Hp
    by (by apply (process_pokemon_404 up id m body)).
  assert (sigint m_get = None) as Hq'
    by (unfold m_get; by rewrite sigint_log, sigint_count_request).
  assert (visit up loaded id st m = (Returns (fail_one st), m_next)) as Hv.
  { rewrite visit_not_loaded by done.
    by rewrite (process_one_returns up id st m None m_get). }
  split_and!.
  - by apply (fetch_pokemon_data_404 up id m body).
  - exact Hp.
  - unfold m_get. by rewrite db_log, db_count_request.
  - unfold m_next, m_get. by rewrite db_log_all, db_log, db_count_request.
  - exact Hv.
  - unfold main_loop. simpl. by rewrite run_bind, Hv.
Qed.

Lemma absent_record_is_counted_as_failed_witness :
  sigint (boot empty_database None) = None /\
  pokemon_at fixture 0 2 = Answer 404 None /\
  process_pokemon fixture 2 (boot empty_database None)
  = (Returns None, log (EvGet (PokemonUrl 2)) (count_request (boot empty_database None))) /\
  visit fixture ∅ 2 (Progress 0 0 0 []) (boot empty_database None)
  = (Returns (Progress 0 0 1 []),
     log_all [EvSleep REQUEST_DELAY]
       (log (EvGet (PokemonUrl 2)) (count_request (boot empty_database None)))).
Proof.
  destruct (absent_record_is_counted_as_failed fixture ∅ 2 (Progress 0 0 0 [])
              (boot empty_database None) None [])
    as (_ & Hp & _ & _ & Hv & _); [reflexivity|reflexivity|apply not_elem_of_empty|].
  split_and!; [reflexivity|reflexivity|exact Hp|exact Hv].
Defined.

(** C8. Every URL has a final path segment: what is left of it, once the
    trailing slashes are dropped, after its last slash. The extractor
    returns what [int] makes of that segment. A segment of decimal digits
    (within the digit limit of the interpreter) gives its decimal value, so
    [https://host/x/resource-kind/42/] gives 42; a segment that is numeric,
    that is, the text of an integer as [int] reads it (digits, single
    underscores between digits, an optional sign, blanks around), gives a
    value; any other segment makes the extractor raise ValueError, and it
    returns no value. *)
Theorem extractor_reads_the_final_segment :
  (forall url,
     exists seg,
       final_segment url seg /\
       extract_pokemon_id_from_url url = int_of_text seg /\
       (digits seg -> (String.length seg <= Text.int_max_str_digits)%nat ->
        extract_pokemon_id_from_url url = Returns (decimal_value seg)) /\
       (int_literal seg -> exists n, extract_pokemon_id_from_url url = Returns n) /\
       (~ int_literal seg ->
        extract_pokemon_id_from_url url = Raises ValueError /\
        forall n, extract_pokemon_id_from_url url <> Returns n)) /\
  extract_pokemon_id_from_url "https://host/x/resource-kind/42/" = Returns 42 /\
  extract_pokemon_id_from_url "https://host/x/resource-kind/forty-two/" = Raises ValueError.
Proof.
  split; [|by split].
  intros url. destruct (final_segment_total url) as [seg Hseg]. exists seg.
  assert (extract_pokemon_id_from_url url = int_of_text seg) as E.
  { unfold extract_pokemon_id_from_url. by rewrite (final_segment_last _ _ Hseg). }
  split_and!; [done|done| | |].
  - intros Hd Hl. rewrite E. unfold int_of_text. by rewrite py_int_digits.
  - intros [n Hn]%int_literal_py_int. exists n. rewrite E. unfold int_of_text.
    by rewrite Hn.
  - intros Hn. rewrite E. unfold int_of_text.
    destruct (Text.py_int seg) as [v|] eqn:Ev; [|done].
    destruct Hn. by eapply py_int_literal.
Qed.



(** C10. In the console, for a parameter of a read-only query declared with
    the type 'int' and without a default, an input that is not empty once
    stripped and that [int] refuses is replaced by 0: the loop goes on with
    0 appended to the values, and a query with that one parameter is sent
    to the store with the value 0. *)
Theorem int_parameter_falls_back_to_zero
    (format : string -> string -> outcome string) (p : Menu.param)
    (query : string) (values : list Menu.value) (line : string)
    (lines : list string) :
  Menu.param_type p = Some "int" -> Menu.no_default p ->
  Text.strip Text.str_space line <> "" ->
  Text.py_int (Text.strip Text.str_space line) = None ->
  Menu.read_param format p query values line
  = Returns (Menu.Bind query (values ++ [Menu.VInt 0])) /\
  Menu.execute_query format query [p] (line :: lines)
  = (Menu.Executed (Text.strip Text.str_space query) [Menu.VInt 0], lines).
Proof.
  intros Ht Hd Hne Hint. split; [by apply read_param_int_fallback|].
  unfold Menu.execute_query. simpl. by rewrite read_param_int_fallback.
Qed.

Lemma int_parameter_falls_back_to_zero_witness :
  Menu.execute_query (fun template _ => Returns template)
    "SELECT name FROM pokemon WHERE pokemon_id < ?;"
    [Menu.Param (Some "max_id") (Some "Enter maximum Pokemon ID: ") (Some "int") None]
    [" twelve "; "0"]
  = (Menu.Executed "SELECT name FROM pokemon WHERE pokemon_id < ?;" [Menu.VInt 0], ["0"]).
Proof.
  apply (int_parameter_falls_back_to_zero (fun template _ => Returns template)
           (Menu.Param (Some "max_id") (Some "Enter maximum Pokemon ID: ") (Some "int") None)
           "SELECT name FROM pokemon WHERE pokemon_id < ?;" [] " twelve " ["0"]);
    [reflexivity|exact I|discriminate|reflexivity].
Defined.

(** * Further properties of the loader and of the console *)

(** ** The count probe *)

Lemma log_all_nil m : log_all [] m = m.
Proof. destruct m. simpl. by rewrite app_nil_r. Qed.

Lemma log_all_app evs1 evs2 m : log_all (evs1 ++ evs2) m = log_all evs2 (log_all evs1 m).
Proof. destruct m. simpl. by rewrite app_assoc. Qed.

Lemma log_as_log_all ev m : log ev m = log_all [ev] m.
Proof. by destruct m. Qed.

Lemma asked_log_all n evs m : asked n (log_all evs m) = log_all evs (asked n m).
Proof. by destruct m. Qed.

Lemma count_request_asked m : count_request m = asked 1 m.
Proof. by destruct m. Qed.

Lemma asked_asked n k m : asked n (asked k m) = asked (n + k) m.
Proof. destruct m. simpl. f_equal. lia. Qed.

Lemma sigint_log_all evs m : sigint (log_all evs m) = sigint m.
Proof. by destruct m. Qed.

Lemma sigint_asked n m : sigint (asked n m) = sigint m.
Proof. by destruct m. Qed.

Lemma requests_log_all evs m : requests (log_all evs m) = requests m.
Proof. by destruct m. Qed.

Lemma requests_asked n m : requests (asked n m) = (n + requests m)%nat.
Proof. by destruct m. Qed.

Lemma backoff_cons j k :
  backoff j (S k) = [EvGet CountProbe; EvSleep (1000 * 2 ^ j)] ++ backoff (j + 1) k.
Proof.
  unfold backoff. rewrite seqZ_cons by lia. simpl.
  by replace (Z.pred (Z.of_nat (S k))) with (Z.of_nat k) by lia.
Qed.

Section count_probe.
Context (up : upstream).

Lemma probe_count_quiet m :
  sigint m = None ->
  probe_count up m
  = (match count_probe up (requests m) with
     | NoAnswer => Raises RequestException
     | Answer status body =>
         if (400 <=? status) && (status <? 600) then Raises (HTTPError status)
         else match body ≫= doc_count with
              | Some count => Returns count
              | None => Raises ValueError
              end
     end, log (EvGet CountProbe) (count_request m)).
Proof.
  intros H. unfold probe_count. rewrite run_bind, get_json_quiet by done.
  destruct (count_probe up (requests m)) as [status body|]; [|done].
  destruct (_ && _); [done|]. by destruct (body ≫= doc_count).
Qed.

Lemma probe_count_fails m :
  sigint m = None -> request_fails (count_probe up (requests m)) ->
  exists e, is_RequestException e = true /\
    probe_count up m = (Raises e, log (EvGet CountProbe) (count_request m)).
Proof.
  intros H F. rewrite probe_count_quiet by done.
  destruct (count_probe up (requests m)) as [status body|]; simpl in F.
  - exists (HTTPError status). split; [done|].
    by replace ((400 <=? status) && (status <? 600)) with true
      by (symmetry; apply andb_true_iff; split; [apply Z.leb_le|apply Z.ltb_lt]; lia).
  - by exists RequestException.
Qed.

Lemma count_attempts_retry max_retries attempt later m :
  sigint m = None -> request_fails (count_probe up (requests m)) ->
  attempt < max_retries - 1 ->
  count_attempts up max_retries (attempt :: later) m
  = count_attempts up max_retries later
      (log_all [EvGet CountProbe; EvSleep (1000 * 2 ^ attempt)] (asked 1 m)).
Proof.
  intros H F Ha. destruct (probe_count_fails m H F) as (e & He & E).
  simpl. rewrite run_bind. unfold try_except at 1. rewrite run_bind, E, He.
  replace (attempt <? max_retries - 1) with true by (symmetry; by apply Z.ltb_lt).
  rewrite run_bind, sleep_quiet by (by rewrite sigint_log, sigint_count_request).
  unfold mret, M_ret. f_equal. destruct m. simpl. by rewrite <- app_assoc.
Qed.

Lemma count_attempts_last max_retries attempt later m :
  sigint m = None -> request_fails (count_probe up (requests m)) ->
  max_retries - 1 <= attempt ->
  count_attempts up max_retries (attempt :: later) m
  = (Raises PlainException, log_all [EvGet CountProbe] (asked 1 m)).
Proof.
  intros H F Ha. destruct (probe_count_fails m H F) as (e & He & E).
  simpl. rewrite run_bind. unfold try_except at 1. rewrite run_bind, E, He.
  replace (attempt <? max_retries - 1) with false by (symmetry; apply Z.ltb_ge; lia).
  simpl. by destruct m.
Qed.

Lemma count_attempts_answered max_retries attempt later m status body :
  sigint m = None -> count_probe up (requests m) = Answer status body ->
  ~ 400 <= status < 600 ->
  count_attempts up max_retries (attempt :: later) m
  = (match body ≫= doc_count with
     | Some count => Returns count
     | None => Raises PlainException
     end, log_all [EvGet CountProbe] (asked 1 m)).
Proof.
  intros H E Hs. simpl. rewrite run_bind. unfold try_except at 1.
  rewrite run_bind, probe_count_quiet, E by done.
  replace ((400 <=? status) && (status <? 600)) with false.
  2: { symmetry. apply andb_false_iff.
       destruct (Z.leb_spec 400 status); [right; apply Z.ltb_ge; lia|by left]. }
  destruct (body ≫= doc_count); simpl; by destruct m.
Qed.

(** [k] failed attempts, none of them the last one allowed, are retried. *)
Lemma count_attempts_skip max_retries (k : nat) : forall j n m,
  sigint m = None -> j + Z.of_nat k < max_retries -> Z.of_nat k <= n ->
  (forall i : nat, (i < k)%nat -> request_fails (count_probe up (i + requests m)%nat)) ->
  count_attempts up max_retries (seqZ j n) m
  = count_attempts up max_retries (seqZ (j + Z.of_nat k) (n - Z.of_nat k))
      (log_all (backoff j k) (asked k m)).
Proof.
  induction k as [|k IH]; intros j n m H Hj Hn F.
  - replace (j + Z.of_nat 0) with j by lia. replace (n - Z.of_nat 0) with n by lia.
    unfold backoff. simpl. rewrite log_all_nil. by destruct m.
  - rewrite seqZ_cons by lia.
    rewrite count_attempts_retry; [|done|apply (F 0%nat); lia|lia].
    rewrite (IH (Z.succ j) (Z.pred n)).
    + replace (Z.succ j + Z.of_nat k) with (j + Z.of_nat (S k)) by lia.
      replace (Z.pred n - Z.of_nat k) with (n - Z.of_nat (S k)) by lia.
      f_equal. rewrite backoff_cons, log_all_app, asked_log_all, asked_asked.
      replace (Z.succ j) with (j + 1) by lia.
      by replace (k + 1)%nat with (S k) by lia.
    + by rewrite sigint_log_all, sigint_asked.
    + lia.
    + lia.
    + intros i Hi. rewrite requests_log_all, requests_asked.
      replace (i + (1 + requests m))%nat with (S i + requests m)%nat by lia.
      apply F. lia.
Qed.

End count_probe.

(** X1. When every attempt of the count probe ends in a RequestException,
    [get_pokemon_count] sends exactly [max_retries] requests, waits 1 s,
    2 s, 4 s, ... (two to the attempt, in seconds) after each attempt but
    the last, and then raises an Exception; it writes nothing. *)
Theorem count_probe_gives_up_after_backoff
    (up : upstream) (max_retries : nat) (m : machine) :
  sigint m = None -> (0 < max_retries)%nat ->
  (forall i : nat, (i < max_retries)%nat ->
     request_fails (count_probe up (i + requests m)%nat)) ->
  get_pokemon_count up (Z.of_nat max_retries) m
  = (Raises PlainException,
     log_all (backoff 0 (max_retries - 1) ++ [EvGet CountProbe]) (asked max_retries m)).
Proof.
  intros H Hmax F. unfold get_pokemon_count.
  rewrite (count_attempts_skip up (Z.of_nat max_retries) (max_retries - 1)); [|done|lia|lia|].
  2: { intros i Hi. apply F. lia. }
  replace (Z.of_nat max_retries - Z.of_nat (max_retries - 1)) with 1 by lia.
  rewrite seqZ_cons by lia. rewrite count_attempts_last.
  - f_equal. rewrite log_all_app, asked_log_all, asked_asked.
    by replace (1 + (max_retries - 1))%nat with max_retries by lia.
  - by rewrite sigint_log_all, sigint_asked.
  - rewrite requests_log_all, requests_asked. apply F. lia.
  - lia.
Qed.

Lemma count_probe_gives_up_after_backoff_witness :
  trace (get_pokemon_count
           (Upstream (fun _ => NoAnswer) (pokemon_at fixture) (species_at fixture)
              (chain_at fixture)) 3 (boot empty_database None)).2
  = [EvGet CountProbe; EvSleep 1000; EvGet CountProbe; EvSleep 2000; EvGet CountProbe].
Proof.
  exact (f_equal (fun x => trace x.2)
           (count_probe_gives_up_after_backoff
              (Upstream (fun _ => NoAnswer) (pokemon_at fixture) (species_at fixture)
                 (chain_at fixture)) 3 (boot empty_database None)
              eq_refl ltac:(lia) (fun _ _ => I))).
Defined.

(** X2. [get_pokemon_count] returns the count of the first attempt that is
    answered with one: the [k] attempts before it, each ended by a
    RequestException, are each followed by their backoff, and no request
    is sent after the answer. *)
Theorem count_probe_returns_first_answer
    (up : upstream) (max_retries : Z) (m : machine) (k : nat)
    (status : Z) (body : option count_doc) (count : Z) :
  sigint m = None -> Z.of_nat k < max_retries ->
  (forall i : nat, (i < k)%nat -> request_fails (count_probe up (i + requests m)%nat)) ->
  count_probe up (k + requests m)%nat = Answer status body ->
  ~ 400 <= status < 600 ->
  body ≫= doc_count = Some count ->
  get_pokemon_count up max_retries m
  = (Returns count, log_all (backoff 0 k ++ [EvGet CountProbe]) (asked (S k) m)).
Proof.
  intros H Hk F E Hs Hc. unfold get_pokemon_count.
  rewrite (count_attempts_skip up max_retries k) by (done || lia).
  rewrite seqZ_cons by lia.
  rewrite (count_attempts_answered up _ _ _ _ status body).
  - rewrite Hc. f_equal. rewrite log_all_app, asked_log_all, asked_asked.
    by replace (1 + k)%nat with (S k) by lia.
  - by rewrite sigint_log_all, sigint_asked.
  - by rewrite requests_log_all, requests_asked.
  - done.
Qed.

Lemma count_probe_returns_first_answer_witness :
  get_pokemon_count
    (Upstream (fun n => if Nat.eqb n 0 then Answer 503 None
                        else Answer 200 (Some (CountDoc (Some 1025))))
       (pokemon_at fixture) (species_at fixture) (chain_at fixture)) 3
    (boot empty_database None)
  = (Returns 1025,
     log_all [EvGet CountProbe; EvSleep 1000; EvGet CountProbe]
       (asked 2 (boot empty_database None))).
Proof.
  apply (count_probe_returns_first_answer _ 3 (boot empty_database None) 1 200
           (Some (CountDoc (Some 1025))) 1025);
    [reflexivity|lia| |reflexivity|lia|reflexivity].
  intros [|i] Hi; [simpl; lia|lia].
Defined.

(** X3. An answer to the count probe that carries no count (an empty
    object, or one without the key) is not retried: [get_pokemon_count]
    raises an Exception right after that request, whatever attempts are
    left, and without a backoff. *)
Theorem count_probe_without_count_is_not_retried
    (up : upstream) (max_retries : Z) (m : machine) (status : Z)
    (body : option count_doc) :
  sigint m = None -> 0 < max_retries ->
  count_probe up (requests m) = Answer status body ->
  ~ 400 <= status < 600 ->
  body ≫= doc_count = None ->
  get_pokemon_count up max_retries m
  = (Raises PlainException, log_all [EvGet CountProbe] (asked 1 m)).
Proof.
  intros H Hmax E Hs Hc. unfold get_pokemon_count. rewrite seqZ_cons by lia.
  rewrite (count_attempts_answered up _ _ _ _ status body) by done. by rewrite Hc.
Qed.

Lemma count_probe_without_count_is_not_retried_witness :
  get_pokemon_count
    (Upstream (fun _ => Answer 200 (Some (CountDoc None)))
       (pokemon_at fixture) (species_at fixture) (chain_at fixture)) 3
    (boot empty_database None)
  = (Raises PlainException,
     log_all [EvGet CountProbe] (asked 1 (boot empty_database None))).
Proof.
  apply (count_probe_without_count_is_not_retried _ 3 (boot empty_database None) 200
           (Some (CountDoc None))); [reflexivity|lia|reflexivity|lia|reflexivity].
Defined.

(** ** The fetchers *)

Lemma get_json_outcome {D} ep (answer : nat -> response D) m :
  exists m', db m' = db m /\
    ((get_json ep answer m
      = (match answer (requests m) with
         | NoAnswer => Raises RequestException
         | Answer status body =>
             if (400 <=? status) && (status <? 600) then Raises (HTTPError status)
             else Returns body
         end, m') /\
      trace m' = trace m ++ [EvGet ep] /\ requests m' = S (requests m)) \/
     (get_json ep answer m = (Raises KeyboardInterrupt, m') /\
      trace m' = trace m /\ requests m' = requests m /\ sigint m = Some 0%nat)).
Proof.
  destruct m as [d p t r [[|k]|]].
  - exists (Machine d p t r None). split; [done|]. right. by split_and!.
  - exists (Machine d p (t ++ [EvGet ep]) (S r) (Some k)). split; [done|]. left.
    split_and!; [|done..]. unfold get_json. rewrite run_bind. simpl.
    destruct (answer r); [|done]. by destruct (_ && _).
  - exists (Machine d p (t ++ [EvGet ep]) (S r) None). split; [done|]. left.
    split_and!; [|done..]. unfold get_json. rewrite run_bind. simpl.
    destruct (answer r); [|done]. by destruct (_ && _).
Qed.

Section fetchers.
Context (up : upstream).

Lemma fetch_species_data_quiet id m :
  sigint m = None ->
  fetch_species_data up id m
  = (Returns (fetched (species_at up (requests m) id)),
     log (EvGet (SpeciesUrl id)) (count_request m)).
Proof.
  intros H. unfold fetch_species_data, try_except, fetched. rewrite get_json_quiet by done.
  destruct (species_at up (requests m) id) as [status body|]; [|done].
  destruct (_ && _); [|done]. simpl. by destruct (status =? 404).
Qed.

Lemma fetch_species_data_returns id m x m' :
  fetch_species_data up id m = (Returns x, m') ->
  x = fetched (species_at up (requests m) id).
Proof.
  unfold fetch_species_data, try_except.
  destruct (get_json_cases (SpeciesUrl id) (fun n => species_at up n id) m)
    as [(m1 & ->)|(m1 & ->)]; [done|].
  unfold fetched. destruct (species_at up (requests m) id) as [status body|].
  - destruct (_ && _).
    + simpl. destruct (status =? 404); by intros [= <- _].
    + by intros [= <- _].
  - simpl. by intros [= <- _].
Qed.

End fetchers.


(** ** A record without a name, a record without a species *)

(** X5. A record whose document has no name makes [process_pokemon] raise
    KeyError, unlike a record that is absent: both GETs have been sent by
    then, no row has been written, and the main loop ends on that error
    instead of going on with the next id. *)
Theorem record_without_name_stops_the_run
    (up : upstream) (loaded : gset Z) (id : Z) (later : list Z) (st : progress)
    (m : machine) (doc : pokemon_doc) :
  sigint m = None ->
  fetched (pokemon_at up (requests m) id) = Some doc ->
  doc_name doc = None ->
  id ∉ loaded ->
  let m' := log_all [EvGet (PokemonUrl id); EvGet (SpeciesUrl id)] (asked 2 m) in
  process_pokemon up id m = (Raises KeyError, m') /\
  db m' = db m /\
  main_loop up loaded (id :: later) st m = (Raises KeyError, m').
Proof.
  intros H Hf Hn Hl m'.
  assert (process_pokemon up id m = (Raises KeyError, m')) as E.
  { unfold process_pokemon. rewrite run_bind, fetch_pokemon_data_quiet by done.
    unfold fetched in Hf. rewrite Hf.
    rewrite run_bind, fetch_species_data_quiet
      by (by rewrite sigint_log, sigint_count_request).
    rewrite run_bind, Hn. simpl. unfold m'. f_equal. destruct m. simpl.
    by rewrite <- app_assoc. }
  split_and!; [done|by destruct m|].
  unfold main_loop. simpl. rewrite run_bind, visit_not_loaded by done.
  unfold process_one. destruct st. by rewrite run_bind, E.
Qed.

Lemma record_without_name_stops_the_run_witness :
  main_loop nameless_fixture ∅ [3; 4] (Progress 0 0 0 []) (boot empty_database None)
  = (Raises KeyError,
     log_all [EvGet (PokemonUrl 3); EvGet (SpeciesUrl 3)] (asked 2 (boot empty_database None))).
Proof.
  apply (record_without_name_stops_the_run nameless_fixture ∅ 3 [4] (Progress 0 0 0 [])
           (boot empty_database None) (grass_record None));
    [reflexivity|reflexivity|reflexivity|apply not_elem_of_empty].
Defined.

Lemma without_species_by_pokemon id ev : without_species id ev -> by_pokemon id ev.
Proof. by intros []. Qed.

Lemma apply_statement_without_species id st d :
  without_species id (EvExecute st) ->
  dex (apply_statement st d) = dex d /\
  pokemon_number (apply_statement st d) = pokemon_number d.
Proof. destruct d, st; simpl; by intros []. Qed.

Lemma replay_without_species id evs d :
  Forall (without_species id) evs ->
  dex (replay evs d) = dex d /\ pokemon_number (replay evs d) = pokemon_number d.
Proof.
  revert d. induction evs as [|ev evs IH]; intros d F; [done|].
  apply Forall_cons in F as [Hev F]. simpl.
  destruct (IH (match ev with EvExecute st => apply_statement st d | _ => d end) F)
    as [-> ->].
  destruct ev; try done. by apply (apply_statement_without_species id).
Qed.

(** X6. When the upstream has no species for a record (the species GET gets
    a 404, any other error, or an empty document), the record is loaded all
    the same, but bare: [process_pokemon] sends no GET for an evolution
    chain, writes no pokedex and no pokedex number, and if it returns, it
    returns no edge (or nothing at all, the record itself being absent). *)
Theorem record_without_species_is_loaded_bare (up : upstream) (id : Z) (m : machine) :
  (forall n, fetched (species_at up n id) = None) ->
  (exists evs,
     trace (process_pokemon up id m).2 = trace m ++ evs /\
     Forall (without_species id) evs) /\
  dex (db (process_pokemon up id m).2) = dex (db m) /\
  pokemon_number (db (process_pokemon up id m).2) = pokemon_number (db m) /\
  (forall r m', process_pokemon up id m = (Returns r, m') ->
     match r with
     | Some evolutions => evolutions = [] /\ known id (db m')
     | None => fetched (pokemon_at up (requests m) id) = None
     end).
Proof.
  intros Hs.
  assert (logged (without_species id) m (process_pokemon up id m).2 /\
          forall r m', process_pokemon up id m = (Returns r, m') ->
            match r with
            | Some evolutions => evolutions = []
            | None => fetched (pokemon_at up (requests m) id) = None
            end) as [L R].
  { unfold process_pokemon. rewrite run_bind.
    pose proof (fetch_pokemon_data_logged up (without_species id) id
                  ltac:(by split) m) as L1.
    destruct (fetch_pokemon_data up id m) as [[[doc|]|e] m1] eqn:E1; simpl in L1.
    3: by split.
    2: { split; [done|]. intros r m' [= <- <-].
         by apply fetch_pokemon_data_returns in E1. }
    rewrite run_bind.
    pose proof (fetch_species_data_logged up (without_species id) id
                  ltac:(by split) m1) as L2.
    destruct (fetch_species_data up id m1) as [[species|e] m2] eqn:E2; simpl in L2.
    2: { split; [by etrans|done]. }
    apply fetch_species_data_returns in E2. rewrite Hs in E2. subst species.
    match goal with |- logged _ _ (?c m2).2 /\ _ =>
      assert (respects (logged (without_species id)) c) as Hc end.
    { unfold insert_pokemon, insert_height, insert_weight, store_types, store_stats,
        store_moves, insert_type, insert_stat, insert_move, insert_pokemon_type,
        insert_pokemon_stat, insert_pokemon_move.
      repeat (respects_step; try done). }
    split; [etrans; [exact L1|]; etrans; [exact L2|apply Hc]|].
    intros r m' H.
    do 7 (apply bind_returns_inv in H as (? & ? & _ & H)).
    apply bind_returns_inv in H as (evolutions & ? & He & H).
    injection He as <- _. by injection H as <- _. }
  destruct L as (evs & T & D & F). split_and!.
  - by exists evs.
  - rewrite D. by apply (replay_without_species id).
  - rewrite D. by apply (replay_without_species id).
  - intros r m' H. specialize (R r m' H). destruct r; [|done]. split; [done|].
    exact (process_pokemon_returns up id m (Some l) m' H).
Qed.

Lemma record_without_species_is_loaded_bare_witness :
  dex (db (process_pokemon
             (Upstream (count_probe fixture) (pokemon_at fixture)
                (fun _ _ => Answer 404 None) (chain_at fixture))
             1 (boot empty_database None)).2) = [] /\
  (process_pokemon
     (Upstream (count_probe fixture) (pokemon_at fixture)
        (fun _ _ => Answer 404 None) (chain_at fixture))
     1 (boot empty_database None)).1 = Returns (Some []).
Proof.
  split; [|reflexivity].
  exact (proj1 (proj2 (record_without_species_is_loaded_bare
           (Upstream (count_probe fixture) (pokemon_at fixture)
              (fun _ _ => Answer 404 None) (chain_at fixture))
           1 (boot empty_database None) (fun _ => eq_refl)))).
Defined.

(** ** The evolution chain of a record *)

(** X7. Whatever goes wrong with the evolution chain of a record costs the
    record its edges, and nothing else: [fetch_evolutions] sends its one
    GET and returns, without a write; it returns no edge when the request
    fails (no answer, an error status), when the document has no chain, and
    when the collector raises on a node; otherwise the edges the collector
    found. *)
Theorem chain_failures_yield_no_edges (up : upstream) (url : string) (m : machine) :
  sigint m = None ->
  fetch_evolutions up url m
  = (Returns (chain_edges (chain_at up (requests m) url)),
     log_all [EvGet (ChainUrl url)] (asked 1 m)) /\
  (request_fails (chain_at up (requests m) url) ->
   chain_edges (chain_at up (requests m) url) = []) /\
  (forall status chain e,
     chain_at up (requests m) url = Answer status (Some (ChainDoc (Some chain))) ->
     collect_evolution_chain chain None None = Raises e ->
     chain_edges (chain_at up (requests m) url) = []).
Proof.
  intros H. split_and!.
  - unfold fetch_evolutions, try_except, chain_edges, fetched.
    rewrite run_bind, get_json_quiet by done.
    replace (log (EvGet (ChainUrl url)) (count_request m))
      with (log_all [EvGet (ChainUrl url)] (asked 1 m)) by (by destruct m).
    destruct (chain_at up (requests m) url) as [status body|]; [|done].
    destruct (_ && _); [done|].
    destruct (body ≫= doc_chain) as [chain|]; [|done]. unfold lift.
    pose proof (ordinary_collect chain None None) as Ho.
    destruct (collect_evolution_chain chain None None) as [l|e]; [done|].
    destruct e; done.
  - unfold chain_edges, fetched.
    destruct (chain_at up (requests m) url) as [status body|]; [|done]. simpl.
    intros Hs.
    by replace ((400 <=? status) && (status <? 600)) with true
      by (symmetry; apply andb_true_iff; split; [apply Z.leb_le|apply Z.ltb_lt]; lia).
  - intros status chain e -> E. unfold chain_edges, fetched.
    destruct (_ && _); [done|]. simpl. by rewrite E.
Qed.

Lemma chain_failures_yield_no_edges_witness :
  fetch_evolutions
    (Upstream (count_probe fixture) (pokemon_at fixture) (species_at fixture)
       (fun _ _ => Answer 200 (Some (ChainDoc (Some (ChainNode None [chain_1_3]))))))
    "https://pokeapi.co/api/v2/evolution-chain/1/" (boot empty_database None)
  = (Returns [],
     log_all [EvGet (ChainUrl "https://pokeapi.co/api/v2/evolution-chain/1/")]
       (asked 1 (boot empty_database None))).
Proof.
  exact (proj1 (chain_failures_yield_no_edges
           (Upstream (count_probe fixture) (pokemon_at fixture) (species_at fixture)
              (fun _ _ => Answer 200 (Some (ChainDoc (Some (ChainNode None [chain_1_3]))))))
           "https://pokeapi.co/api/v2/evolution-chain/1/" (boot empty_database None)
           eq_refl)).
Defined.

Lemma collect_accumulates chain : forall parent acc,
  collect_evolution_chain chain parent (Some acc)
  = obind (collect_evolution_chain chain parent (Some [])) (fun l => Returns (acc ++ l)).
Proof.
  induction chain as [url kids IH] using chain_node_rect'. intros parent acc. simpl.
  destruct (getitem url) as [u|e]; [|done]. simpl.
  destruct (extract_pokemon_id_from_url _) as [id|e]; [|done]. simpl.
  assert (match parent with Some p => acc ++ [(p, id)] | None => acc end
          = acc ++ match parent with Some p => [(p, id)] | None => [] end) as ->
    by (destruct parent; [done|by rewrite app_nil_r]).
  match goal with |- context [acc ++ ?x] => generalize x end.
  induction IH as [|k kids Hk _ IHk]; intros l0; [done|].
  simpl. rewrite (Hk (Some id) (acc ++ l0)), (Hk (Some id) l0).
  destruct (collect_evolution_chain k (Some id) (Some [])) as [l1|e]; [|done]. simpl.
  rewrite <- app_assoc. apply IHk.
Qed.

(** X8. The collector called with an accumulator returns the accumulator
    followed by what it returns when called without one, and raises what
    it raises without one: the edges of a subtree do not depend on what
    was collected before. *)
Theorem collector_extends_its_accumulator
    (chain : chain_node) (parent_id : option Z) (evolutions : list edge) :
  collect_evolution_chain chain parent_id (Some evolutions)
  = obind (collect_evolution_chain chain parent_id None)
      (fun found => Returns (evolutions ++ found)).
Proof.
  rewrite collect_accumulates.
  replace (collect_evolution_chain chain parent_id None)
    with (collect_evolution_chain chain parent_id (Some [])); [done|].
  by destruct chain.
Qed.

(** ** The reference extractor, again *)

Lemma rstrip_app_slashes url k :
  Text.rstrip Text.is_slash (url +:+ slashes k) = Text.rstrip Text.is_slash url.
Proof.
  induction url as [|c url IH]; simpl.
  - apply rstrip_slashes.
  - by rewrite IH.
Qed.

(** X9. Trailing slashes, however many, do not change what the extractor
    makes of a URL. *)
Theorem extractor_ignores_trailing_slashes (url : string) (k : nat) :
  extract_pokemon_id_from_url (url +:+ slashes k) = extract_pokemon_id_from_url url.
Proof. unfold extract_pokemon_id_from_url. by rewrite rstrip_app_slashes. Qed.

Lemma scan_digits_uint d : forall acc n,
  Text.scan_digits false acc n (NilEmpty.string_of_uint d)
  = Some (uint_value acc d, (n + String.length (NilEmpty.string_of_uint d))%nat, "").
Proof.
  induction d; intros acc n; simpl;
    [by rewrite Nat.add_0_r|rewrite IHd; do 3 f_equal; lia..].
Qed.

Lemma of_uint_acc_value d : forall p,
  Z.pos (Pos.of_uint_acc d p) = uint_value (Z.pos p) d.
Proof. induction d; intros p; simpl; [done|rewrite IHd; f_equal; lia..]. Qed.

Lemma of_uint_value d : Z.of_N (Pos.of_uint d) = uint_value 0 d.
Proof. induction d; simpl; [done|done|by rewrite of_uint_acc_value..]. Qed.

Lemma all_numeral_uint d : Text.all numeral_char (NilEmpty.string_of_uint d) = true.
Proof. induction d; simpl; by rewrite ?IHd. Qed.

Lemma py_str_numeral n : Text.all numeral_char (Text.py_str n) = true.
Proof.
  unfold Text.py_str. destruct (Z.to_int n) as [d|d]; simpl.
  - destruct d; try apply all_numeral_uint; done.
  - destruct d; try apply all_numeral_uint; done.
Qed.

Lemma py_int_py_str n :
  (String.length (Text.py_str n) <= Text.int_max_str_digits)%nat ->
  Text.py_int (Text.py_str n) = Some n.
Proof.
  intros Hlen. rewrite <- (DecimalZ.of_to n) at 2. unfold Text.py_str in *.
  destruct (Z.to_int n) as [d|d]; unfold NilZero.string_of_int in *.
  - unfold Z.of_int, Z.of_uint. rewrite of_uint_value.
    destruct d; try done.
    all: unfold Text.py_int, NilZero.string_of_uint in *; simpl in *;
      rewrite scan_digits_uint; simpl;
      destruct (_ <? _)%nat eqn:E; [apply Nat.ltb_lt in E; lia|done].
  - unfold Z.of_int, Z.of_uint. rewrite of_uint_value.
    destruct d; try done.
    all: unfold Text.py_int, NilZero.string_of_uint in *; simpl in *;
      rewrite scan_digits_uint; simpl;
      destruct (_ <? _)%nat eqn:E; [apply Nat.ltb_lt in E; lia|done].
Qed.

Lemma numeral_no_slash s :
  Text.all numeral_char s = true -> Text.contains_char "/" s = false.
Proof.
  induction s as [|c s IH]; [done|]. simpl. intros [Hc Hs]%andb_true_iff.
  rewrite (IH Hs), orb_false_r.
  destruct (Ascii.eqb_spec c "/") as [->|]; [by vm_compute in Hc|done].
Qed.

Lemma py_str_nonempty n : Text.py_str n <> "".
Proof.
  unfold Text.py_str. destruct (Z.to_int n) as [d|d]; [|done].
  simpl. by destruct d.
Qed.

Lemma prefix_mismatch a r c t : a <> c -> String.prefix (String a r) (String c t) = false.
Proof. intros. simpl. by destruct (ascii_dec a c). Qed.

Lemma replace_numeral s tail :
  Text.all numeral_char s = true ->
  Text.replace_from "pokemon-species" "pokemon" 0 (s +:+ String "/" tail)
  = s +:+ String "/" (Text.replace_from "pokemon-species" "pokemon" 0 tail).
Proof.
  induction s as [|c s IH]; [done|]. intros [Hc Hs]%andb_true_iff.
  change (String c s +:+ ?x) with (String c (s +:+ x)).
  cbn [Text.replace_from].
  replace (String.prefix "pokemon-species" (String c (s +:+ String "/" tail))) with false.
  - by rewrite IH.
  - symmetry. apply prefix_mismatch. intros <-. by vm_compute in Hc.
Qed.

(** X10. The addresses the loader builds for a record and for its species
    read back as the id they were built from: the extractor returns [id] on
    the address of the record [id], and the collector derives [id] from the
    address of the species [id] (the text of the id being within the digit
    limit of the interpreter). *)
Theorem addresses_read_back_as_their_id (id : Z) :
  (String.length (Text.py_str id) <= Text.int_max_str_digits)%nat ->
  extract_pokemon_id_from_url (endpoint_url (PokemonUrl id)) = Returns id /\
  node_id (Some (endpoint_url (SpeciesUrl id))) = Returns id.
Proof.
  intros Hlen.
  assert (forall p,
    extract_pokemon_id_from_url (p +:+ String "/" (Text.py_str id +:+ slashes 1))
    = Returns id) as E.
  { intros p. unfold extract_pokemon_id_from_url.
    rewrite (final_segment_last _ (Text.py_str id)).
    - simpl. unfold int_of_text. by rewrite py_int_py_str.
    - apply fs_after; [apply numeral_no_slash, py_str_numeral|apply py_str_nonempty]. }
  split.
  - apply (E "https://pokeapi.co/api/v2/pokemon").
  - change (extract_pokemon_id_from_url
              ("https://pokeapi.co/api/v2/pokemon"
               +:+ String "/" (Text.replace_from "pokemon-species" "pokemon" 0
                                 (Text.py_str id +:+ String "/" ""))) = Returns id).
    rewrite (replace_numeral (Text.py_str id) "") by apply py_str_numeral.
    apply (E "https://pokeapi.co/api/v2/pokemon").
Qed.

Lemma addresses_read_back_as_their_id_witness :
  extract_pokemon_id_from_url "https://pokeapi.co/api/v2/pokemon/1025/" = Returns 1025 /\
  node_id (Some "https://pokeapi.co/api/v2/pokemon-species/1025/") = Returns 1025.
Proof.
  apply (addresses_read_back_as_their_id 1025). vm_compute. lia.
Defined.

(** ** What a run does to the tables *)

#[global] Instance grows_preorder : PreOrder grows.
Proof.
  split.
  - intros d. by split_and!.
  - intros d1 d2 d3 H12 H23. unfold grows in *. destruct_and!. split_and!; by etrans.
Qed.

Lemma insert_or_ignore_prefix {R K} `{EqDecision K} (key : R -> K) row table :
  table `prefix_of` insert_or_ignore key row table.
Proof. unfold insert_or_ignore. case_decide; [done|]. by apply prefix_app_r. Qed.

Lemma apply_statement_grows st d : grows d (apply_statement st d).
Proof.
  destruct d, st; unfold grows; simpl; split_and!;
    done || apply insert_or_ignore_prefix.
Qed.

Lemma replay_grows evs d : grows d (replay evs d).
Proof.
  revert d. induction evs as [|ev evs IH]; intros d; [done|]. simpl.
  etrans; [|apply IH]. destruct ev; try done. apply apply_statement_grows.
Qed.

(** X11. A run never changes or removes a row: however [main] ends
    (returning, raising, interrupted), every table it leaves starts with
    the rows it found, in their order; whatever it wrote, it appended. *)
Theorem run_only_appends_rows (up : upstream) (order : set_order) (m : machine) :
  grows (db m) (db (main up order m).2).
Proof.
  destruct (main_logged_any up order m) as (evs & _ & -> & _). apply replay_grows.
Qed.

(** X12. The edges a run persists depend on the set of the collected edges
    only, not on their multiplicity nor on the order in which [list(set(...))]
    hands them over: two passes over lists with the same elements leave the
    same edges in the evolutions table. *)
Theorem persisted_edges_do_not_depend_on_the_order
    (order1 order2 : set_order) (all1 all2 : list edge) (m : machine) :
  sigint m = None -> unique_keys entity_key (pokemon (db m)) ->
  NoDup (evolutions (db m)) ->
  (forall e, e ∈ all1 <-> e ∈ all2) ->
  evolutions (db (persist_evolutions order1 all1 m).2)
  ≡ₚ evolutions (db (persist_evolutions order2 all2 m).2).
Proof.
  intros Hq Hu Hn Hall.
  destruct (persist_evolutions_quiet order1 all1 m Hq Hu) as (m1 & ? & -> & _ & _ & E1 & N1).
  destruct (persist_evolutions_quiet order2 all2 m Hq Hu) as (m2 & ? & -> & _ & _ & E2 & N2).
  simpl. apply NoDup_Permutation; [auto..|].
  intros e. rewrite E1, E2, Hall. done.
Qed.

Lemma persisted_edges_do_not_depend_on_the_order_witness :
  evolutions
    (db (persist_evolutions first_seen [(1, 3); (3, 1); (1, 3)]
           (boot (Database [(1, "a"); (3, "c")] [] [] [] [] [] [] [] [] [] [] []) None)).2)
  ≡ₚ evolutions
    (db (persist_evolutions first_seen [(3, 1); (1, 3)]
           (boot (Database [(1, "a"); (3, "c")] [] [] [] [] [] [] [] [] [] [] []) None)).2).
Proof.
  apply (persisted_edges_do_not_depend_on_the_order first_seen first_seen
           [(1, 3); (3, 1); (1, 3)] [(3, 1); (1, 3)]);
    [reflexivity|unfold unique_keys; compute_done|apply NoDup_nil_2|].
  intros e. rewrite !elem_of_cons, !elem_of_nil. tauto.
Defined.

(** ** The counts of a run *)

Lemma replay_no_record_insert evs d :
  Forall no_record_insert evs -> pokemon (replay evs d) = pokemon d.
Proof.
  revert d. induction evs as [|ev evs IH]; intros d F; [done|].
  apply Forall_cons in F as [Hev F]. simpl. rewrite IH by done.
  destruct ev as [| |st| | | |]; try done. by destruct d, st.
Qed.

Lemma housekeeping_no_record_insert ev : housekeeping ev -> no_record_insert ev.
Proof. destruct ev as [| |[]| | | |]; done. Qed.

Lemma by_edge_no_record_insert ev : by_edge ev -> no_record_insert ev.
Proof. destruct ev as [| |[]| | | |]; done. Qed.

Lemma same_records {A} (c : M A) m :
  respects (logged no_record_insert) c -> pokemon (db (c m).2) = pokemon (db m).
Proof. intros Hc. destruct (Hc m) as (evs & _ & -> & F). by apply replay_no_record_insert. Qed.

(** The events of the processing of [id] add at most the row of [id] to the
    record table, at its end. *)
Lemma replay_by_pokemon_records id evs : forall d,
  Forall (by_pokemon id) evs ->
  pokemon (replay evs d) = pokemon d \/
  (~ known id d /\ exists name, pokemon (replay evs d) = pokemon d ++ [(id, name)]).
Proof.
  induction evs as [|ev evs IH]; intros d F; [by left|].
  apply Forall_cons in F as [Hev F]. simpl.
  set (d1 := match ev with EvExecute st => apply_statement st d | _ => d end).
  assert (pokemon d1 = pokemon d \/
          (~ known id d /\ exists name, pokemon d1 = pokemon d ++ [(id, name)])) as H1.
  { unfold d1. destruct ev as [| |st| | | |]; try by left.
    destruct d, st; try (by left); simpl in *; subst.
    unfold insert_or_ignore, known. simpl. case_decide; [by left|right]. eauto. }
  destruct (IH d1 F) as [E|(Hn & name & E)].
  - rewrite E. exact H1.
  - destruct H1 as [E1|(_ & name1 & E1)].
    + right. rewrite E, E1. split; [|eauto]. unfold known in *. by rewrite <- E1.
    + destruct Hn. unfold known. rewrite E1, fmap_app. apply elem_of_app. right. by left.
Qed.

Section counts.
Context (up : upstream).

Lemma process_pokemon_nothing id m m' :
  process_pokemon up id m = (Returns None, m') -> db m' = db m.
Proof.
  unfold process_pokemon. intros H.
  apply bind_returns_inv in H as (x & m1 & Hf & H).
  assert (db m1 = db m) as D.
  { destruct (fetch_pokemon_data_logged up no_write id I m) as (evs & _ & D & F).
    rewrite Hf in D. simpl in D. rewrite D. by apply replay_no_write. }
  destruct x as [doc|]; [|by injection H as <-].
  do 9 (apply bind_returns_inv in H as (? & ? & _ & H)). done.
Qed.

Lemma process_pokemon_adds_one id m evolutions m' :
  process_pokemon up id m = (Returns (Some evolutions), m') -> ~ known id (db m) ->
  exists name, pokemon (db m') = pokemon (db m) ++ [(id, name)].
Proof.
  intros H Hn. pose proof (process_pokemon_returns up id m _ m' H) as Hk. simpl in Hk.
  destruct (process_pokemon_logged up id m) as (evs & _ & D & F).
  rewrite H in D. simpl in D.
  destruct (replay_by_pokemon_records id evs (db m) F) as [E|(_ & name & E)].
  - destruct Hn. unfold known in *. by rewrite D, E in Hk.
  - exists name. by rewrite D.
Qed.

Lemma main_loop_counts loaded ids : forall st m st' m',
  NoDup ids ->
  (forall id, id ∈ ids -> id ∉ loaded -> ~ known id (db m)) ->
  main_loop up loaded ids st m = (Returns st', m') ->
  success_count st <= success_count st' /\ fail_count st <= fail_count st' /\
  skipped_count st' = skipped_count st + Z.of_nat (length (filter (.∈ loaded) ids)) /\
  success_count st' + skipped_count st' + fail_count st'
  = success_count st + skipped_count st + fail_count st + Z.of_nat (length ids) /\
  Z.of_nat (length (pokemon (db m')))
  = Z.of_nat (length (pokemon (db m))) + (success_count st' - success_count st).
Proof.
  induction ids as [|x ids IH]; intros st m st' m' Hnd Hnew H.
  - injection H as <- <-. simpl. lia.
  - unfold main_loop in H. simpl in H.
    apply bind_returns_inv in H as (st1 & m1 & Hv & H).
    apply NoDup_cons in Hnd as [Hx Hnd].
    destruct (decide (x ∈ loaded)) as [Hl|Hl].
    + rewrite visit_loaded in Hv by done. injection Hv as <- <-.
      destruct (IH _ _ _ _ Hnd ltac:(intros; apply Hnew; [by right|done]) H)
        as (H1 & H2 & H3 & H4 & H5).
      rewrite filter_cons_True by done. destruct st. simpl in *. lia.
    + rewrite visit_not_loaded in Hv by done.
      apply process_one_returns_inv in Hv as (r & m0 & Hp & D & ->).
      rewrite filter_cons_False by done.
      assert (~ known x (db m)) as Hnx by (apply Hnew; [by left|done]).
      destruct r as [evolutions|].
      * destruct (process_pokemon_adds_one x m evolutions m0 Hp Hnx) as (name & E).
        assert (forall y, y ∈ ids -> y ∉ loaded -> ~ known y (db m1)) as Hnew1.
        { intros y Hy Hyl. unfold known. rewrite D, E, fmap_app, elem_of_app.
          intros [Hk|Hk]; [apply (Hnew y); [by right|done|done]|].
          apply list_elem_of_singleton in Hk. simpl in Hk. by subst y. }
        destruct (IH _ _ _ _ Hnd Hnew1 H) as (H1 & H2 & H3 & H4 & H5).
        rewrite D, E, length_app in H5. destruct st. simpl in *. lia.
      * apply process_pokemon_nothing in Hp.
        assert (forall y, y ∈ ids -> y ∉ loaded -> ~ known y (db m1)) as Hnew1.
        { intros y Hy Hyl. unfold known. rewrite D, Hp. intros Hk.
          apply (Hnew y); [by right|done|done]. }
        destruct (IH _ _ _ _ Hnd Hnew1 H) as (H1 & H2 & H3 & H4 & H5).
        rewrite D, Hp in H5. destruct st. simpl in *. lia.
Qed.

End counts.

Section summary.
Context (up : upstream).

Lemma main_try_counts order m sum m' :
  main_try up order m = (Returns sum, m') ->
  exists total n,
    fetched (count_probe up n) ≫= doc_count = Some total /\
    0 <= loaded_now sum /\ 0 <= failed sum /\
    skipped sum
    = Z.of_nat (length (filter (fun id => id ∈ (pokemon (db m)).*1) (seqZ 1 total))) /\
    loaded_now sum + skipped sum + failed sum = Z.max 0 total /\
    pokemon_in_database sum = Z.of_nat (length (pokemon (db m'))) /\
    pokemon_in_database sum = Z.of_nat (length (pokemon (db m))) + loaded_now sum.
Proof.
  unfold main_try. intros H.
  apply bind_returns_inv in H as (loaded & mc & Hl & H).
  apply get_loaded_pokemon_ids_returns in Hl as [-> Dc].
  apply bind_returns_inv in H as (total & md & Hc & H).
  assert (db md = db mc) as Dd.
  { pose proof (housekeeping_same_db (get_pokemon_count up 3) mc) as D.
    rewrite Hc in D. apply D. by apply get_pokemon_count_logged. }
  apply count_attempts_returns in Hc as [n Hn]. exists total, n. split; [done|].
  apply bind_returns_inv in H as (st & me & Hloop & H).
  apply main_loop_counts in Hloop as (H1 & H2 & H3 & H4 & H5); [|apply NoDup_seqZ|].
  2: { intros id _ Hid Hk. apply Hid, elem_of_list_to_set.
       unfold known in Hk. by rewrite Dd, Dc in Hk. }
  assert (pokemon (db m') = pokemon (db me) /\
          pokemon_in_database sum = Z.of_nat (length (pokemon (db m'))) /\
          loaded_now sum = success_count st /\ skipped sum = skipped_count st /\
          failed sum = fail_count st) as (Dp & -> & -> & -> & ->).
  { apply bind_returns_inv in H as ([] & m1 & Hp & H).
    apply bind_returns_inv in H as ([] & m2 & Hcm & H).
    apply bind_returns_inv in H as ([] & m3 & He & H).
    apply bind_returns_inv in H as (c & m4 & Hr & H).
    injection Hr as <- <-. injection H as <- <-. simpl. split; [|done].
    pose proof (same_records (persist_evolutions order (all_evolutions st)) me) as D1.
    rewrite Hp in D1. simpl in D1.
    pose proof (same_records commit m1) as D2. rewrite Hcm in D2. simpl in D2.
    pose proof (same_records (execute SelectCountPokemon) m2) as D3.
    rewrite He in D3. simpl in D3.
    rewrite D3, D2, D1; [done| | |].
    - apply persist_evolutions_logged, by_edge_no_record_insert.
    - by repeat respects_step.
    - by repeat respects_step. }
  simpl in *. rewrite length_seqZ in H4. rewrite Dp, H5, Dd, Dc.
  split_and!; try lia.
  rewrite H3, Z.add_0_l. do 2 f_equal. apply list_filter_iff. intros id.
  by rewrite elem_of_list_to_set.
Qed.

End summary.

(** X13. The counts a finished run reports add up. The ids 1..count are
    each counted once, as loaded, skipped or failed; the skipped ones are
    those that had a record row at the start; and the record table holds
    the rows it held at the start and one more for each id counted as
    loaded, which is the total the run prints. *)
Theorem summary_counts_add_up
    (up : upstream) (order : set_order) (m : machine) (sum : summary) (m' : machine) :
  main up order m = (Returns sum, m') ->
  exists total n,
    fetched (count_probe up n) ≫= doc_count = Some total /\
    0 <= loaded_now sum /\ 0 <= failed sum /\
    skipped sum
    = Z.of_nat (length (filter (fun id => id ∈ (pokemon (db m)).*1) (seqZ 1 total))) /\
    loaded_now sum + skipped sum + failed sum = Z.max 0 total /\
    pokemon_in_database sum = Z.of_nat (length (pokemon (db m'))) /\
    pokemon_in_database sum = Z.of_nat (length (pokemon (db m))) + loaded_now sum.
Proof.
  unfold main. intros H.
  apply bind_returns_inv in H as ([] & m1 & H1 & H).
  apply bind_returns_inv in H as ([] & m2 & H2 & H).
  apply bind_returns_inv in H as ([] & m3 & H3 & H).
  apply try_finally_returns_inv in H as (m4 & H & Hfin).
  assert (db m3 = db m) as D3.
  { pose proof (housekeeping_same_db (effect EvConnect id) m) as D1.
    rewrite H1 in D1. simpl in D1.
    pose proof (housekeeping_same_db (execute (SetPragma (ForeignKeys true))) m1) as D2.
    rewrite H2 in D2. simpl in D2.
    pose proof (housekeeping_same_db bulk_insert m2) as D3.
    rewrite H3 in D3. simpl in D3.
    rewrite D3, D2, D1; [done|by repeat respects_step..|].
    unfold bulk_insert. by repeat respects_step. }
  assert (db m' = db m4) as D4.
  { pose proof (housekeeping_same_db main_finally m4) as D.
    rewrite Hfin in D. apply D. by apply main_finally_logged. }
  destruct (main_try_counts up order m3 sum m4 H) as (total & n & ?).
  exists total, n. by rewrite D4, <- D3.
Qed.

Lemma summary_counts_add_up_witness :
  main fixture first_seen (boot only_record_1 None)
  = (Returns (Summary 1 1 1 2), (main fixture first_seen (boot only_record_1 None)).2) /\
  exists total n,
    fetched (count_probe fixture n) ≫= doc_count = Some total /\
    1 + 1 + 1 = Z.max 0 total.
Proof.
  assert (main fixture first_seen (boot only_record_1 None)
          = (Returns (Summary 1 1 1 2),
             (main fixture first_seen (boot only_record_1 None)).2)) as E
    by (vm_compute; reflexivity).
  split; [exact E|].
  destruct (summary_counts_add_up fixture first_seen _ _ _ E)
    as (total & n & H1 & _ & _ & _ & H2 & _).
  by exists total, n.
Defined.

(** ** The requests of a run *)

#[global] Instance same_requests_preorder : PreOrder same_requests.
Proof. split; [done|]. intros m1 m2 m3. unfold same_requests. congruence. Qed.

Lemma same_requests_effect ev f :
  (forall m, requests (f m) = requests m) -> respects same_requests (effect ev f).
Proof.
  intros Hf m. unfold effect, same_requests.
  destruct (tick_cases m) as [(m' & -> & _ & _ & _ & Hr & _)|(m' & -> & _ & _ & _ & Hr & _)].
  - specialize (Hf m'). destruct (f m'). simpl in *. congruence.
  - done.
Qed.

Lemma same_requests_execute st : respects same_requests (execute st).
Proof. apply same_requests_effect. intros []. by destruct st. Qed.

Lemma same_requests_commit : respects same_requests commit.
Proof. by apply same_requests_effect. Qed.

Lemma same_requests_sleep ms : respects same_requests (sleep ms).
Proof. by apply same_requests_effect. Qed.

Ltac requests_step :=
  first [ apply same_requests_execute | apply same_requests_commit
        | apply same_requests_sleep | respects_step ].

Lemma sends_none {A} (c : M A) k : respects same_requests c -> sends k c.
Proof. intros Hc m. specialize (Hc m). unfold same_requests in Hc. lia. Qed.

Lemma sends_bind a b {A B} (c : M A) (k : A -> M B) :
  sends a c -> (forall x, sends b (k x)) -> sends (a + b) (c ≫= k).
Proof.
  intros Hc Hk m. rewrite run_bind. specialize (Hc m).
  destruct (c m) as [[x|e] m1]; simpl in *; [|lia].
  specialize (Hk x m1). lia.
Qed.

Lemma sends_try_except a b {A} (body : M A) handler :
  sends a body -> (forall e h, handler e = Some h -> sends b h) ->
  sends (a + b) (try_except body handler).
Proof.
  intros Hb Hh m. unfold try_except. specialize (Hb m).
  destruct (body m) as [[x|e] m1]; simpl in *; [lia|].
  destruct (handler e) as [h|] eqn:E; simpl; [|lia].
  specialize (Hh e h E m1). lia.
Qed.

Lemma sends_get_json {D} ep (answer : nat -> response D) : sends 1 (get_json ep answer).
Proof.
  intros m. destruct (get_json_outcome ep answer m)
    as (m' & _ & [(-> & _ & R)|(-> & _ & R & _)]); simpl; lia.
Qed.

Section requests.
Context (up : upstream).

Lemma sends_fetch_pokemon_data id : sends 1 (fetch_pokemon_data up id).
Proof.
  unfold fetch_pokemon_data. apply (sends_try_except 1 0); [apply sends_get_json|].
  intros e h Hh. apply sends_none.
  destruct e; simpl in Hh; simplify_eq; repeat requests_step.
Qed.

Lemma sends_fetch_species_data id : sends 1 (fetch_species_data up id).
Proof.
  unfold fetch_species_data. apply (sends_try_except 1 0); [apply sends_get_json|].
  intros e h Hh. apply sends_none.
  destruct e; simpl in Hh; simplify_eq; repeat requests_step.
Qed.

Lemma sends_fetch_evolutions url : sends 1 (fetch_evolutions up url).
Proof.
  unfold fetch_evolutions. apply (sends_try_except 1 0).
  - apply (sends_bind 1 0); [apply sends_get_json|]. intros data.
    apply sends_none. repeat requests_step.
  - intros e h Hh. apply sends_none. destruct (is_Exception e); simplify_eq.
    repeat requests_step.
Qed.

Lemma sends_process_pokemon id : sends 3 (process_pokemon up id).
Proof.
  unfold process_pokemon.
  apply (sends_bind 1 2); [apply sends_fetch_pokemon_data|]. intros [doc|].
  2: { apply sends_none. repeat requests_step. }
  apply (sends_bind 1 1); [apply sends_fetch_species_data|]. intros species.
  unfold insert_pokemon, insert_height, insert_weight, store_types, store_stats,
    store_moves, store_dex_numbers, insert_type, insert_stat, insert_move, insert_dex,
    insert_pokemon_type, insert_pokemon_stat, insert_pokemon_move, insert_pokemon_number.
  do 7 (apply (sends_bind 0 1); [apply sends_none; repeat requests_step|intros ?]).
  apply (sends_bind 1 0); [|intros ?; apply sends_none; repeat requests_step].
  destruct species as [species|]; [|apply sends_none; repeat requests_step].
  apply (sends_bind 0 1); [apply sends_none; repeat requests_step|intros ?].
  destruct (doc_evolution_chain_url species) as [url|];
    [|apply sends_none; repeat requests_step].
  destruct (truthy url); [apply sends_fetch_evolutions|].
  apply sends_none. repeat requests_step.
Qed.

Lemma sends_visit loaded id st :
  sends (if bool_decide (id ∈ loaded) then 0 else 3) (visit up loaded id st).
Proof.
  unfold visit. case_bool_decide.
  - apply sends_none. destruct st. repeat requests_step.
  - unfold process_one. destruct st.
    apply (sends_bind 3 0); [apply sends_process_pokemon|]. intros r.
    apply sends_none. repeat requests_step.
Qed.

Lemma sends_main_loop loaded ids : forall st,
  sends (3 * length (filter (.∉ loaded) ids)) (main_loop up loaded ids st).
Proof.
  induction ids as [|x ids IH]; intros st.
  - apply sends_none. unfold main_loop. simpl. repeat requests_step.
  - pose proof (sends_visit loaded x st) as Hv.
    pose proof (sends_bind _ _ _ (fun s => main_loop up loaded ids s) Hv IH) as H.
    intros m. specialize (H m). unfold main_loop in *. simpl.
    destruct (decide (x ∈ loaded)) as [Hl|Hl].
    + rewrite bool_decide_eq_true_2 in H by done.
      rewrite filter_cons_False by (by intros ?). simpl in H. lia.
    + rewrite bool_decide_eq_false_2 in H by done.
      rewrite filter_cons_True by done. simpl in *. lia.
Qed.

End requests.

(** X14. The requests of a run are bounded by the ids it processes: the
    processing of one record sends at least none and at most three requests
    (the record, its species, its evolution chain), however it ends, and the
    main loop at most three for each id that is not in the resume set; the
    ids of the resume set cost no request. *)
Theorem at_most_three_requests_per_record
    (up : upstream) (loaded : gset Z) (ids : list Z) (id : Z) (st : progress)
    (m : machine) :
  (requests m <= requests (process_pokemon up id m).2 <= requests m + 3)%nat /\
  (requests m <= requests (main_loop up loaded ids st m).2
   <= requests m + 3 * length (filter (.∉ loaded) ids))%nat.
Proof. split; [apply sends_process_pokemon|apply sends_main_loop]. Qed.

(** ** An interrupt before the [try] *)

(** X15. The [try] of [main] starts after the six effects of the prelude
    (connect, foreign keys, the four bulk-load settings): a user interrupt
    that arrives within them ends [main] at once. Nothing of the
    finalization runs then: no setting is restored, nothing is committed or
    closed, and the bulk-load settings made so far stay as they are. *)
Theorem interrupt_before_the_try_skips_finalization
    (up : upstream) (order : set_order) (m : machine) (k : nat) :
  sigint m = Some k -> (k < 6)%nat ->
  exists m',
    main up order m = (Raises KeyboardInterrupt, m') /\
    trace m' = trace m ++ take k prelude_events /\
    db m' = db m /\ sigint m' = None /\
    ((3 <= k)%nat -> synchronous (pragmas m') = "OFF").
Proof.
  destruct m as [d [fk sy jm cs ts] t r i]. simpl. intros -> Hk.
  do 6 (destruct k as [|k];
        [eexists; split; [reflexivity|]; simpl; rewrite ?app_nil_r, <- ?app_assoc;
         split_and!; (done || lia)|]).
  lia.
Qed.

Lemma interrupt_before_the_try_skips_finalization_witness :
  exists m',
    main fixture first_seen (boot empty_database (Some 3%nat))
    = (Raises KeyboardInterrupt, m') /\
    trace m' = [EvConnect; EvExecute (SetPragma (ForeignKeys true));
                EvExecute (SetPragma (Synchronous "OFF"))] /\
    synchronous (pragmas m') = "OFF".
Proof.
  destruct (interrupt_before_the_try_skips_finalization fixture first_seen
              (boot empty_database (Some 3%nat)) 3 eq_refl ltac:(lia))
    as (m' & E & T & _ & _ & S).
  exists m'. split_and!; [exact E|exact T|apply S; lia].
Defined.

(** ** The console: the calls of [execute_query] *)

Lemma run_bind_C {A B} (c : Console.C A) (k : A -> Console.C B) s :
  (c ≫= k) s = match c s with
               | (inl a, s') => k a s'
               | (inr h, s') => (inr h, s')
               end.
Proof. reflexivity. Qed.










Section console_calls.
Context (format : string -> string -> outcome string).
Context (accepts : list Console.action -> Console.action -> bool).
Context (QUERIES MODIFICATIONS : gmap Z Console.query_info).








End console_calls.


Section console_shape.
Context (format : string -> string -> outcome string).
Context (accepts : list Console.action -> Console.action -> bool).
Context (QUERIES MODIFICATIONS : gmap Z Console.query_info).




End console_shape.



Section read_only.
Context (format : string -> string -> outcome string).
Context (accepts : list Console.action -> Console.action -> bool).
Context (QUERIES MODIFICATIONS : gmap Z Console.query_info).
Hypothesis format_ordinary : forall template argument, ordinary (format template argument).





End read_only.



(** X18. A modification does nothing unless it is confirmed: when the
    answer to the confirmation prompt is not "yes" (once stripped and put in
    lower case), [execute_query] returns False and the only call on the
    connection is its close, whatever the tables hold. *)
Theorem modification_needs_confirmation
    (format : string -> string -> outcome string)
    (accepts : list Console.action -> Console.action -> bool)
    (QUERIES MODIFICATIONS : gmap Z Console.query_info) (query_num : Z)
    (line : string) (lines : list string) :
  ~ confirms line ->
  (Console.execute_query format accepts QUERIES MODIFICATIONS query_num true
     (line :: lines)).1
  = (Returns false, [Console.Close]).
Proof.
  intros Hc. unfold Console.execute_query, Console.execute_query_try.
  rewrite run_bind_C, run_bind_C. unfold Console.lookup_info.
  destruct (MODIFICATIONS !! query_num) as [info|]; [|done]. simpl.
  rewrite run_bind_C. destruct (Console.info_name info); [|done]. simpl.
  rewrite run_bind_C. destruct (Console.info_description info); [|done]. simpl.
  rewrite run_bind_C. simpl.
  destruct (String.eqb_spec (Menu.lower (Text.strip Text.str_space line)) "yes"); done.
Qed.

Lemma modification_needs_confirmation_witness :
  (Console.execute_query (fun template _ => Returns template) (fun _ _ => true) ∅
     {[ 30 := Console.QueryInfo (Some "UPDATE") (Some "Bulk update")
                (Some "UPDATE pokemon_stat SET value = value + 1 WHERE stat_id = 1;")
                None [] ]}
     30 true ["y"; "yes"]).1
  = (Returns false, [Console.Close]).
Proof.
  apply modification_needs_confirmation. unfold confirms. discriminate.
Defined.

Lemma read_param_unreadable p values line :
  unreadable p line -> Console.read_param p values line = Returns Console.Reject.
Proof.
  intros [Hd H]. unfold Console.read_param.
  assert (Menu.truthy (default (Menu.VStr "") (Menu.param_default p)) = false) as Hf.
  { unfold Menu.no_default in Hd. by destruct (Menu.param_default p). }
  rewrite Hf. destruct H as [[Ht Hi]|[Ht He]].
  - rewrite Ht. simpl.
    destruct (Text.strip Text.str_space line) as [|c r] eqn:E; [done|].
    unfold int_of_text. by rewrite Hi.
  - rewrite He. by destruct Ht as [->| ->].
Qed.

(** X19. A modification takes no guess at a parameter it cannot read. For
    a parameter without a default, an input that is no integer where one is
    asked for, or no input where a text is, cancels the modification:
    [execute_query] returns False, having sent no statement at all (unlike
    a read-only query, which goes on with 0). *)
Theorem modification_rejects_what_it_cannot_read
    (format : string -> string -> outcome string)
    (accepts : list Console.action -> Console.action -> bool)
    (QUERIES MODIFICATIONS : gmap Z Console.query_info) (query_num : Z)
    (info : Console.query_info) (p : Menu.param) (later : list Menu.param)
    (confirm line : string) (lines : list string) :
  MODIFICATIONS !! query_num = Some info -> complete info -> query_num <> 13 ->
  Console.info_input_params info = p :: later ->
  confirms confirm -> unreadable p line ->
  Console.execute_query format accepts QUERIES MODIFICATIONS query_num true
    (confirm :: line :: lines)
  = (Returns false, [Console.Close], lines).
Proof.
  intros Hi (Hn & Hd & Hq) H13 Hp Hc Hu.
  destruct info as [[name|] [description|] [query|] query2 params]; try done.
  simpl in Hp. subst params.
  unfold Console.execute_query, Console.execute_query_try, Console.lookup_info.
  rewrite Hi. unfold confirms in Hc. apply Z.eqb_neq in H13.
  repeat (rewrite run_bind_C; simpl). rewrite Hc. simpl.
  repeat (rewrite run_bind_C; simpl). rewrite H13.
  repeat (rewrite run_bind_C; simpl). by rewrite read_param_unreadable.
Qed.

Lemma modification_rejects_what_it_cannot_read_witness :
  Console.execute_query (fun template _ => Returns template) (fun _ _ => true) ∅
    {[ 31 := Console.QueryInfo (Some "DELETE") (Some "Clean up")
               (Some "DELETE FROM pokemon WHERE pokemon_id = ?;") None
               [Menu.Param (Some "pokemon_id") (Some "Enter Pokemon ID: ") (Some "int")
                  (Some (Menu.VStr ""))] ]}
    31 true ["yes"; "twelve"; "0"]
  = (Returns false, [Console.Close], ["0"]).
Proof.
  apply (modification_rejects_what_it_cannot_read _ _ _ _ 31
           (Console.QueryInfo (Some "DELETE") (Some "Clean up")
              (Some "DELETE FROM pokemon WHERE pokemon_id = ?;") None
              [Menu.Param (Some "pokemon_id") (Some "Enter Pokemon ID: ") (Some "int")
                 (Some (Menu.VStr ""))])
           (Menu.Param (Some "pokemon_id") (Some "Enter Pokemon ID: ") (Some "int")
              (Some (Menu.VStr ""))) []);
    [reflexivity|by split_and!|lia|reflexivity|reflexivity|].
  split; [reflexivity|]. left. split; reflexivity.
Defined.

(** ** The console: the parameters of a read-only query *)



Lemma split_list_nonempty text : Forall (fun name => name <> "") (Menu.split_list text).
Proof.
  unfold Menu.split_list. induction (Text.split "," text) as [|t ts IH]; [done|].
  simpl. destruct (Text.strip Text.str_space t) as [|c r]; [done|].
  simpl. by constructor.
Qed.

Lemma const_fmap_replicate {A B} (b : B) (l : list A) :
  const b <$> l = replicate (length l) b.
Proof. induction l as [|x l IH]; [done|]. simpl. by rewrite <- IH. Qed.

Lemma count_placeholders n : count_char "?" (placeholders n) = n.
Proof.
  unfold placeholders. destruct n as [|n]; [done|].
  induction n as [|n IH]; [done|].
  change (Menu.join "," (replicate (S (S n)) "?"))
    with (String "?" (String "," (Menu.join "," (replicate (S n) "?")))).
  remember (Menu.join "," (replicate (S n) "?")) as rest. simpl. by rewrite IH.
Qed.

(** X21. A parameter of type 'in' binds one value for each placeholder it
    asks for: when the loop goes on, the query is what [format] made of the
    template with as many question marks, separated by commas, as values
    were appended; the values are the names of the input (or of the
    default), stripped, in lower case, and none of them is empty. *)
Theorem in_parameter_binds_one_value_per_placeholder
    (format : string -> string -> outcome string) (p : Menu.param)
    (query : string) (values : list Menu.value) (line : string)
    (query' : string) (values' : list Menu.value) :
  Menu.param_type p = Some "in" ->
  Menu.read_param format p query values line = Returns (Menu.Bind query' values') ->
  exists names,
    Forall (fun name => name <> "") names /\
    values' = values ++ (Menu.VStr <$> names) /\
    format query (placeholders (length names)) = Returns query' /\
    count_char "?" (placeholders (length names)) = length names.
Proof.
  intros Ht. unfold Menu.read_param. rewrite Ht. simpl.
  assert (forall names,
    obind (format query (Menu.join "," (const "?" <$> names)))
      (fun q => Returns (Menu.Bind q (values ++ (Menu.VStr <$> names))))
    = Returns (Menu.Bind query' values') ->
    Forall (fun name => name <> "") names ->
    exists names, Forall (fun name => name <> "") names /\
      values' = values ++ (Menu.VStr <$> names) /\
      format query (placeholders (length names)) = Returns query' /\
      count_char "?" (placeholders (length names)) = length names) as Hgo.
  { intros names H F. exists names. rewrite const_fmap_replicate in H.
    fold (placeholders (length names)) in H.
    destruct (format query (placeholders (length names))) as [q|e]; [|done].
    injection H as -> ->. split_and!; [done..|]. apply count_placeholders. }
  set (user_input := Text.strip Text.str_space line).
  set (param_default := default (Menu.VStr "") (Menu.param_default p)).
  assert (forall text,
    match Menu.split_list text with
    | [] =>
        if Menu.truthy param_default
        then match param_default with
             | Menu.VInt _ => Raises AttributeError
             | Menu.VStr text0 =>
                 obind (format query (Menu.join "," (const "?" <$> Menu.split_list text0)))
                   (fun q => Returns (Menu.Bind q
                                        (values ++ (Menu.VStr <$> Menu.split_list text0))))
             end
        else Raises ValueError
    | _ :: _ =>
        obind (format query (Menu.join "," (const "?" <$> Menu.split_list text)))
          (fun q => Returns (Menu.Bind q (values ++ (Menu.VStr <$> Menu.split_list text))))
    end = Returns (Menu.Bind query' values') ->
    exists names, Forall (fun name => name <> "") names /\
      values' = values ++ (Menu.VStr <$> names) /\
      format query (placeholders (length names)) = Returns query' /\
      count_char "?" (placeholders (length names)) = length names) as Hin.
  { intros text H. pose proof (split_list_nonempty text) as F.
    destruct (Menu.split_list text) as [|s l] eqn:E; [|by apply (Hgo (s :: l))].
    destruct (Menu.truthy param_default); [|done].
    destruct param_default as [n|text0]; [done|].
    apply (Hgo (Menu.split_list text0) H), split_list_nonempty. }
  destruct user_input as [|c r].
  - specialize (Hin (Menu.to_text param_default)).
    destruct (Menu.truthy param_default); [exact Hin|done].
  - exact (Hin (String c r)).
Qed.

Lemma in_parameter_binds_one_value_per_placeholder_witness :
  exists names,
    Forall (fun name => name <> "") names /\
    [Menu.VStr "fire"; Menu.VStr "water"] = [] ++ (Menu.VStr <$> names) /\
    (fun template argument => Returns (template +:+ argument)) "IN " (placeholders (length names))
    = Returns "IN ?,?" /\
    count_char "?" (placeholders (length names)) = length names.
Proof.
  apply (in_parameter_binds_one_value_per_placeholder
           (fun template argument => Returns (template +:+ argument))
           (Menu.Param (Some "types") None (Some "in") (Some (Menu.VStr "fire,water,grass")))
           "IN " [] " Fire, water ,," "IN ?,?" [Menu.VStr "fire"; Menu.VStr "water"]);
    reflexivity.
Defined.

(** X22. An int parameter that declares a non-zero integer default falls
    back to it whenever the answer is no integer, the empty answer
    included: the read-only loop and the loop of a modification both bind
    the default itself (an empty answer takes it through its text and back,
    which changes nothing). *)
Theorem int_parameter_falls_back_to_its_default
    (format : string -> string -> outcome string) (p : Menu.param) (query : string)
    (values : list Menu.value) (line : string) (n : Z) :
  Menu.param_type p = Some "int" ->
  Menu.param_default p = Some (Menu.VInt n) -> n <> 0 ->
  (String.length (Text.py_str n) <= Text.int_max_str_digits)%nat ->
  Text.py_int (Text.strip Text.str_space line) = None ->
  Menu.read_param format p query values line
  = Returns (Menu.Bind query (values ++ [Menu.VInt n])) /\
  Console.read_param p values line = Returns (Console.Accept (values ++ [Menu.VInt n])).
Proof.
  intros Ht Hd Hn Hlen Hi.
  assert (Menu.truthy (Menu.VInt n) = true) as Htr.
  { simpl. by destruct (Z.eqb_spec n 0). }
  unfold Menu.read_param, Console.read_param. rewrite Ht, Hd. simpl default.
  rewrite Htr. cbn [String.eqb Ascii.eqb Bool.eqb]. simpl Menu.to_text.
  destruct (Text.strip Text.str_space line) as [|c r] eqn:E.
  - unfold int_of_text. by rewrite py_int_py_str.
  - unfold int_of_text. by rewrite Hi.
Qed.

Lemma int_parameter_falls_back_to_its_default_witness :
  Menu.read_param (fun template _ => Returns template)
    (Menu.Param (Some "max_id") None (Some "int") (Some (Menu.VInt 10)))
    "SELECT name FROM pokemon WHERE pokemon_id <= ?" [] ""
  = Returns (Menu.Bind "SELECT name FROM pokemon WHERE pokemon_id <= ?" [Menu.VInt 10]) /\
  Console.read_param
    (Menu.Param (Some "max_id") None (Some "int") (Some (Menu.VInt 10))) [] ""
  = Returns (Console.Accept [Menu.VInt 10]).
Proof.
  apply (int_parameter_falls_back_to_its_default (fun template _ => Returns template)
           (Menu.Param (Some "max_id") None (Some "int") (Some (Menu.VInt 10)))
           "SELECT name FROM pokemon WHERE pokemon_id <= ?" [] "" 10);
    [reflexivity|reflexivity|lia|vm_compute; lia|reflexivity].
Defined.

(** X23. A read-only query skips a parameter of type 'int' or 'in' that has
    no default when the answer is empty: no value is bound for it, and the
    query is sent all the same, with one value less than it has
    parameters. *)
Theorem empty_answer_skips_the_parameter
    (format : string -> string -> outcome string) (p : Menu.param) (query : string)
    (values : list Menu.value) (line : string) (lines : list string) :
  Menu.param_type p = Some "int" \/ Menu.param_type p = Some "in" ->
  Menu.no_default p ->
  Text.strip Text.str_space line = "" ->
  Menu.read_param format p query values line = Returns Menu.Continue /\
  Menu.execute_query format query [p] (line :: lines)
  = (Menu.Executed (Text.strip Text.str_space query) [], lines).
Proof.
  intros Ht Hd He.
  assert (Menu.truthy (default (Menu.VStr "") (Menu.param_default p)) = false) as Hf.
  { unfold Menu.no_default in Hd. by destruct (Menu.param_default p). }
  assert (forall q vs, Menu.read_param format p q vs line = Returns Menu.Continue) as E.
  { intros q vs. unfold Menu.read_param. rewrite He, Hf. by destruct Ht as [->| ->]. }
  split; [apply E|]. unfold Menu.execute_query. simpl. by rewrite E.
Qed.

Lemma empty_answer_skips_the_parameter_witness :
  Menu.execute_query (fun template _ => Returns template)
    "SELECT name FROM pokemon WHERE pokemon_id < ?;"
    [Menu.Param (Some "max_id") (Some "Enter maximum Pokemon ID: ") (Some "int") None]
    ["  "; "0"]
  = (Menu.Executed "SELECT name FROM pokemon WHERE pokemon_id < ?;" [], ["0"]).
Proof.
  apply (empty_answer_skips_the_parameter (fun template _ => Returns template)
           (Menu.Param (Some "max_id") (Some "Enter maximum Pokemon ID: ") (Some "int") None)
           "SELECT name FROM pokemon WHERE pokemon_id < ?;" [] "  " ["0"]);
    [by left|exact I|reflexivity].
Defined.

(** ** The table of results *)

Section table.
Local Open Scope nat_scope.

Lemma length_append (a b : string) :
  String.length (a +:+ b) = String.length a + String.length b.
Proof. induction a as [|c a IH]; [done|]. simpl. by rewrite IH. Qed.

Lemma length_times c n : String.length (Table.times c n) = n.
Proof. induction n as [|n IH]; [done|]. simpl. by rewrite IH. Qed.

Lemma length_ljust width s :
  String.length (Table.ljust width s) = Nat.max width (String.length s).
Proof. unfold Table.ljust. rewrite length_append, length_times. lia. Qed.

Lemma length_join sep (l : list string) :
  String.length (Menu.join sep l)
  = sum_list (String.length <$> l) + String.length sep * (length l - 1).
Proof.
  induction l as [|x [|y l] IH]; [simpl; lia|simpl; lia|].
  change (Menu.join sep (x :: y :: l)) with (x +:+ sep +:+ Menu.join sep (y :: l)).
  rewrite !length_append, IH. simpl. lia.
Qed.

Lemma widen_row_spec row : forall ws i ws',
  Table.widen_row ws i row = Returns ws' ->
  length ws' = length ws /\
  (forall j w, ws !! j = Some w -> exists w', ws' !! j = Some w' /\ w <= w') /\
  (forall k val, row !! k = Some val ->
     exists w', ws' !! (i + k) = Some w' /\ Table.measure val <= w').
Proof.
  induction row as [|val row IH]; intros ws i ws' H; simpl in H.
  - injection H as <-. split_and!; [done|eauto|]. intros k val Hk. by destruct k.
  - destruct (ws !! i) as [w|] eqn:Ei; [|done].
    apply IH in H as (Hlen & Hmono & Hrow). rewrite length_insert in Hlen.
    assert (i < length ws) as Hi by (by apply lookup_lt_is_Some_1).
    assert (forall j w0, ws !! j = Some w0 ->
              exists w', ws' !! j = Some w' /\ w0 <= w') as Hmono'.
    { intros j w0 Hj. destruct (decide (i = j)) as [<-|Hij].
      - destruct (Hmono i (Nat.max w (Table.measure val))) as (w' & E & Hle).
        { by apply list_lookup_insert_eq. }
        exists w'. split; [done|]. simplify_eq. lia.
      - apply Hmono. by rewrite list_lookup_insert_ne. }
    split_and!; [done|done|]. intros [|k] v Hk; simpl in Hk.
    + injection Hk as <-. rewrite Nat.add_0_r.
      destruct (Hmono i (Nat.max w (Table.measure val))) as (w' & E & Hle).
      { by apply list_lookup_insert_eq. }
      exists w'. split; [done|lia].
    + replace (i + S k) with (S i + k) by lia. by apply Hrow.
Qed.

Lemma widen_spec results : forall ws ws',
  Table.widen ws results = Returns ws' ->
  length ws' = length ws /\
  (forall j w, ws !! j = Some w -> exists w', ws' !! j = Some w' /\ w <= w') /\
  (forall row k val, row ∈ results -> row !! k = Some val ->
     exists w', ws' !! k = Some w' /\ Table.measure val <= w').
Proof.
  induction results as [|row results IH]; intros ws ws' H; simpl in H.
  - injection H as <-. split_and!; [done|eauto|]. intros row k val Hin.
    by apply elem_of_nil in Hin.
  - destruct (Table.widen_row ws 0 row) as [ws1|e] eqn:E1; [|done]. simpl in H.
    apply widen_row_spec in E1 as (L1 & M1 & R1).
    apply IH in H as (L2 & M2 & R2). split_and!; [congruence| |].
    + intros j w Hj. destruct (M1 j w Hj) as (w1 & E1 & H1).
      destruct (M2 j w1 E1) as (w2 & E2 & H2). exists w2. split; [done|lia].
    + intros r k val Hin Hk. apply elem_of_cons in Hin as [->|Hin]; [|by eapply R2].
      destruct (R1 k val Hk) as (w1 & E1 & H1). simpl in E1.
      destruct (M2 k w1 E1) as (w2 & E2 & H2). exists w2. split; [done|lia].
Qed.

Lemma widen_row_total row : forall ws i,
  i + length row <= length ws -> exists ws', Table.widen_row ws i row = Returns ws'.
Proof.
  induction row as [|val row IH]; intros ws i Hlen; simpl in *; [eauto|].
  destruct (lookup_lt_is_Some_2 ws i) as [w ->]; [lia|].
  apply IH. rewrite length_insert. lia.
Qed.

Lemma widen_total results : forall ws,
  Forall (fun row => length row <= length ws) results ->
  exists ws', Table.widen ws results = Returns ws'.
Proof.
  induction results as [|row results IH]; intros ws F; simpl; [eauto|].
  apply Forall_cons in F as [Hrow F].
  destruct (widen_row_total row ws 0) as [ws1 E1]; [done|]. rewrite E1. simpl.
  apply widen_row_spec in E1 as (L1 & _). apply IH. by rewrite L1.
Qed.

Lemma pad_spec texts : forall ws i,
  i + length texts <= length ws ->
  exists padded,
    Table.pad ws i texts = Returns padded /\ length padded = length texts /\
    sum_list (String.length <$> padded) = padded_length (drop i ws) texts.
Proof.
  induction texts as [|text texts IH]; intros ws i Hlen; simpl in *.
  - exists []. split_and!; [done..|]. by destruct (drop i ws).
  - destruct (lookup_lt_is_Some_2 ws i) as [w Ew]; [lia|]. rewrite Ew.
    destruct (IH ws (S i)) as (padded & -> & L & Hsum); [lia|]. simpl.
    eexists. split_and!; [done|simpl; by rewrite L|].
    rewrite (drop_S ws w i Ew), fmap_cons. cbn [padded_length].
    change (sum_list (?x :: ?l)) with (x + sum_list l).
    by rewrite length_ljust, Hsum.
Qed.

Lemma padded_length_ge ws : forall texts,
  length texts = length ws -> sum_list ws <= padded_length ws texts.
Proof.
  induction ws as [|w ws IH]; intros [|text texts] Hlen; simpl in *; try lia.
  specialize (IH texts). lia.
Qed.

Lemma padded_length_fits ws : forall texts,
  Forall2 (fun w text => String.length text <= w) ws texts ->
  padded_length ws texts = sum_list ws.
Proof.
  induction ws as [|w ws IH]; intros texts F; inversion F; subst; simpl; [done|].
  rewrite IH by done. lia.
Qed.

Lemma line_spec ws texts :
  length texts = length ws ->
  exists text,
    Table.line ws texts = Returns text /\
    String.length text = padded_length ws texts + 3 * (length ws - 1).
Proof.
  intros Hlen. unfold Table.line.
  destruct (pad_spec texts ws 0) as (padded & -> & L & Hsum); [lia|]. simpl.
  eexists. split; [done|]. rewrite length_join, Hsum, L, Hlen, drop_0.
  change (String.length " | ") with 3. lia.
Qed.

Lemma lines_spec ws results :
  Forall (fun row => length row = length ws) results ->
  exists rows,
    Table.lines ws results = Returns rows /\
    Forall2 (fun row text =>
               String.length text
               = padded_length ws (Table.display <$> row) + 3 * (length ws - 1))
      results rows.
Proof.
  induction results as [|row results IH]; intros F; simpl.
  - exists []. by split.
  - apply Forall_cons in F as [Hrow F].
    destruct (line_spec ws (Table.display <$> row)) as (text & -> & Ht).
    { by rewrite length_fmap. }
    destruct (IH F) as (rows & -> & Hrows). simpl.
    eexists. split; [done|]. by constructor.
Qed.

End table.

(** X24. The table [format_results] prints is aligned as far as the values
    allow. When every row has as many values as there are columns, the
    layout succeeds; the separator is as long as the header; no row is
    shorter than the header; and a row whose values are all true (neither
    None, nor zero, nor empty) is exactly as long as the header. *)
Theorem table_is_aligned (columns : list string) (results : list (list Table.cell)) :
  Forall (fun row => length row = length columns) results ->
  exists header separator rows,
    Table.layout columns results = Returns (header, separator, rows) /\
    String.length separator = String.length header /\
    Forall2 (fun row text =>
               (String.length header <= String.length text)%nat /\
               (Forall truthy_cell row -> String.length text = String.length header))
      results rows.
Proof.
  intros Hshape. unfold Table.layout.
  destruct (widen_total results (String.length <$> columns)) as [ws E].
  { eapply Forall_impl; [exact Hshape|]. intros row Hrow. simpl in Hrow.
    rewrite length_fmap. lia. }
  rewrite E. simpl. apply widen_spec in E as (L & M & R). rewrite length_fmap in L.
  assert (Forall2 (fun w text => (String.length text <= w)%nat) ws columns) as Hfit.
  { apply Forall2_same_length_lookup. split; [done|]. intros i w text Hw Ht.
    destruct (M i (String.length text)) as (w' & E' & Hle).
    { by rewrite list_lookup_fmap, Ht. }
    by simplify_eq. }
  destruct (line_spec ws columns) as (header & -> & Hh); [done|]. simpl.
  rewrite (padded_length_fits ws columns Hfit) in Hh.
  destruct (lines_spec ws results) as (rows & -> & Hrows).
  { eapply Forall_impl; [exact Hshape|]. intros row Hrow. simpl in *. congruence. }
  simpl. exists header, (Table.times "-" (String.length header)), rows.
  split_and!; [done|apply length_times|].
  apply Forall2_same_length_lookup. split; [by eapply Forall2_length|].
  intros k row text Hk Ht.
  pose proof (Forall2_lookup_lr _ _ _ _ _ _ Hrows Hk Ht) as Hlen. simpl in Hlen.
  assert (length row = length ws) as Hrow.
  { rewrite L. eapply (Forall_lookup_1 _ _ _ _ Hshape Hk). }
  rewrite Hlen, Hh. split.
  - pose proof (padded_length_ge ws (Table.display <$> row)) as Hge.
    rewrite length_fmap in Hge. specialize (Hge Hrow). lia.
  - intros Htruthy. rewrite (padded_length_fits ws (Table.display <$> row)); [done|].
    apply Forall2_same_length_lookup. split; [by rewrite length_fmap|].
    intros i w shown Hw Hs. rewrite list_lookup_fmap in Hs.
    destruct (row !! i) as [val|] eqn:Ev; [|done]. injection Hs as <-.
    destruct (R row i val) as (w' & E' & Hle); [by eapply list_elem_of_lookup_2|done|].
    pose proof (Forall_lookup_1 _ _ _ _ Htruthy Ev) as Hv.
    destruct val as [|[|] shown]; try done. simpl in *. by simplify_eq.
Qed.

Lemma table_is_aligned_witness :
  Table.layout ["id"; "name"]
    [[Table.Value true "1"; Table.Value true "bulbasaur"];
     [Table.Value true "25"; Table.Null]]
  = Returns ("id | name     ", "--------------",
             ["1  | bulbasaur"; "25 | NULL     "]) /\
  exists header separator rows,
    Table.layout ["id"; "name"]
      [[Table.Value true "1"; Table.Value true "bulbasaur"];
       [Table.Value true "25"; Table.Null]]
    = Returns (header, separator, rows) /\
    String.length separator = String.length header /\
    Forall2 (fun row text =>
               (String.length header <= String.length text)%nat /\
               (Forall truthy_cell row -> String.length text = String.length header))
      [[Table.Value true "1"; Table.Value true "bulbasaur"];
       [Table.Value true "25"; Table.Null]] rows.
Proof.
  split; [reflexivity|].
  apply (table_is_aligned ["id"; "name"]
           [[Table.Value true "1"; Table.Value true "bulbasaur"];
            [Table.Value true "25"; Table.Null]]).
  repeat constructor.
Defined.

(** ** The menu loop *)






Section menu_loop.
Context (format : string -> string -> outcome string).
Context (accepts : list Console.action -> Console.action -> bool).
Context (QUERIES MODIFICATIONS : gmap Z Console.query_info).










End menu_loop.

Section menu_ends.
Context (format : string -> string -> outcome string).
Context (accepts : list Console.action -> Console.action -> bool).
Context (QUERIES MODIFICATIONS : gmap Z Console.query_info).



End menu_ends.

